(** * Local tensor-product interpolation kernel (fem/gslib/interpolate_local_3.cpp)

    A shallow embedding of [lagrange_eval], [InterpolateLocal3DKernel] and
    [FindPointsGSLIB::InterpolateLocal3], and the properties of their
    specification.

    Conventions of the embedding.
    - [int] is a 32-bit two's-complement integer: a [Z] on which every
      arithmetic operation is followed by [wrap].  A shift has a value only
      for a count from 0 to 31; elsewhere it is undefined behaviour.
    - [double] is a type [F] with the handful of operations the kernel uses,
      bundled in the class [Arith].  The binary64 instance is [float_arith];
      the rational instance [Qc_arith] serves the algebraic properties.
      No law is assumed of the operations unless a theorem says so.
    - Memory is a set of regions, one per pointer parameter of the kernel and
      one per shared scratch array; a region maps offsets to cells.  A load
      or a store outside the allocated cells, and a load of a cell that was
      never written, is undefined behaviour: outcome [Undefined].
    - A failed [MFEM_VERIFY] is outcome [Abort]. *)

From Stdlib Require Import ZArith List String Bool Lia Floats Uint63.
From Stdlib Require Import QArith Qcanon Ring_theory Ring.
Import ListNotations.

Local Open Scope Z_scope.

(** ** 32-bit [int] *)

Module Int32.

Definition INT_MAX : Z := 2147483647.
Definition INT_MIN : Z := -2147483648.

Definition wrap (z : Z) : Z := (z + 2147483648) mod 4294967296 - 2147483648.

Definition in_range (z : Z) : Prop := INT_MIN <= z <= INT_MAX.

Definition add (a b : Z) : Z := wrap (a + b).
Definition sub (a b : Z) : Z := wrap (a - b).
Definition mul (a b : Z) : Z := wrap (a * b).
(** C++ [a << n] on [int] is defined for a count [0 <= n < 32] and an
    [a >= 0] whose shifted value fits the unsigned type; it is undefined
    otherwise. *)
Definition shl (a n : Z) : option Z :=
  if (0 <=? n) && (n <? 32) && (0 <=? a) && (Z.shiftl a n <? 4294967296)
  then Some (wrap (Z.shiftl a n))
  else None.
(** C++ [/] truncates towards zero. *)
Definition div (a b : Z) : Z := wrap (Z.quot a b).

End Int32.

(** ** [double] arithmetic *)

Class Arith (F : Type) : Type := {
  fzero : F;
  fone : F;
  fadd : F -> F -> F;
  fsub : F -> F -> F;
  fmul : F -> F -> F;
(** conversion [int] -> [double] *)
  of_int : Z -> F
}.

Definition float_of_int (z : Z) : float :=
  if z <? 0 then PrimFloat.opp (PrimFloat.of_uint63 (Uint63.of_Z (- z)))
  else PrimFloat.of_uint63 (Uint63.of_Z z).

#[export] Instance float_arith : Arith float := {
  fzero := PrimFloat.zero;
  fone := PrimFloat.one;
  fadd := PrimFloat.add;
  fsub := PrimFloat.sub;
  fmul := PrimFloat.mul;
  of_int := float_of_int
}.

#[export] Instance Qc_arith : Arith Qc := {
  fzero := Q2Qc 0;
  fone := Q2Qc 1;
  fadd := Qcplus;
  fsub := Qcminus;
  fmul := Qcmult;
  of_int := fun z => Q2Qc (inject_Z z)
}.

(** ** Outcomes and memory *)

Inductive outcome (A : Type) : Type :=
| Done (a : A)
| Abort (msg : string)
| Undefined.

Arguments Done {A} a.
Arguments Abort {A} msg.
Arguments Undefined {A}.

(** One region per pointer parameter of the kernel ([gf_in], [r], [int_out],
    [gll1D], [lagcoeff]) and one per shared scratch array ([wtr], [sums]).
    The caller passes distinct vectors, so distinct parameters never
    overlap.  The [int] array [el] is kept apart, see [mem]. *)
Inductive region : Type :=
| GfIn | RefR | IntOut | Gll1D | LagCoeff | Wtr | Sums.

Definition region_eqb (a b : region) : bool :=
  match a, b with
  | GfIn, GfIn | RefR, RefR | IntOut, IntOut | Gll1D, Gll1D
  | LagCoeff, LagCoeff | Wtr, Wtr | Sums, Sums => true
  | _, _ => false
  end.

Inductive cell (F : Type) : Type :=
| Unalloc
| Uninit
| Val (v : F).

Arguments Unalloc {F}.
Arguments Uninit {F}.
Arguments Val {F} v.

Record mem (F : Type) : Type := mkMem {
  dbl : region -> Z -> cell F;
  ints : Z -> option Z
}.

Arguments mkMem {F} dbl ints.
Arguments dbl {F} m b o.
Arguments ints {F} m i.

(** A [double *]: a region and an offset into it. *)
Record dptr : Type := mkPtr { base : region; off : Z }.

Definition ptr (b : region) : dptr := mkPtr b 0.

Definition ptr_add (p : dptr) (n : Z) : dptr := mkPtr (base p) (off p + n).

Definition set_cell {F} (m : mem F) (b : region) (o : Z) (c : cell F) : mem F :=
  mkMem (fun b' o' => if region_eqb b b' && (o =? o') then c else dbl m b' o')
        (ints m).

Definition set_region {F} (m : mem F) (b : region) (f : Z -> cell F) : mem F :=
  mkMem (fun b' o' => if region_eqb b b' then f o' else dbl m b' o') (ints m).

Definition is_alloc {F} (c : cell F) : bool :=
  match c with Unalloc => false | _ => true end.

Definition is_val {F} (c : cell F) : bool :=
  match c with Val _ => true | _ => false end.

(** The value of a cell, for specifications (zero where there is none). *)
Definition cell_val {F} `{Arith F} (c : cell F) : F :=
  match c with Val v => v | _ => fzero end.

(** ** The monad of kernel code: state plus outcome *)

Definition M (F A : Type) : Type := mem F -> outcome (A * mem F).

Definition ret {F A} (a : A) : M F A := fun m => Done (a, m).

Definition bind {F A B} (c : M F A) (k : A -> M F B) : M F B :=
  fun m =>
    match c m with
    | Done (a, m') => k a m'
    | Abort msg => Abort msg
    | Undefined => Undefined
    end.

Notation "x <- c ;; k" := (bind c (fun x => k))
  (at level 61, c at next level, right associativity).
Notation "c ;; k" := (bind c (fun _ => k))
  (at level 61, right associativity).

Definition load {F} (p : dptr) (i : Z) : M F F :=
  fun m =>
    match dbl m (base p) (off p + i) with
    | Val v => Done (v, m)
    | _ => Undefined
    end.

Definition store {F} (p : dptr) (i : Z) (v : F) : M F unit :=
  fun m =>
    match dbl m (base p) (off p + i) with
    | Unalloc => Undefined
    | _ => Done (tt, set_cell m (base p) (off p + i) (Val v))
    end.

(** An [int] expression: undefined behaviour where it has no value. *)
Definition int_expr {F} (o : option Z) : M F Z :=
  fun m =>
    match o with
    | Some v => Done (v, m)
    | None => Undefined
    end.

(** [el[i]] *)
Definition load_int {F} (i : Z) : M F Z :=
  fun m =>
    match ints m i with
    | Some e => Done (e, m)
    | None => Undefined
    end.

(** Modelled from the spec: the macro of general/error.hpp, which is not
    part of the sources at hand.  A check that fails is a fatal abort with
    the message of the check. *)
Definition MFEM_VERIFY {F} (cond : bool) (msg : string) : M F unit :=
  fun m => if cond then Done (tt, m) else Abort msg.

(** [n] cells, allocated and never written. *)
Definition fresh_cells {F} (n : Z) : Z -> cell F :=
  fun o => if (0 <=? o) && (o <? n) then Uninit else Unalloc.

(** Modelled from the spec: [MFEM_SHARED double a[n];] declares a scratch
    array of [n] cells for the lanes of one point, none of them written. *)
Definition shared_alloc {F} (b : region) (n : Z) : M F unit :=
  fun m => Done (tt, set_region m b (fresh_cells n)).

(** The end of the scope of a scratch array. *)
Definition shared_free {F} (b : region) : M F unit :=
  fun m => Done (tt, set_region m b (fun _ => Unalloc)).

(** ** Loops *)

Definition zrange (n : Z) : list Z := map Z.of_nat (seq 0 (Z.to_nat n)).

Fixpoint for_list {F A} (l : list Z) (body : Z -> A -> M F A) (a : A) : M F A :=
  match l with
  | [] => ret a
  | x :: l' => a' <- body x a ;; for_list l' body a'
  end.

(** [for (int j = 0; j < n; ++j) body], with the local variable the body
    updates threaded through. *)
Definition for_loop {F A} (n : Z) (body : Z -> A -> M F A) (a : A) : M F A :=
  for_list (zrange n) body a.

Definition for_each {F} (n : Z) (body : Z -> M F unit) : M F unit :=
  for_loop n (fun j _ => body j) tt.

(** Modelled from the spec: the macros of general/forall.hpp, which is not
    part of the sources at hand.  Following the design notes, the lanes of a
    point run as phase-ordered loops ([MFEM_FOREACH_THREAD(j,x,n)] is
    [for (int j = 0; j < n; ++j)]), a barrier ([MFEM_SYNC_THREAD]) is the
    sequencing of two phases, and [forall_2D(N, X, Y, body)] runs [body] for
    every [i < N] in turn. *)
Definition MFEM_FOREACH_THREAD {F} (n : Z) (body : Z -> M F unit) : M F unit :=
  for_each n body.

(** Modelled from the spec: a barrier between two phases that run one after
    the other. *)
Definition MFEM_SYNC_THREAD {F} : M F unit := ret tt.

(** Modelled from the spec: one unit of work per point, [X] by [Y] lanes
    each. *)
Definition forall_2D {F} (N X Y : Z) (body : Z -> M F unit) : M F unit :=
  for_each N body.

(** ** The program *)

Section Program.

Context {F : Type} {AF : Arith F}.

Definition lagrange_eval (p0 : dptr) (x : F) (i p_Nq : Z)
    (z lagrangeCoeff : dptr) : M F unit :=
  s <- int_expr (Int32.shl 1 (Int32.sub p_Nq 1)) ;;
  let p_i := of_int s in
  p_i <- for_loop p_Nq (fun j p_i =>
           zj <- load z j ;;
           let d_j := fsub x zj in
           ret (fmul p_i (if j =? i then fone else d_j))) p_i ;;
  c <- load lagrangeCoeff i ;;
  store p0 i (fmul c p_i).

(** Basis phase of one point *)
Definition basis_phase (D1D i : Z) : M F unit :=
  let r := ptr RefR in
  let gll1D := ptr Gll1D in
  let lagcoeff := ptr LagCoeff in
  let wtr := ptr Wtr in
  MFEM_FOREACH_THREAD D1D (fun j =>
    MFEM_FOREACH_THREAD D1D (fun k =>
      (if k <=? 2
       then x <- load r (Int32.add (Int32.mul 3 i) k) ;;
            lagrange_eval (ptr_add wtr (Int32.mul k D1D)) x j D1D gll1D lagcoeff
       else ret tt) ;;
      (if (D1D =? 2) && (k =? 1)
       then x <- load r (Int32.add (Int32.mul 3 i) 2) ;;
            lagrange_eval (ptr_add wtr (Int32.mul 2 D1D)) x j D1D gll1D lagcoeff
       else ret tt))).

(** Contraction phase of one point and one field component *)
Definition contraction_phase (D1D elemOffset : Z) : M F unit :=
  let gf_in := ptr GfIn in
  let wtr := ptr Wtr in
  let sums := ptr Sums in
  MFEM_FOREACH_THREAD D1D (fun j =>
    MFEM_FOREACH_THREAD D1D (fun k =>
      let jk := Int32.add j (Int32.mul k D1D) in
      store sums jk fzero ;;
      for_each D1D (fun l =>
        g <- load gf_in
               (Int32.add (Int32.add (Int32.add elemOffset j) (Int32.mul k D1D))
                          (Int32.mul (Int32.mul l D1D) D1D)) ;;
        w <- load wtr (Int32.add (Int32.mul 2 D1D) l) ;;
        s <- load sums jk ;;
        store sums jk (fadd s (fmul g w))) ;;
      wk <- load wtr (Int32.add D1D k) ;;
      wj <- load wtr j ;;
      s <- load sums jk ;;
      store sums jk (fmul s (fmul wk wj)))).

(** Reduction phase of one point and one field component *)
Definition reduction_phase (D1D npt i fld : Z) : M F unit :=
  let int_out := ptr IntOut in
  let sums := ptr Sums in
  MFEM_FOREACH_THREAD D1D (fun j =>
    MFEM_FOREACH_THREAD D1D (fun k =>
      if (j =? 0) && (k =? 0)
      then sumv <- for_loop (Int32.mul D1D D1D) (fun jj sumv =>
                     s <- load sums jj ;;
                     ret (fadd sumv s)) fzero ;;
           store int_out (Int32.add i (Int32.mul fld npt)) sumv
      else ret tt)).

(** The body of the [forall_2D] lambda: the work of point [i]. *)
Definition point_body (MD1 D1D p_Np Nfields npt i : Z) : M F unit :=
  shared_alloc Wtr (Int32.mul 3 MD1) ;;
  shared_alloc Sums (Int32.mul MD1 MD1) ;;
  basis_phase D1D i ;;
  MFEM_SYNC_THREAD ;;
  for_each Nfields (fun fld =>
    e <- load_int i ;;
    let elemOffset :=
      Int32.add (Int32.mul (Int32.mul e p_Np) Nfields) (Int32.mul fld p_Np) in
    contraction_phase D1D elemOffset ;;
    MFEM_SYNC_THREAD ;;
    reduction_phase D1D npt i fld ;;
    MFEM_SYNC_THREAD) ;;
  shared_free Sums ;;
  shared_free Wtr.

(** [InterpolateLocal3DKernel<T_D1D>(gf_in, el, r, int_out, npt, ncomp, nel,
    gf_offset, gll1D, lagcoeff, pN)]; the pointer parameters are the regions
    of the memory. *)
Definition InterpolateLocal3DKernel (T_D1D : Z)
    (npt ncomp nel gf_offset pN : Z) : M F unit :=
  let Nfields := ncomp in
  let MD1 := if T_D1D =? 0 then 10 else T_D1D in
  let D1D := if T_D1D =? 0 then pN else T_D1D in
  let p_Np := Int32.mul (Int32.mul D1D D1D) D1D in
  MFEM_VERIFY (MD1 <=? 10) "Increase Max allowable polynomial order." ;;
  MFEM_VERIFY (negb (D1D =? 0)) "Polynomial order not specified." ;;
  forall_2D npt D1D D1D (point_body MD1 D1D p_Np Nfields npt).

(** [FindPointsGSLIB::InterpolateLocal3(field_in, gsl_elem_dev_l, gsl_ref_l,
    field_out, npt, ncomp, nel, dof1Dsol)].  [field_in_size] is
    [field_in.Size()]; the vectors are the regions [GfIn], [RefR], [IntOut],
    the array is [ints], and [DEV.gll1d_sol], [DEV.lagcoeff_sol] are [Gll1D],
    [LagCoeff].  [Read], [ReadWrite] and [Write] hand out the pointer.
    An integer division by zero is undefined. *)
Definition InterpolateLocal3 (field_in_size : Z)
    (npt ncomp nel dof1Dsol : Z) : M F unit :=
  if npt =? 0 then ret tt
  else
    gf_offset <- (if ncomp =? 0 then (fun _ => Undefined)
                  else ret (Int32.div field_in_size ncomp)) ;;
    match dof1Dsol with
    | 2 => InterpolateLocal3DKernel 2 npt ncomp nel gf_offset 0
    | 3 => InterpolateLocal3DKernel 3 npt ncomp nel gf_offset 0
    | 4 => InterpolateLocal3DKernel 4 npt ncomp nel gf_offset 0
    | 5 => InterpolateLocal3DKernel 5 npt ncomp nel gf_offset 0
    | _ => InterpolateLocal3DKernel 0 npt ncomp nel gf_offset dof1Dsol
    end.

End Program.

(** ** Building a memory from the caller's vectors *)

Definition cells_of_list {F} (l : list F) : Z -> cell F :=
  fun o =>
    if o <? 0 then Unalloc
    else match nth_error l (Z.to_nat o) with
         | Some v => Val v
         | None => Unalloc
         end.

Definition ints_of_list (l : list Z) : Z -> option Z :=
  fun o => if o <? 0 then None else nth_error l (Z.to_nat o).

(** Field values, element indices, reference coordinates, an output vector
    of [nout] cells not yet written, and the two basis tables. *)
Definition mk_mem {F} (gf : list F) (el : list Z) (rr : list F) (nout : Z)
    (gll coef : list F) : mem F :=
  mkMem (fun b =>
           match b with
           | GfIn => cells_of_list gf
           | RefR => cells_of_list rr
           | IntOut => fresh_cells nout
           | Gll1D => cells_of_list gll
           | LagCoeff => cells_of_list coef
           | Wtr | Sums => fun _ => Unalloc
           end)
        (ints_of_list el).

Definition completes {F A} (o : outcome (A * mem F)) : bool :=
  match o with Done _ => true | _ => false end.

Definition read_out {F A} (o : outcome (A * mem F)) (b : region) (i : Z)
  : outcome (cell F) :=
  match o with
  | Done (_, m) => Done (dbl m b i)
  | Abort msg => Abort msg
  | Undefined => Undefined
  end.

(** ** What the specification says is computed *)

Section Specification.

Context {F : Type} {AF : Arith F}.

(** The sequence a pointer points to. *)
Definition at_ptr (m : mem F) (p : dptr) : Z -> F :=
  fun j => cell_val (dbl m (base p) (off p + j)).

(** The contents of a region, read as a sequence. *)
Definition table (m : mem F) (b : region) : Z -> F := at_ptr m (ptr b).

(** Sum of [f 0], ..., [f (n-1)] in increasing order. *)
Definition fsum (f : Z -> F) (n : Z) : F :=
  fold_left (fun s j => fadd s (f j)) (zrange n) fzero.

(** The product [lagrange_eval] has accumulated when its loop reaches
    [j = k]. *)
Definition partial_product (z : Z -> F) (x : F)
    (i p_Nq k : Z) : F :=
  fold_left (fun p_i j => fmul p_i (if j =? i then fone else fsub x (z j)))
            (zrange k) (of_int (2 ^ (p_Nq - 1))).

(** The value of an [int] expression, for specifications (zero where it
    has none). *)
Definition int_val (o : option Z) : Z :=
  match o with Some v => v | None => 0 end.

(** The product the loop of [lagrange_eval] accumulates. *)
Definition lagrange_loop (z : Z -> F) (x : F) (i p_Nq : Z) : F :=
  fold_left (fun p_i j => fmul p_i (if j =? i then fone else fsub x (z j)))
            (zrange p_Nq)
            (of_int (int_val (Int32.shl 1 (Int32.sub p_Nq 1)))).

(** The specification's words: [2^(p_Nq-1)] times the product of
    [x - z j] over the [j < p_Nq] other than [i], in increasing order. *)
Definition prod_others (z : Z -> F) (x : F) (i n : Z) (init : F) : F :=
  fold_left (fun p j => fmul p (fsub x (z j)))
            (filter (fun j => negb (j =? i)) (zrange n)) init.

Definition node_product (z : Z -> F) (x : F) (i p_Nq : Z) : F :=
  prod_others z x i p_Nq (of_int (2 ^ (p_Nq - 1))).

(** The value of the [i]-th basis function at [x]. *)
Definition basis_value (z c : Z -> F) (x : F) (i p_Nq : Z) : F :=
  fmul (c i) (node_product z x i p_Nq).

(** [el[i]] *)
Definition el_at (m : mem F) (i : Z) : Z :=
  match ints m i with Some e => e | None => 0 end.

(** The weight of basis index [q] in direction [d] at point [i], as the
    basis phase stores it. *)
Definition loop_weight (m : mem F) (D1D i d q : Z) : F :=
  fmul (table m LagCoeff q)
       (lagrange_loop (table m Gll1D) (table m RefR (3 * i + d)) q D1D).

(** The same weight in the specification's words. *)
Definition weight (m : mem F) (D1D i d q : Z) : F :=
  basis_value (table m Gll1D) (table m LagCoeff) (table m RefR (3 * i + d))
              q D1D.

(** The partial sum of lane [(j, k)]: the sum over the third direction,
    scaled by the weights of the other two directions. *)
Definition lane_value (w : Z -> Z -> F) (m : mem F) (D1D ncomp i fld j k : Z)
  : F :=
  fmul (fsum (fun l =>
                fmul (table m GfIn
                        (el_at m i * D1D ^ 3 * ncomp + fld * D1D ^ 3
                         + j + k * D1D + l * D1D ^ 2))
                     (w 2 l)) D1D)
       (fmul (w 1 k) (w 0 j)).

(** The interpolated value of component [fld] at point [i]: the lane sums
    added over the flat index [j + k * D1D]. *)
Definition interpolated (w : Z -> Z -> F) (m : mem F) (D1D ncomp i fld : Z)
  : F :=
  fsum (fun jj => lane_value w m D1D ncomp i fld (jj mod D1D) (jj / D1D))
       (D1D * D1D).

(** The degree an instantiation runs with. *)
Definition degree (T_D1D pN : Z) : Z := if T_D1D =? 0 then pN else T_D1D.

Definition all_range (n : Z) (p : Z -> bool) : bool := forallb p (zrange n).

(** The invariants of the data model, for [npt] points, [ncomp]
    components, [nel] elements and degree [D1D]: every vector holds what its
    length promises, every size fits an [int], and every element index
    addresses an element. *)
Definition inputs_ok (m : mem F) (npt ncomp nel D1D : Z) : bool :=
  (2 <=? D1D) && (D1D <=? 10)
  && (3 * npt <=? Int32.INT_MAX)
  && (npt * ncomp <=? Int32.INT_MAX)
  && (nel * ncomp * D1D ^ 3 <=? Int32.INT_MAX)
  && all_range npt (fun i =>
       match ints m i with
       | Some e => (0 <=? e) && (e <? nel)
       | None => false
       end)
  && all_range (3 * npt) (fun o => is_val (dbl m RefR o))
  && all_range (nel * ncomp * D1D ^ 3) (fun o => is_val (dbl m GfIn o))
  && all_range D1D (fun o => is_val (dbl m Gll1D o))
  && all_range D1D (fun o => is_val (dbl m LagCoeff o))
  && all_range (npt * ncomp) (fun o => is_alloc (dbl m IntOut o)).

(** ** Reasoning about kernel code *)

(** The regions the kernel is given to read. *)
Definition is_input (b : region) : bool :=
  match b with
  | GfIn | RefR | Gll1D | LagCoeff => true
  | IntOut | Wtr | Sums => false
  end.

(** Two memories hold the same [el] and the same cells outside the regions
    of [S]. *)
Definition agree_off (S : region -> bool) (m1 m2 : mem F) : Prop :=
  (forall i, ints m2 i = ints m1 i) /\
  (forall b o, S b = false -> dbl m2 b o = dbl m1 b o).

(** Total correctness: from a memory satisfying [P] the code runs to
    completion and the result satisfies [Q]. *)
Definition hoare {A} (P : mem F -> Prop) (c : M F A)
    (Q : A -> mem F -> Prop) : Prop :=
  forall m, P m -> exists a m', c m = Done (a, m') /\ Q a m'.

(** The code writes only into the regions of [S]. *)
Definition writes_only {A} (S : region -> bool) (c : M F A) : Prop :=
  forall m a m', c m = Done (a, m') -> agree_off S m m'.

(** The code never fails a [MFEM_VERIFY]. *)
Definition never_aborts {A} (c : M F A) : Prop :=
  forall m msg, c m <> Abort msg.

(** Two runs end alike: the same failure, or the same result in memories
    related by [R]. *)
Definition alike {A} (R : mem F -> mem F -> Prop)
    (o1 o2 : outcome (A * mem F)) : Prop :=
  match o1, o2 with
  | Done (a1, m1), Done (a2, m2) => a1 = a2 /\ R m1 m2
  | Abort s1, Abort s2 => s1 = s2
  | Undefined, Undefined => True
  | _, _ => False
  end.

Definition sim {A} (R R' : mem F -> mem F -> Prop) (c1 c2 : M F A) : Prop :=
  forall m1 m2, R m1 m2 -> alike R' (c1 m1) (c2 m2).

End Specification.

(** The cells a run of degree [D1D] can touch: the first [3 * D1D] of [wtr],
    the first [D1D * D1D] of [sums], and every cell of the caller. *)
Definition covered (D1D : Z) (b : region) (o : Z) : Prop :=
  match b with
  | Wtr => 0 <= o < 3 * D1D
  | Sums => 0 <= o < D1D * D1D
  | _ => True
  end.

(** Two memories hold the same [el] and the same cells wherever a run of
    degree [D1D] can touch them. *)
Definition scratch_agree {F} (D1D : Z) (m1 m2 : mem F) : Prop :=
  (forall i, ints m1 i = ints m2 i) /\
  (forall b o, covered D1D b o -> dbl m1 b o = dbl m2 b o).

(** Two memories hold the same [el] and the same cells. *)
Definition mem_eq {F} (m1 m2 : mem F) : Prop :=
  (forall i, ints m1 i = ints m2 i) /\
  (forall b o, dbl m1 b o = dbl m2 b o).

(** ** Intermediate states of a run

    [m0] is the memory the kernel is entered with. *)

Section Invariants.

Context {F : Type} {AF : Arith F}.
Variables (m0 : mem F) (npt ncomp nel D1D : Z).

(** The regions the kernel reads are as they were in [m0]. *)
Definition same_inputs (m : mem F) : Prop :=
  agree_off (fun b => negb (is_input b)) m0 m.

(** After the basis phase of point [i], [wtr] holds the three weight vectors. *)
Definition wtr_ready (i : Z) (m : mem F) : Prop :=
  forall d q, 0 <= d < 3 -> 0 <= q < D1D ->
    dbl m Wtr (d * D1D + q) = Val (loop_weight m0 D1D i d q).

Definition is_wtr (b : region) : bool := region_eqb b Wtr.

(** The weights of column [j] known so far: those of the directions in [P]. *)
Definition basis_inv (i j : Z) (m1 : mem F) (P : Z -> Prop) (m : mem F)
  : Prop :=
  agree_off is_wtr m1 m /\
  (forall o, 0 <= o < 3 * D1D -> is_alloc (dbl m Wtr o) = true) /\
  (forall d q, 0 <= d < 3 -> 0 <= q < j ->
     dbl m Wtr (d * D1D + q) = Val (loop_weight m0 D1D i d q)) /\
  (forall d, 0 <= d < 3 -> P d ->
     dbl m Wtr (d * D1D + j) = Val (loop_weight m0 D1D i d j)).

Definition is_sums (b : region) : bool := region_eqb b Sums.

Definition sums_alloc (m : mem F) : Prop :=
  forall o, 0 <= o < D1D * D1D -> is_alloc (dbl m Sums o) = true.

(** The cell [jk] of [sums] holds [v]; the rest is as in [ms]. *)
Definition lane_mem (ms : mem F) (jk : Z) (v : F) (m : mem F) : Prop :=
  agree_off is_sums ms m /\
  (forall o, o <> jk -> dbl m Sums o = dbl ms Sums o) /\
  dbl m Sums jk = Val v.

(** The nodal value of tensor index [(j, k, l)] in the block at [E]. *)
Definition gf_at (E j k l : Z) : F :=
  table m0 GfIn (E + j + k * D1D + l * D1D ^ 2).

(** The partial sum of lane [(j, k)] over the block at [E]. *)
Definition lane_at (i E j k : Z) : F :=
  fmul (fsum (fun l => fmul (gf_at E j k l) (loop_weight m0 D1D i 2 l)) D1D)
       (fmul (loop_weight m0 D1D i 1 k) (loop_weight m0 D1D i 0 j)).

(** The lanes of columns below [j] are summed, and those of column [j]
    selected by [P]. *)
Definition contraction_inv (i E j : Z) (m1 : mem F) (P : Z -> Prop)
    (m : mem F) : Prop :=
  agree_off is_sums m1 m /\ sums_alloc m /\
  (forall j' k, 0 <= j' < j -> 0 <= k < D1D ->
     dbl m Sums (j' + k * D1D) = Val (lane_at i E j' k)) /\
  (forall k, 0 <= k < D1D -> P k ->
     dbl m Sums (j + k * D1D) = Val (lane_at i E j k)).

Definition is_scratch_or_out (b : region) : bool := negb (is_input b).

Definition is_sums_or_out (b : region) : bool :=
  region_eqb b Sums || region_eqb b IntOut.

(** The output vector has its [npt * ncomp] cells. *)
Definition out_alloc (m : mem F) : Prop :=
  forall o, 0 <= o < npt * ncomp -> is_alloc (dbl m IntOut o) = true.

(** The value the kernel computes for point [i] and component [fld]. *)
Definition out_value (i fld : Z) : F :=
  interpolated (loop_weight m0 D1D i) m0 D1D ncomp i fld.

(** The components below [fld] of point [i] are written. *)
Definition field_inv (i fld : Z) (m1 m : mem F) : Prop :=
  agree_off is_sums_or_out m1 m /\ sums_alloc m /\ out_alloc m /\
  (forall f, 0 <= f < fld -> dbl m IntOut (i + f * npt) = Val (out_value i f)) /\
  (forall o, (forall f, 0 <= f < fld -> o <> i + f * npt) ->
     dbl m IntOut o = dbl m1 IntOut o).

(** The points below [i] are done. *)
Definition kernel_inv (i : Z) (m : mem F) : Prop :=
  same_inputs m /\ out_alloc m /\
  (forall i' f, 0 <= i' < i -> 0 <= f < ncomp ->
     dbl m IntOut (i' + f * npt) = Val (out_value i' f)) /\
  (forall o, ~ 0 <= o < npt * ncomp -> dbl m IntOut o = dbl m0 IntOut o).

End Invariants.

(** The laws of exact arithmetic that the algebraic properties of the basis
    rest on. *)
Class ExactArith (F : Type) {AF : Arith F} : Prop := {
  fmul_one_r : forall x : F, fmul x fone = x;
  fmul_assoc : forall x y z : F, fmul x (fmul y z) = fmul (fmul x y) z;
  fmul_zero_l : forall x : F, fmul fzero x = fzero;
  fmul_zero_r : forall x : F, fmul x fzero = fzero;
  fsub_diag : forall x : F, fsub x x = fzero
}.

(** ** Concrete inputs *)

(** The memory a run ends in, [m] if it fails. *)
Definition final_mem {F A} (o : outcome (A * mem F)) (m : mem F) : mem F :=
  match o with Done (_, m') => m' | _ => m end.

(** The field vector of component [c] alone, taken out of a vector of three
    interleaved components: per element, the block of [D1D^3] values at
    offset [c * D1D^3] in the element's [3 * D1D^3] values. *)
Definition component_mem {F} (m : mem F) (nel D1D c : Z) : mem F :=
  set_region m GfIn
    (fun o =>
       if (0 <=? o) && (o <? nel * D1D ^ 3)
       then dbl m GfIn (o / D1D ^ 3 * (3 * D1D ^ 3) + c * D1D ^ 3
                        + o mod D1D ^ 3)
       else Unalloc).

(** One element of degree 2 and one component, nodal values 1 to 8 by
    increasing tensor index, nodes [-1, 1] with their coefficients
    [-1/4, 1/4], one point at the centre. *)
Definition mem6 : mem float :=
  mk_mem [1;2;3;4;5;6;7;8]%float [0] [0;0;0]%float 1
         [-1;1]%float [-0.25;0.25]%float.

(** One element of degree 2 with three components, one point at
    (0.5, -0.25, 0). *)
Definition mem3 : mem float :=
  mk_mem [1; 2; 3; 4; 5; 6; 7; 8;
          10; 20; 30; 40; 50; 60; 70; 80;
          0.5; 1.5; 2.5; 3.5; 4.5; 5.5; 6.5; 7.5]%float
         [0] [0.5;-0.25;0]%float 3 [-1;1]%float [-0.25;0.25]%float.

(** Nodes [-1, 0, 1] with their coefficients [1/8, -1/4, 1/8], and three
    cells of [wtr] to store into. *)
Definition mem_basis : mem float :=
  set_region
    (mk_mem [] [] [] 0 [-1;0;1]%float [0.125;-0.25;0.125]%float)
    Wtr (fresh_cells 3).

Definition Qc_of (n : Z) (d : positive) : Qc := Q2Qc (Qmake n d).

(** Nodes [-1, 1] and the coefficients that go with them, [-1/4, 1/4], in
    rational arithmetic; two cells of [wtr] to store into. *)
Definition memQ_basis : mem Qc :=
  set_region
    (mk_mem [] [] [] 0 [Qc_of (-1) 1; Qc_of 1 1] [Qc_of (-1) 4; Qc_of 1 4])
    Wtr (fresh_cells 2).

(** One element of degree 10 (11 nodes per direction), one component, one
    point at the centre. *)
Definition mem11 : mem float :=
  mk_mem (repeat 1%float 1331) [0] [0;0;0]%float 1
         [-1;-0.75;-0.5;-0.375;-0.25;0;0.25;0.375;0.5;0.75;1]%float
         (repeat 1%float 11).

(** One element of 12 nodes per direction, one component, one point at the
    centre: every vector has the length that count of nodes asks for. *)
Definition mem12 : mem float :=
  mk_mem (repeat 1%float 1728) [0] [0;0;0]%float 1
         [-1;-0.875;-0.75;-0.5;-0.25;-0.125;
          0.125;0.25;0.5;0.75;0.875;1]%float
         (repeat 1%float 12).

(** Nodes [-2^1022, 2^1022] and coefficients [-2^-1024, 2^-1024], for which
    [lagrangeCoeff[i] * 2 * (z[i] - z[1-i])] is exactly 1 in binary64; two
    cells of [wtr] to store into. *)
Definition mem_far : mem float :=
  set_region
    (mk_mem [] [] [] 0 [-0x1p1022; 0x1p1022]%float
            [-0x1p-1024; 0x1p-1024]%float)
    Wtr (fresh_cells 2).

(** ** Binary64 values *)

(** A binary64 number that is a zero, [+0] or [-0]; one that is neither an
    infinity nor a NaN. *)
Definition sf_zero (s : spec_float) : Prop :=
  match s with S754_zero _ => True | _ => False end.

Definition sf_finite (s : spec_float) : Prop :=
  match s with S754_zero _ | S754_finite _ _ _ => True | _ => False end.

(** The Kronecker property in the specification's words, read in binary64:
    for distinct nodes and a coefficient table with
    [lagrangeCoeff[i] * 2^(D1D-1) * prod_{j <> i} (z[i] - z[j]) = 1] for
    every [i], the value stored for basis index [i] at the node [z[n]]
    equals 1 when [n = i] and 0 when [n <> i]. *)
Definition kronecker_as_stated (m : mem float) (p0 z lagrangeCoeff : dptr)
    (D1D : Z) : Prop :=
  2 <= D1D <= 10 ->
  (forall i j, 0 <= i < D1D -> 0 <= j < D1D -> i <> j ->
     PrimFloat.eqb (at_ptr m z i) (at_ptr m z j) = false) ->
  (forall i, 0 <= i < D1D ->
     fmul (fmul (at_ptr m lagrangeCoeff i) (of_int (2 ^ (D1D - 1))))
          (prod_others (at_ptr m z) (at_ptr m z i) i D1D fone) = fone) ->
  forall i n, 0 <= i < D1D -> 0 <= n < D1D ->
    exists v : float,
      read_out (lagrange_eval p0 (at_ptr m z n) i D1D z lagrangeCoeff m)
               (base p0) (off p0 + i) = Done (Val v) /\
      PrimFloat.eqb v (if n =? i then 1%float else 0%float) = true.

(** ** Further inputs and laws *)

(** Two points in one element of degree 2. *)
Definition mem2 : mem float :=
  mk_mem [1;2;3;4;5;6;7;8]%float [0;0]
         [0;0;0; 0.5;-0.5;0.25]%float 2 [-1;1]%float [-0.25;0.25]%float.

(** The same as [mem2] but for the second point, which has other
    coordinates. *)
Definition mem2' : mem float :=
  mk_mem [1;2;3;4;5;6;7;8]%float [0;0]
         [0;0;0; -0.25;1;0.75]%float 2 [-1;1]%float [-0.25;0.25]%float.

(** The cube of [mem6] in rational arithmetic, its one point on the node
    of tensor index (0, 1, 0). *)
Definition memQ_cube : mem Qc :=
  mk_mem (map (fun n => Qc_of n 1) [1;2;3;4;5;6;7;8]) [0]
         [Qc_of (-1) 1; Qc_of 1 1; Qc_of (-1) 1] 1
         [Qc_of (-1) 1; Qc_of 1 1] [Qc_of (-1) 4; Qc_of 1 4].

(** The memory of [basis_phase] alone: the vectors of [mem2], and [wtr]
    declared for ten nodes. *)
Definition mem_wtr : mem float :=
  set_region
    (mk_mem [1;2;3;4;5;6;7;8]%float [0] [0.5;-0.5;0.25]%float 1
            [-1;1]%float [-0.25;0.25]%float)
    Wtr (fresh_cells 30).

(** The laws of zero in sums. *)
Class AddZero (F : Type) {AF : Arith F} : Prop := {
  fadd_zero_l : forall x : F, fadd fzero x = x;
  fadd_zero_r : forall x : F, fadd x fzero = x
}.

(** The laws of sums that turn the sum factorisation into the sum over all
    the nodes. *)
Class SumArith (F : Type) {AF : Arith F} : Prop := {
  fadd_assoc : forall x y z : F, fadd x (fadd y z) = fadd (fadd x y) z;
  fmul_add_distr_r : forall x y z : F,
    fmul (fadd x y) z = fadd (fmul x z) (fmul y z)
}.

(** The tensor-product interpolant: the sum over the nodes [(j, k, l)] of
    the element, [l] innermost, of the nodal value times the three
    weights. *)
Definition tensor_sum {F} {AF : Arith F} (w : Z -> Z -> F) (m : mem F)
    (D1D ncomp i fld : Z) : F :=
  fsum (fun k =>
    fsum (fun j =>
      fsum (fun l =>
        fmul (fmul (table m GfIn
                      (el_at m i * D1D ^ 3 * ncomp + fld * D1D ^ 3
                       + j + k * D1D + l * D1D ^ 2))
                   (w 2 l))
             (fmul (w 1 k) (w 0 j))) D1D) D1D) D1D.

(** ** Runs that keep a fact, runs that cannot complete *)

(** A run that completes from a memory satisfying [P] ends in one that
    satisfies [P]. *)
Definition keeps {F A} (P : mem F -> Prop) (c : M F A) : Prop :=
  forall m a m', P m -> c m = Done (a, m') -> P m'.

(** A run from a memory satisfying [P] does not complete. *)
Definition stuck {F A} (P : mem F -> Prop) (c : M F A) : Prop :=
  forall m r, P m -> c m <> Done r.

(** * Properties *)

(** ** Integers and ranges *)

Lemma wrap_id (z : Z) : Int32.in_range z -> Int32.wrap z = z.
Proof.
  unfold Int32.in_range, Int32.INT_MIN, Int32.INT_MAX, Int32.wrap. intros H.
  rewrite Z.mod_small by lia. lia.
Qed.

Lemma zrange_nonpos (n : Z) : n <= 0 -> zrange n = [].
Proof.
  intros H. unfold zrange. replace (Z.to_nat n) with 0%nat by lia. reflexivity.
Qed.

Lemma zrange_succ (n : Z) : 0 <= n -> zrange (n + 1) = zrange n ++ [n].
Proof.
  intros H. unfold zrange.
  replace (Z.to_nat (n + 1)) with (Z.to_nat n + 1)%nat by lia.
  rewrite seq_app, map_app. simpl. rewrite Z2Nat.id by lia. reflexivity.
Qed.

Lemma in_zrange (n x : Z) : In x (zrange n) <-> 0 <= x < n.
Proof.
  unfold zrange. rewrite in_map_iff. split.
  - intros [k [<- Hk]]. apply in_seq in Hk. lia.
  - intros Hx. exists (Z.to_nat x). split; [lia|]. apply in_seq. lia.
Qed.

Lemma zrange_cons (n : Z) :
  0 < n -> zrange n = 0 :: map (fun x => x + 1) (zrange (n - 1)).
Proof.
  intros H. unfold zrange.
  replace (Z.to_nat n) with (S (Z.to_nat (n - 1))) by lia.
  simpl. f_equal. rewrite <- seq_shift, !map_map.
  apply map_ext. intros a. lia.
Qed.

Lemma all_range_spec (n : Z) (p : Z -> bool) :
  all_range n p = true <-> forall x, 0 <= x < n -> p x = true.
Proof.
  unfold all_range. rewrite forallb_forall. split; intros H x Hx.
  - apply H, in_zrange, Hx.
  - apply H, in_zrange, Hx.
Qed.

(** ** The monad and its loops *)

Section Rules.

Context {F : Type} {AF : Arith F}.

Lemma bind_done {A B} (c : M F A) (k : A -> M F B) m a m' :
  c m = Done (a, m') -> bind c k m = k a m'.
Proof. intros H. unfold bind. rewrite H. reflexivity. Qed.

Lemma for_list_app {A} (l1 l2 : list Z) (body : Z -> A -> M F A) a m :
  for_list (l1 ++ l2) body a m
  = bind (for_list l1 body a) (fun a' => for_list l2 body a') m.
Proof.
  revert a m. induction l1 as [|x l1 IH]; intros a m; simpl.
  - reflexivity.
  - unfold bind. destruct (body x a m) as [[a' m']| |]; auto.
Qed.

Lemma for_loop_succ {A} (n : Z) (body : Z -> A -> M F A) a m :
  0 <= n ->
  for_loop (n + 1) body a m
  = bind (for_loop n body a) (fun a' => body n a') m.
Proof.
  intros H. unfold for_loop. rewrite zrange_succ, for_list_app by assumption.
  unfold bind. destruct (for_list (zrange n) body a m) as [[a' m']| |]; auto.
  simpl. unfold bind, ret. destruct (body n a' m') as [[a'' m'']| |]; auto.
Qed.

(** A loop that only reads the memory is a fold. *)
Lemma for_list_pure {A} (l : list Z) (body : Z -> A -> M F A)
    (f : Z -> A -> A) m :
  (forall j a, In j l -> body j a m = Done (f j a, m)) ->
  forall a, for_list l body a m = Done (fold_left (fun a j => f j a) l a, m).
Proof.
  induction l as [|x l IH]; intros H a; simpl.
  - reflexivity.
  - rewrite (bind_done _ _ _ _ _ (H x a (or_introl eq_refl))).
    apply IH. intros j a' Hj. apply H. right. exact Hj.
Qed.

Lemma for_loop_pure {A} (n : Z) (body : Z -> A -> M F A)
    (f : Z -> A -> A) m :
  (forall j a, 0 <= j < n -> body j a m = Done (f j a, m)) ->
  forall a, for_loop n body a m
            = Done (fold_left (fun a j => f j a) (zrange n) a, m).
Proof.
  intros H a. apply for_list_pure. intros j a' Hj. apply H, in_zrange, Hj.
Qed.

(** A loop whose every iteration leaves the memory as it is. *)
Lemma for_each_skip (n : Z) (body : Z -> M F unit) m :
  (forall j, 0 <= j < n -> body j m = Done (tt, m)) ->
  for_each n body m = Done (tt, m).
Proof.
  intros H. unfold for_each.
  rewrite (for_loop_pure n _ (fun _ u => u)).
  - f_equal. f_equal. destruct (fold_left _ _ _). reflexivity.
  - intros j [] Hj. apply H, Hj.
Qed.

(** The invariant rule of a counted loop. *)
Lemma hoare_for_loop {A} (I : Z -> A -> mem F -> Prop) (n : Z)
    (body : Z -> A -> M F A) :
  0 <= n ->
  (forall j a, 0 <= j < n ->
     hoare (I j a) (body j a) (fun a' => I (j + 1) a')) ->
  forall a, hoare (I 0 a) (for_loop n body a) (I n).
Proof.
  intros Hn Hbody a.
  assert (G : forall k, 0 <= k -> k <= n ->
                hoare (I 0 a) (for_loop k body a) (I k)).
  { intros k Hk. pattern k. apply natlike_ind; [| |exact Hk].
    - intros _ m Hm. exists a, m. split; [reflexivity|exact Hm].
    - intros x Hx IH Hle m Hm.
      destruct (IH ltac:(lia) m Hm) as (a' & m' & E & HI).
      destruct (Hbody x a' ltac:(lia) m' HI) as (a'' & m'' & E' & HI').
      exists a'', m''. split; [|exact HI'].
      unfold Z.succ. rewrite for_loop_succ by assumption.
      rewrite (bind_done _ _ _ _ _ E). exact E'. }
  apply G; lia.
Qed.

Lemma hoare_for_each (I : Z -> mem F -> Prop) (n : Z)
    (body : Z -> M F unit) :
  0 <= n ->
  (forall j, 0 <= j < n -> hoare (I j) (body j) (fun _ => I (j + 1))) ->
  hoare (I 0) (for_each n body) (fun _ => I n).
Proof.
  intros Hn Hbody. unfold for_each.
  apply (hoare_for_loop (fun j _ => I j) n (fun j _ => body j) Hn).
  intros j a Hj. apply Hbody, Hj.
Qed.

End Rules.

(** ** Binary64 arithmetic *)

(** Multiplying by one is exact: the product of the mantissa by [2^52] is
    shifted back by 52 bits with nothing lost. *)
Lemma SFmul_one_r (s : spec_float) :
  valid_binary s = true ->
  SFmul prec emax s (S754_finite false 4503599627370496 (-52)) = s.
Proof.
  destruct s as [s | s | | s m e]; intros Hv; cbn [SFmul];
    rewrite ?xorb_false_r; try reflexivity.
  cbn [SpecFloat.valid_binary] in Hv.
  unfold SpecFloat.bounded, SpecFloat.canonical_mantissa in Hv.
  apply andb_true_iff in Hv. destruct Hv as [Hc Hb].
  apply Z.eqb_eq in Hc.
  assert (Hc' : fexp prec emax (Z.pos (digits2_pos m) + e) = e) by exact Hc.
  rewrite Pos.mul_comm. cbn [Pos.mul].
  unfold SpecFloat.binary_round_aux, SpecFloat.shr_fexp.
  cbn [SpecFloat.Zdigits2 SpecFloat.digits2_pos].
  rewrite !Pos2Z.inj_succ. unfold Z.succ.
  match goal with
  | |- context [fexp prec emax (?d + (e + -52))] =>
      replace (d + (e + -52)) with (Z.pos (digits2_pos m) + e) by lia
  end.
  rewrite Hc'.
  replace (e - (e + -52)) with 52 by lia.
  cbv [SpecFloat.shr SpecFloat.iter_pos SpecFloat.shr_1
       SpecFloat.shr_record_of_loc orb SpecFloat.shr_m
       SpecFloat.loc_of_shr_record SpecFloat.round_nearest_even].
  cbn [SpecFloat.Zdigits2].
  replace (e + -52 + 52) with e by lia.
  rewrite ?Hc, ?Hc', Z.sub_diag.
  cbv [SpecFloat.shr SpecFloat.shr_record_of_loc SpecFloat.shr_m].
  rewrite Hb. reflexivity.
Qed.

Lemma float_mul_one_r (x : float) : fmul x fone = x.
Proof.
  apply Prim2SF_inj. cbn [fmul fone float_arith]. rewrite FloatAxioms.mul_spec.
  assert (E : Prim2SF PrimFloat.one
              = S754_finite false 4503599627370496 (-52))
    by (vm_compute; reflexivity).
  rewrite E. apply SFmul_one_r, Prim2SF_valid.
Qed.

(** ** The basis evaluator *)

Section Lagrange.

Context {F : Type} {AF : Arith F}.

Lemma load_val (p : dptr) (i : Z) (m : mem F) v :
  dbl m (base p) (off p + i) = Val v -> load p i m = Done (v, m).
Proof. intros H. unfold load. rewrite H. reflexivity. Qed.

Lemma store_alloc (p : dptr) (i : Z) (v : F) (m : mem F) :
  is_alloc (dbl m (base p) (off p + i)) = true ->
  store p i v m = Done (tt, set_cell m (base p) (off p + i) (Val v)).
Proof.
  intros H. unfold store. destruct (dbl m (base p) (off p + i)); 
    [discriminate | reflexivity | reflexivity].
Qed.

Lemma is_val_at (m : mem F) (p : dptr) (j : Z) :
  is_val (dbl m (base p) (off p + j)) = true ->
  dbl m (base p) (off p + j) = Val (at_ptr m p j).
Proof.
  unfold at_ptr. destruct (dbl m (base p) (off p + j)); simpl;
    [discriminate | discriminate | reflexivity].
Qed.

(** The shift [1 << (p_Nq - 1)] is defined for 1 to 32 nodes. *)
Lemma shl_defined (p_Nq : Z) :
  1 <= p_Nq <= 32 ->
  Int32.shl 1 (Int32.sub p_Nq 1) = Some (Int32.wrap (2 ^ (p_Nq - 1))).
Proof.
  intros H. unfold Int32.shl, Int32.sub.
  rewrite (wrap_id (p_Nq - 1))
    by (unfold Int32.in_range, Int32.INT_MIN, Int32.INT_MAX; lia).
  rewrite Z.shiftl_1_l.
  assert (2 ^ (p_Nq - 1) <= 2 ^ 31) by (apply Z.pow_le_mono_r; lia).
  change (2 ^ 31) with 2147483648 in *.
  replace (0 <=? p_Nq - 1) with true by (symmetry; apply Z.leb_le; lia).
  replace (p_Nq - 1 <? 32) with true by (symmetry; apply Z.ltb_lt; lia).
  replace (2 ^ (p_Nq - 1) <? 4294967296) with true
    by (symmetry; apply Z.ltb_lt; lia).
  reflexivity.
Qed.

(** Outside that range it is undefined. *)
Lemma shl_undefined (p_Nq : Z) :
  Int32.in_range p_Nq -> ~ 1 <= p_Nq <= 32 ->
  Int32.shl 1 (Int32.sub p_Nq 1) = None.
Proof.
  unfold Int32.in_range, Int32.INT_MIN, Int32.INT_MAX, Int32.shl, Int32.sub,
    Int32.wrap.
  intros Hr Hn.
  destruct (0 <=? (p_Nq - 1 + 2147483648) mod 4294967296 - 2147483648) eqn:E0;
    [|reflexivity].
  destruct ((p_Nq - 1 + 2147483648) mod 4294967296 - 2147483648 <? 32) eqn:E1;
    [|reflexivity].
  exfalso. apply Z.leb_le in E0. apply Z.ltb_lt in E1.
  Z.to_euclidean_division_equations. lia.
Qed.

(** What [lagrange_eval] does, in terms of the loop it runs. *)
Lemma lagrange_eval_run (p0 : dptr) (x : F) (i p_Nq : Z) (z lc : dptr)
    (zt : Z -> F) (c : F) (m : mem F) :
  1 <= p_Nq <= 32 ->
  (forall j, 0 <= j < p_Nq -> dbl m (base z) (off z + j) = Val (zt j)) ->
  dbl m (base lc) (off lc + i) = Val c ->
  is_alloc (dbl m (base p0) (off p0 + i)) = true ->
  lagrange_eval p0 x i p_Nq z lc m
  = Done (tt, set_cell m (base p0) (off p0 + i)
                (Val (fmul c (lagrange_loop zt x i p_Nq)))).
Proof.
  intros Hn Hz Hc Hp. unfold lagrange_eval, lagrange_loop.
  rewrite (shl_defined p_Nq Hn).
  erewrite bind_done by reflexivity. cbv beta zeta. unfold int_val.
  erewrite bind_done; cycle 1.
  { apply (for_loop_pure p_Nq _
             (fun j p_i => fmul p_i (if j =? i then fone else fsub x (zt j)))).
    intros j a Hj. erewrite bind_done by (apply load_val, Hz, Hj).
    reflexivity. }
  erewrite bind_done by (apply load_val, Hc).
  apply store_alloc, Hp.
Qed.

Lemma shl_one (p_Nq : Z) :
  1 <= p_Nq <= 31 ->
  Int32.shl 1 (Int32.sub p_Nq 1) = Some (2 ^ (p_Nq - 1)).
Proof.
  intros H. rewrite shl_defined by lia. f_equal. apply wrap_id.
  unfold Int32.in_range, Int32.INT_MIN, Int32.INT_MAX.
  assert (0 < 2 ^ (p_Nq - 1)) by (apply Z.pow_pos_nonneg; lia).
  assert (2 ^ (p_Nq - 1) <= 2 ^ 30) by (apply Z.pow_le_mono_r; lia).
  change (2 ^ 30) with 1073741824 in *. lia.
Qed.

Lemma fold_skip_one (g : Z -> F) (i : Z) (l : list Z) :
  (forall x : F, fmul x fone = x) ->
  forall a,
    fold_left (fun p j => fmul p (if j =? i then fone else g j)) l a
    = fold_left (fun p j => fmul p (g j))
                (filter (fun j => negb (j =? i)) l) a.
Proof.
  intros H1. induction l as [|x l IH]; intros a; simpl.
  - reflexivity.
  - destruct (x =? i); simpl.
    + rewrite H1. apply IH.
    + apply IH.
Qed.

Lemma lagrange_loop_node_product (z : Z -> F) (x : F) (i p_Nq : Z) :
  (forall x : F, fmul x fone = x) ->
  1 <= p_Nq <= 31 ->
  lagrange_loop z x i p_Nq = node_product z x i p_Nq.
Proof.
  intros H1 Hp. unfold lagrange_loop, node_product, prod_others.
  rewrite shl_one by assumption. apply fold_skip_one, H1.
Qed.

End Lagrange.

(** ** Zeros in binary64 *)

Lemma is_finite_sf (x : float) :
  PrimFloat.is_finite x = true -> sf_finite (Prim2SF x).
Proof.
  unfold PrimFloat.is_finite, PrimFloat.is_nan, PrimFloat.is_infinity.
  rewrite !FloatAxioms.eqb_spec, FloatAxioms.abs_spec.
  change (Prim2SF infinity) with (S754_infinity false).
  destruct (Prim2SF x) as [s | s | | s m e]; cbn [sf_finite]; auto;
    intros H; exfalso; revert H.
  - destruct s; cbn; discriminate.
  - cbn. discriminate.
Qed.

Lemma sf_is_zero (x : float) :
  sf_zero (Prim2SF x) -> PrimFloat.is_zero x = true.
Proof.
  unfold PrimFloat.is_zero. rewrite FloatAxioms.eqb_spec.
  destruct (Prim2SF x) as [s | s | | s m e]; cbn; try contradiction.
  reflexivity.
Qed.

Lemma sf_zero_finite (s : spec_float) : sf_zero s -> sf_finite s.
Proof. destruct s; cbn; auto. Qed.

(** A finite difference of a number with itself is a zero. *)
Lemma sub_diag_zero (x : float) :
  sf_finite (Prim2SF (x - x)) -> sf_zero (Prim2SF (x - x)).
Proof.
  rewrite FloatAxioms.sub_spec.
  unfold SF64sub.
  destruct (Prim2SF x) as [s | s | | s m e]; cbn [SFsub].
  - destruct s; cbn; auto.
  - destruct s; cbn; auto.
  - cbn; auto.
  - intros _. cbv zeta.
    match goal with
    | |- sf_zero (binary_normalize _ _ ?d _ _) =>
        assert (E : d = 0) by apply Z.sub_diag; rewrite E
    end.
    exact I.
Qed.

(** A zero times a finite number, either way round, is a zero. *)
Lemma mul_zero_l (a b : float) :
  sf_zero (Prim2SF a) -> sf_finite (Prim2SF b) -> sf_zero (Prim2SF (a * b)).
Proof.
  rewrite FloatAxioms.mul_spec. unfold SF64mul. intros Ha Hb.
  destruct (Prim2SF a) as [s | s | | s m e]; cbn in Ha; try contradiction.
  destruct (Prim2SF b) as [s' | s' | | s' m' e']; cbn in Hb;
    try contradiction; exact I.
Qed.

Lemma mul_zero_r (a b : float) :
  sf_finite (Prim2SF a) -> sf_zero (Prim2SF b) -> sf_zero (Prim2SF (a * b)).
Proof.
  rewrite FloatAxioms.mul_spec. unfold SF64mul. intros Ha Hb.
  destruct (Prim2SF b) as [s | s | | s m e]; cbn in Hb; try contradiction.
  destruct (Prim2SF a) as [s' | s' | | s' m' e']; cbn in Ha;
    try contradiction; exact I.
Qed.

Lemma one_finite : sf_finite (Prim2SF 1).
Proof. vm_compute. exact I. Qed.

(** Once the product is a zero it stays one, as long as the factors are
    finite. *)
Lemma fold_keeps_zero (z : Z -> float) (x : float) (i : Z) (l : list Z) :
  (forall j, In j l -> sf_finite (Prim2SF (x - z j))) ->
  forall a, sf_zero (Prim2SF a) ->
    sf_zero (Prim2SF
      (fold_left (fun p j => fmul p (if j =? i then fone else fsub x (z j)))
                 l a)).
Proof.
  induction l as [|y l IH]; intros Hf a Ha; [exact Ha|].
  cbn [fold_left]. apply IH.
  - intros j Hj. apply Hf. right. exact Hj.
  - destruct (y =? i).
    + apply mul_zero_l; [exact Ha | exact one_finite].
    + apply mul_zero_l; [exact Ha | apply Hf; left; reflexivity].
Qed.

Lemma zrange_split (D n : Z) :
  0 <= n < D ->
  exists rest, zrange D = zrange n ++ n :: rest /\
               forall j, In j rest -> 0 <= j < D.
Proof.
  intros [Hn HD]. assert (H0 : 0 <= D) by lia. revert HD. pattern D.
  apply natlike_ind; [| |exact H0]; [lia|].
  intros k Hk IH Hlt. unfold Z.succ. rewrite zrange_succ by exact Hk.
  destruct (Z.eq_dec n k) as [-> | Hne].
  - exists []. split; [reflexivity|]. intros j [].
  - destruct (IH ltac:(lia)) as (rest & E & Hr).
    exists (rest ++ [k]). split.
    + rewrite E, <- app_assoc. reflexivity.
    + intros j Hj. apply in_app_or in Hj. destruct Hj as [Hj | [<- | []]].
      * specialize (Hr j Hj). lia.
      * lia.
Qed.

Lemma loop_zero_at_node (z : Z -> float) (i n D : Z) :
  1 <= D <= 31 -> 0 <= n < D -> n <> i ->
  (forall j, 0 <= j < D -> sf_finite (Prim2SF (z n - z j))) ->
  sf_finite (Prim2SF (partial_product z (z n) i D n)) ->
  sf_zero (Prim2SF (lagrange_loop z (z n) i D)).
Proof.
  intros HD Hn Hne Hf Hp. unfold lagrange_loop.
  rewrite shl_one by exact HD. unfold int_val.
  destruct (zrange_split D n Hn) as (rest & E & Hr).
  rewrite E, fold_left_app. cbn [fold_left].
  fold (partial_product z (z n) i D n).
  replace (n =? i) with false by (symmetry; apply Z.eqb_neq; exact Hne).
  apply fold_keeps_zero.
  - intros j Hj. apply Hf, Hr, Hj.
  - apply mul_zero_r; [exact Hp|]. apply sub_diag_zero, Hf. lia.
Qed.

(** ** Memory updates and frames *)

Section Mem.
Context {F : Type} {AF : Arith F}.

Lemma region_eqb_refl b : region_eqb b b = true.
Proof. destruct b; reflexivity. Qed.

Lemma region_eqb_eq a b : region_eqb a b = true -> a = b.
Proof. destruct a, b; simpl; congruence. Qed.

Lemma set_cell_same (m : mem F) b o c : dbl (set_cell m b o c) b o = c.
Proof. simpl. rewrite region_eqb_refl, Z.eqb_refl. reflexivity. Qed.

Lemma set_cell_off (m : mem F) b o c o' :
  o <> o' -> dbl (set_cell m b o c) b o' = dbl m b o'.
Proof.
  intros H. simpl. rewrite region_eqb_refl.
  destruct (Z.eqb_spec o o'); [contradiction | reflexivity].
Qed.

Lemma set_cell_region (m : mem F) b o c b' o' :
  region_eqb b b' = false -> dbl (set_cell m b o c) b' o' = dbl m b' o'.
Proof. intros H. simpl. rewrite H. reflexivity. Qed.

Lemma set_cell_alloc (m : mem F) b o v b' o' :
  is_alloc (dbl m b' o') = true ->
  is_alloc (dbl (set_cell m b o (Val v)) b' o') = true.
Proof.
  intros H. simpl. destruct (region_eqb b b' && (o =? o')); [reflexivity | exact H].
Qed.

Lemma agree_off_refl S (m : mem F) : agree_off S m m.
Proof. split; reflexivity. Qed.

Lemma agree_off_trans S (m1 m2 m3 : mem F) :
  agree_off S m1 m2 -> agree_off S m2 m3 -> agree_off S m1 m3.
Proof.
  intros [I1 D1] [I2 D2]. split.
  - intros i. rewrite I2. apply I1.
  - intros b o Hb. rewrite D2 by exact Hb. apply D1, Hb.
Qed.

Lemma agree_off_weaken (S S' : region -> bool) (m1 m2 : mem F) :
  (forall b, S' b = false -> S b = false) ->
  agree_off S m1 m2 -> agree_off S' m1 m2.
Proof.
  intros H [I1 D1]. split; [exact I1|]. intros b o Hb. apply D1, H, Hb.
Qed.

Lemma agree_off_set_cell S (m : mem F) b o c :
  S b = true -> agree_off S m (set_cell m b o c).
Proof.
  intros Hb. split; [reflexivity|]. intros b' o' Hb'.
  apply set_cell_region. destruct (region_eqb b b') eqn:E; [|reflexivity].
  apply region_eqb_eq in E. congruence.
Qed.

Lemma agree_off_set_region S (m : mem F) b f :
  S b = true -> agree_off S m (set_region m b f).
Proof.
  intros Hb. split; [reflexivity|]. intros b' o' Hb'. simpl.
  destruct (region_eqb b b') eqn:E; [|reflexivity].
  apply region_eqb_eq in E. congruence.
Qed.

End Mem.

Lemma add_small a b : Int32.in_range (a + b) -> Int32.add a b = a + b.
Proof. apply wrap_id. Qed.

Lemma mul_small a b : Int32.in_range (a * b) -> Int32.mul a b = a * b.
Proof. apply wrap_id. Qed.

Ltac in_range_tac :=
  unfold Int32.in_range, Int32.INT_MIN, Int32.INT_MAX in *;
  first [lia | nia].

Section Phases.
Context {F : Type} {AF : Arith F}.
Variables (m0 : mem F) (npt ncomp nel D1D : Z).
Hypothesis HD : 2 <= D1D <= 10.
Hypothesis Hnpt3 : 3 * npt <= Int32.INT_MAX.
Hypothesis Hout : npt * ncomp <= Int32.INT_MAX.
Hypothesis Hgf : nel * ncomp * D1D ^ 3 <= Int32.INT_MAX.
Hypothesis Hel : forall i, 0 <= i < npt ->
  exists e, ints m0 i = Some e /\ 0 <= e < nel.
Hypothesis Hr : forall o, 0 <= o < 3 * npt -> is_val (dbl m0 RefR o) = true.
Hypothesis Hg : forall o, 0 <= o < nel * ncomp * D1D ^ 3 ->
  is_val (dbl m0 GfIn o) = true.
Hypothesis Hz : forall o, 0 <= o < D1D -> is_val (dbl m0 Gll1D o) = true.
Hypothesis Hc : forall o, 0 <= o < D1D -> is_val (dbl m0 LagCoeff o) = true.

Lemma input_val (m : mem F) b o :
  same_inputs m0 m -> is_input b = true -> is_val (dbl m0 b o) = true ->
  dbl m b o = Val (table m0 b o).
Proof.
  intros [_ H] Hb Hv. rewrite H by (rewrite Hb; reflexivity).
  apply (is_val_at m0 (ptr b) o Hv).
Qed.

Ltac ptr_simpl :=
  unfold ptr, ptr_add; cbn [base off]; rewrite ?Z.add_0_l.

Lemma basis_step (i j d : Z) (m : mem F) :
  0 <= i < npt -> 0 <= j < D1D -> 0 <= d < 3 -> same_inputs m0 m ->
  is_alloc (dbl m Wtr (d * D1D + j)) = true ->
  (x <- load (ptr RefR) (Int32.add (Int32.mul 3 i) d) ;;
   lagrange_eval (ptr_add (ptr Wtr) (Int32.mul d D1D)) x j D1D
                 (ptr Gll1D) (ptr LagCoeff)) m
  = Done (tt, set_cell m Wtr (d * D1D + j)
                (Val (loop_weight m0 D1D i d j))).
Proof.
  intros Hi Hj Hd Hm Ha.
  rewrite (mul_small 3 i) by in_range_tac.
  rewrite (add_small (3 * i) d) by in_range_tac.
  rewrite (mul_small d D1D) by in_range_tac.
  erewrite bind_done; cycle 1.
  { apply load_val. ptr_simpl. apply input_val; [exact Hm | reflexivity |].
    apply Hr. lia. }
  apply (lagrange_eval_run (ptr_add (ptr Wtr) (d * D1D)) _ j D1D
           (ptr Gll1D) (ptr LagCoeff) (table m0 Gll1D)
           (table m0 LagCoeff j) m).
  - lia.
  - intros q Hq. ptr_simpl.
    apply input_val; [exact Hm | reflexivity | apply Hz, Hq].
  - ptr_simpl. apply input_val; [exact Hm | reflexivity | apply Hc, Hj].
  - ptr_simpl. exact Ha.
Qed.

Lemma same_inputs_off (S : region -> bool) (m1 m : mem F) :
  (forall b, is_input b = true -> S b = false) ->
  same_inputs m0 m1 -> agree_off S m1 m -> same_inputs m0 m.
Proof.
  intros HS H1 H2. unfold same_inputs in *.
  apply (agree_off_trans _ m0 m1 m H1).
  apply (agree_off_weaken S); [|exact H2].
  intros b Hb. apply HS. destruct (is_input b); [reflexivity | discriminate].
Qed.

Lemma wtr_index_inj d q d' q' :
  0 <= d < 3 -> 0 <= d' < 3 -> 0 <= q < D1D -> 0 <= q' < D1D ->
  d * D1D + q = d' * D1D + q' -> d = d' /\ q = q'.
Proof.
  intros Hd Hd' Hq Hq' E.
  assert (C : d = 0 \/ d = 1 \/ d = 2) by lia.
  assert (C' : d' = 0 \/ d' = 1 \/ d' = 2) by lia.
  destruct C as [-> | [-> | ->]]; destruct C' as [-> | [-> | ->]]; lia.
Qed.

Lemma basis_inv_weaken i j m1 (P Q : Z -> Prop) m :
  (forall d, 0 <= d < 3 -> Q d -> P d) ->
  basis_inv m0 D1D i j m1 P m -> basis_inv m0 D1D i j m1 Q m.
Proof.
  intros H (Ha & Hb & Hc' & Hd). repeat split; try apply Ha; auto.
Qed.

Lemma basis_inv_step i j m1 (P : Z -> Prop) m d0 :
  0 <= i < npt -> 0 <= j < D1D -> 0 <= d0 < 3 -> same_inputs m0 m1 ->
  basis_inv m0 D1D i j m1 P m ->
  exists m',
    (x <- load (ptr RefR) (Int32.add (Int32.mul 3 i) d0) ;;
     lagrange_eval (ptr_add (ptr Wtr) (Int32.mul d0 D1D)) x j D1D
                   (ptr Gll1D) (ptr LagCoeff)) m = Done (tt, m') /\
    basis_inv m0 D1D i j m1 (fun d => P d \/ d = d0) m'.
Proof.
  intros Hi Hj Hd0 H1 (Ha & Hb & Hc' & Hd).
  eexists. split.
  { apply basis_step; auto.
    - apply (same_inputs_off is_wtr m1); auto. intros b; destruct b; auto; discriminate.
    - apply Hb. nia. }
  split; [|split; [|split]].
  - apply (agree_off_trans _ m1 m _ Ha). apply agree_off_set_cell. reflexivity.
  - intros o Ho. apply set_cell_alloc, Hb, Ho.
  - intros d q Hd' Hq. rewrite set_cell_off; [apply Hc'; auto|].
    intros E. apply wtr_index_inj in E; lia.
  - intros d Hd' [HP | ->].
    + destruct (Z.eq_dec d d0) as [-> | Hne].
      * apply set_cell_same.
      * rewrite set_cell_off; [apply Hd; auto|].
        intros E. apply wtr_index_inj in E; lia.
    + apply set_cell_same.
Qed.

Lemma basis_phase_run (i : Z) (m1 : mem F) :
  0 <= i < npt -> same_inputs m0 m1 ->
  (forall o, 0 <= o < 3 * D1D -> is_alloc (dbl m1 Wtr o) = true) ->
  exists m', basis_phase D1D i m1 = Done (tt, m') /\
             agree_off is_wtr m1 m' /\ wtr_ready m0 D1D i m'.
Proof.
  intros Hi H1 Halloc. unfold basis_phase, MFEM_FOREACH_THREAD.
  set (body := fun j : Z => for_each D1D _).
  destruct (hoare_for_each (fun j => basis_inv m0 D1D i j m1 (fun _ => False)) D1D body)
    with (m := m1) as (a & m' & E & HI).
  - lia.
  - intros j Hj m Hm. subst body. cbv beta.
    set (inner := fun k : Z => bind _ _).
    destruct (hoare_for_each
                (fun k => basis_inv m0 D1D i j m1 (fun d => d < k \/ (D1D = 2 /\ k = 2)))
                D1D inner) with (m := m) as (a & m' & E & HI).
    + lia.
    + intros k Hk m2 Hm2. subst inner. cbv beta.
      destruct (Z.leb_spec k 2) as [Hk2|Hk2].
      * destruct (basis_inv_step i j m1 _ m2 k Hi Hj ltac:(lia) H1 Hm2)
          as (m3 & E3 & H3).
        rewrite (bind_done _ _ _ _ _ E3).
        destruct (Z.eqb_spec D1D 2) as [HD2|HD2];
          destruct (Z.eqb_spec k 1) as [Hk1|Hk1]; cbn [andb].
        -- destruct (basis_inv_step i j m1 _ m3 2 Hi Hj ltac:(lia) H1 H3)
             as (m4 & E4 & H4).
           exists tt, m4. split; [exact E4|].
           eapply basis_inv_weaken; [|exact H4]. cbv beta. intros d Hd _. lia.
        -- exists tt, m3. split; [reflexivity|].
           eapply basis_inv_weaken; [|exact H3]. cbv beta. intros d Hd Hq. lia.
        -- exists tt, m3. split; [reflexivity|].
           eapply basis_inv_weaken; [|exact H3]. cbv beta. intros d Hd Hq. lia.
        -- exists tt, m3. split; [reflexivity|].
           eapply basis_inv_weaken; [|exact H3]. cbv beta. intros d Hd Hq. lia.
      * unfold bind at 1. unfold ret at 1.
        replace ((D1D =? 2) && (k =? 1)) with false
          by (symmetry; apply andb_false_iff; right; apply Z.eqb_neq; lia).
        exists tt, m2. split; [reflexivity|].
        eapply basis_inv_weaken; [|exact Hm2]. cbv beta. intros d Hd Hq. lia.
    + eapply basis_inv_weaken; [|exact Hm]. cbv beta. intros d Hd Hq. lia.
    + exists tt, m'. split; [destruct a; exact E|].
      destruct HI as (Ha & Hb & Hc' & Hd). repeat split; try apply Ha; auto.
      * intros d q Hd' Hq. destruct (Z.eq_dec q j) as [-> | Hne].
        -- apply Hd; auto. lia.
        -- apply Hc'; auto. lia.
      * intros d Hd' [].
  - repeat split; auto; try lia; try (intros d Hd []).
  - exists m'. split; [destruct a; exact E|].
    destruct HI as (Ha & Hb & Hc' & Hd). split; [exact Ha|].
    intros d q Hd' Hq. apply Hc'; auto.
Qed.

Lemma flat_inj j k j' k' :
  0 <= j < D1D -> 0 <= j' < D1D -> j + k * D1D = j' + k' * D1D ->
  j = j' /\ k = k'.
Proof.
  intros Hj Hj' E.
  assert (Ej : (j + k * D1D) mod D1D = (j' + k' * D1D) mod D1D)
    by (rewrite E; reflexivity).
  rewrite !Z.mod_add, !Z.mod_small in Ej by lia.
  split; [exact Ej|]. subst j'.
  apply (Z.mul_cancel_r k k' D1D); lia.
Qed.

Lemma flat_bounds j k :
  0 <= j < D1D -> 0 <= k < D1D -> 0 <= j + k * D1D < D1D * D1D.
Proof. intros Hj Hk. nia. Qed.

Lemma node_bounds j k l :
  0 <= j < D1D -> 0 <= k < D1D -> 0 <= l < D1D ->
  0 <= j + k * D1D + l * (D1D * D1D) < D1D * D1D * D1D.
Proof. intros Hj Hk Hl. nia. Qed.

Lemma fsum_succ (f : Z -> F) (n : Z) :
  0 <= n -> fsum f (n + 1) = fadd (fsum f n) (f n).
Proof.
  intros Hn. unfold fsum. rewrite zrange_succ by exact Hn.
  rewrite fold_left_app. reflexivity.
Qed.

Lemma fsum_ext (f g : Z -> F) (n : Z) :
  (forall j, 0 <= j < n -> f j = g j) -> fsum f n = fsum g n.
Proof.
  intros H. unfold fsum.
  assert (G : forall l a, (forall j, In j l -> f j = g j) ->
            fold_left (fun s j => fadd s (f j)) l a
            = fold_left (fun s j => fadd s (g j)) l a).
  { induction l as [|x l IH]; intros a Hl; simpl; [reflexivity|].
    rewrite (Hl x (or_introl eq_refl)). apply IH.
    intros j Hj. apply Hl. right. exact Hj. }
  apply G. intros j Hj. apply H, in_zrange, Hj.
Qed.

Lemma lane_store (ms m : mem F) (jk : Z) (v : F) :
  is_alloc (dbl m Sums jk) = true ->
  agree_off is_sums ms m ->
  (forall o, o <> jk -> dbl m Sums o = dbl ms Sums o) ->
  store (ptr Sums) jk v m = Done (tt, set_cell m Sums jk (Val v)) /\
  lane_mem ms jk v (set_cell m Sums jk (Val v)).
Proof.
  intros Ha Hag Hoth. split.
  - apply (store_alloc (ptr Sums) jk v m). exact Ha.
  - split; [|split].
    + apply (agree_off_trans _ ms m _ Hag), agree_off_set_cell. reflexivity.
    + intros o Ho. rewrite set_cell_off by congruence. apply Hoth, Ho.
    + apply set_cell_same.
Qed.

Lemma lane_run (i E j k : Z) (m1 m : mem F) :
  0 <= j < D1D -> 0 <= k < D1D ->
  0 <= E -> E + D1D * D1D * D1D <= nel * ncomp * D1D ^ 3 ->
  same_inputs m0 m1 -> wtr_ready m0 D1D i m1 ->
  agree_off is_sums m1 m -> sums_alloc D1D m ->
  let sums := ptr Sums in
  let jk := Int32.add j (Int32.mul k D1D) in
  exists m',
    (store sums jk fzero ;;
     for_each D1D (fun l =>
       g <- load (ptr GfIn)
              (Int32.add (Int32.add (Int32.add E j) (Int32.mul k D1D))
                         (Int32.mul (Int32.mul l D1D) D1D)) ;;
       w <- load (ptr Wtr) (Int32.add (Int32.mul 2 D1D) l) ;;
       s <- load sums jk ;;
       store sums jk (fadd s (fmul g w))) ;;
     wk <- load (ptr Wtr) (Int32.add D1D k) ;;
     wj <- load (ptr Wtr) j ;;
     s <- load sums jk ;;
     store sums jk (fmul s (fmul wk wj))) m = Done (tt, m') /\
    lane_mem m (j + k * D1D) (lane_at m0 D1D i E j k) m'.
Proof.
  intros Hj Hk HE0 HE H1 Hw Hag Hsa sums jk.
  assert (Hjk : jk = j + k * D1D).
  { subst jk. rewrite (mul_small k D1D) by in_range_tac.
    apply add_small. in_range_tac. }
  rewrite Hjk. clear jk Hjk. subst sums.
  assert (Hin : same_inputs m0 m).
  { apply (same_inputs_off is_sums m1); auto. intros b; destruct b; auto; discriminate. }
  assert (Hwm : forall d q, 0 <= d < 3 -> 0 <= q < D1D ->
            dbl m Wtr (d * D1D + q) = Val (loop_weight m0 D1D i d q)).
  { intros d q Hd Hq. destruct Hag as [_ Hag]. rewrite Hag by reflexivity.
    apply Hw; auto. }
  pose proof (flat_bounds j k Hj Hk) as Hfb.
  destruct (lane_store m m (j + k * D1D) fzero) as [E0 L0];
    [apply Hsa, Hfb | apply agree_off_refl | reflexivity |].
  rewrite (bind_done _ _ _ _ _ E0).
  set (f := fun l => fmul (gf_at m0 D1D E j k l) (loop_weight m0 D1D i 2 l)).
  destruct (hoare_for_each
              (fun l => lane_mem m (j + k * D1D) (fsum f l)) D1D
              (fun l =>
                 g <- load (ptr GfIn)
                        (Int32.add (Int32.add (Int32.add E j) (Int32.mul k D1D))
                                   (Int32.mul (Int32.mul l D1D) D1D)) ;;
                 w <- load (ptr Wtr) (Int32.add (Int32.mul 2 D1D) l) ;;
                 s <- load (ptr Sums) (j + k * D1D) ;;
                 store (ptr Sums) (j + k * D1D) (fadd s (fmul g w))))
    with (m := set_cell m Sums (j + k * D1D) (Val fzero))
    as (a & m2 & E2 & L2).
  - lia.
  - intros l Hl m3 (Ha3 & Ho3 & Hv3).
    pose proof (node_bounds j k l Hj Hk Hl) as Hnb.
    assert (P3 : D1D ^ 3 = D1D * D1D * D1D) by ring.
    rewrite (mul_small k D1D) by in_range_tac.
    rewrite (add_small E j) by in_range_tac.
    rewrite (add_small (E + j) (k * D1D)) by in_range_tac.
    rewrite (mul_small l D1D) by in_range_tac.
    rewrite (mul_small (l * D1D) D1D) by in_range_tac.
    rewrite (add_small (E + j + k * D1D) (l * D1D * D1D)) by in_range_tac.
    rewrite (mul_small 2 D1D) by in_range_tac.
    rewrite (add_small (2 * D1D) l) by in_range_tac.
    assert (Hin3 : same_inputs m0 m3).
    { apply (same_inputs_off is_sums m); auto. intros b; destruct b; auto; discriminate. }
    erewrite bind_done; cycle 1.
    { apply load_val. ptr_simpl.
      apply input_val; [exact Hin3 | reflexivity |]. apply Hg. nia. }
    erewrite bind_done; cycle 1.
    { apply load_val. ptr_simpl. destruct Ha3 as [_ Ha3].
      rewrite Ha3 by reflexivity. apply Hwm; lia. }
    erewrite bind_done; cycle 1.
    { apply load_val. ptr_simpl. exact Hv3. }
    destruct (lane_store m m3 (j + k * D1D)
                (fadd (fsum f l)
                   (fmul (table m0 GfIn (E + j + k * D1D + l * D1D * D1D))
                      (loop_weight m0 D1D i 2 l)))) as [E4 L4]; auto.
    { rewrite Hv3. reflexivity. }
    exists tt, (set_cell m3 Sums (j + k * D1D)
                  (Val (fadd (fsum f l)
                          (fmul (table m0 GfIn (E + j + k * D1D + l * D1D * D1D))
                             (loop_weight m0 D1D i 2 l))))).
    split; [exact E4|].
    rewrite fsum_succ by lia. unfold f at 2. unfold gf_at.
    replace (l * D1D ^ 2) with (l * D1D * D1D) by ring. exact L4.
  - exact L0.
  - destruct a. rewrite (bind_done _ _ _ _ _ E2).
    destruct L2 as (Ha2 & Ho2 & Hv2).
    rewrite (add_small D1D k) by in_range_tac.
    erewrite bind_done; cycle 1.
    { apply load_val. ptr_simpl. destruct Ha2 as [_ Ha2].
      rewrite Ha2 by reflexivity.
      replace (D1D + k) with (1 * D1D + k) by ring. apply Hwm; lia. }
    erewrite bind_done; cycle 1.
    { apply load_val. ptr_simpl. destruct Ha2 as [_ Ha2].
      rewrite Ha2 by reflexivity.
      replace j with (0 * D1D + j) at 1 by ring. apply Hwm; lia. }
    erewrite bind_done; cycle 1.
    { apply load_val. ptr_simpl. exact Hv2. }
    destruct (lane_store m m2 (j + k * D1D)
                (fmul (fsum f D1D)
                   (fmul (loop_weight m0 D1D i 1 k) (loop_weight m0 D1D i 0 j))))
      as [E4 L4]; auto.
    { rewrite Hv2. reflexivity. }
    eexists. split; [exact E4 | exact L4].
Qed.

Lemma contraction_phase_run (i E : Z) (m1 : mem F) :
  0 <= E -> E + D1D * D1D * D1D <= nel * ncomp * D1D ^ 3 ->
  same_inputs m0 m1 -> wtr_ready m0 D1D i m1 -> sums_alloc D1D m1 ->
  exists m', contraction_phase D1D E m1 = Done (tt, m') /\
             agree_off is_sums m1 m' /\
             (forall j k, 0 <= j < D1D -> 0 <= k < D1D ->
                dbl m' Sums (j + k * D1D) = Val (lane_at m0 D1D i E j k)).
Proof.
  intros HE0 HE H1 Hw Hsa. unfold contraction_phase, MFEM_FOREACH_THREAD.
  set (body := fun j : Z => for_each D1D _).
  destruct (hoare_for_each (fun j => contraction_inv m0 D1D i E j m1 (fun _ => False))
              D1D body) with (m := m1) as (a & m' & E1 & HI).
  - lia.
  - intros j Hj m Hm. subst body. cbv beta.
    set (inner := fun k : Z => bind _ _).
    destruct (hoare_for_each (fun k => contraction_inv m0 D1D i E j m1 (fun k' => k' < k))
                D1D inner) with (m := m) as (a & m' & E1 & HI).
    + lia.
    + intros k Hk m2 (Ha2 & Hs2 & Hc2 & Hd2). subst inner. cbv beta.
      destruct (lane_run i E j k m1 m2 Hj Hk HE0 HE H1 Hw Ha2 Hs2)
        as (m3 & E3 & Ha3 & Ho3 & Hv3).
      exists tt, m3. split; [exact E3|].
      split; [|split; [|split]].
      * apply (agree_off_trans _ m1 m2 m3 Ha2 Ha3).
      * intros o Ho. destruct (Z.eq_dec o (j + k * D1D)) as [-> | Hne].
        -- rewrite Hv3. reflexivity.
        -- rewrite Ho3 by exact Hne. apply Hs2, Ho.
      * intros j' k' Hj' Hk'. rewrite Ho3; [apply Hc2; auto|].
        intros E'. apply flat_inj in E'; lia.
      * intros k' Hk' Hlt. destruct (Z.eq_dec k' k) as [-> | Hne].
        -- exact Hv3.
        -- rewrite Ho3; [apply Hd2; auto; lia|].
           intros E'. apply flat_inj in E'; lia.
    + destruct Hm as (Ha & Hs & Hc' & Hd). repeat split; try apply Ha; auto.
      intros k Hk Hlt. lia.
    + exists tt, m'. split; [destruct a; exact E1|].
      destruct HI as (Ha & Hs & Hc' & Hd). repeat split; try apply Ha; auto.
      * intros j' k Hj' Hk. destruct (Z.eq_dec j' j) as [-> | Hne].
        -- apply Hd; auto. lia.
        -- apply Hc'; auto. lia.
      * intros k Hk [].
  - repeat split; auto; try lia; try (intros k Hk []).
  - exists m'. split; [destruct a; exact E1|].
    destruct HI as (Ha & Hs & Hc' & Hd). split; [exact Ha|].
    intros j k Hj Hk. apply Hc'; auto.
Qed.

Lemma reduction_phase_run (i fld : Z) (v : Z -> F) (m : mem F) :
  0 <= i < npt -> 0 <= fld < ncomp ->
  (forall o, 0 <= o < D1D * D1D -> dbl m Sums o = Val (v o)) ->
  is_alloc (dbl m IntOut (i + fld * npt)) = true ->
  reduction_phase D1D npt i fld m
  = Done (tt, set_cell m IntOut (i + fld * npt) (Val (fsum v (D1D * D1D)))).
Proof.
  intros Hi Hf Hs Ha. unfold reduction_phase, MFEM_FOREACH_THREAD.
  assert (Hidx : Int32.add i (Int32.mul fld npt) = i + fld * npt).
  { rewrite (mul_small fld npt) by in_range_tac. apply add_small. in_range_tac. }
  rewrite Hidx.
  assert (Hlane0 :
    (sumv <- for_loop (Int32.mul D1D D1D)
               (fun jj sumv => s <- load (ptr Sums) jj ;; ret (fadd sumv s))
               fzero ;;
     store (ptr IntOut) (i + fld * npt) sumv) m
    = Done (tt, set_cell m IntOut (i + fld * npt) (Val (fsum v (D1D * D1D))))).
  { rewrite (mul_small D1D D1D) by in_range_tac.
    erewrite bind_done; cycle 1.
    { apply (for_loop_pure (D1D * D1D) _ (fun jj sumv => fadd sumv (v jj))).
      intros jj a Hjj. erewrite bind_done; [reflexivity|].
      apply load_val. ptr_simpl. apply Hs, Hjj. }
    apply (store_alloc (ptr IntOut)). ptr_simpl. exact Ha. }
  unfold for_each at 1. unfold for_loop.
  rewrite (zrange_cons D1D) by lia. cbn [for_list].
  erewrite bind_done; cycle 1.
  { unfold for_each, for_loop. rewrite (zrange_cons D1D) by lia.
    cbn [for_list]. cbn [Z.eqb andb].
    rewrite (bind_done _ _ _ _ _ Hlane0).
    apply (for_list_pure _ _ (fun _ u => u)).
    intros k [] Hk. apply in_map_iff in Hk. destruct Hk as (k0 & <- & Hk0).
    apply in_zrange in Hk0.
    replace (k0 + 1 =? 0) with false by (symmetry; apply Z.eqb_neq; lia).
    reflexivity. }
  match goal with
  | |- for_list _ _ ?u _ = _ => destruct u
  end.
  rewrite (for_list_pure _ _ (fun _ u => u)).
  - f_equal. f_equal. match goal with |- ?u = tt => destruct u end. reflexivity.
  - intros j [] Hj. apply in_map_iff in Hj. destruct Hj as (j0 & <- & Hj0).
    apply in_zrange in Hj0.
    apply for_each_skip. intros k Hk.
    replace (j0 + 1 =? 0) with false by (symmetry; apply Z.eqb_neq; lia).
    reflexivity.
Qed.

Lemma out_index_inj i f i' f' :
  0 <= i < npt -> 0 <= i' < npt -> i + f * npt = i' + f' * npt ->
  i = i' /\ f = f'.
Proof.
  intros Hi Hi' E.
  assert (Ei : (i + f * npt) mod npt = (i' + f' * npt) mod npt)
    by (rewrite E; reflexivity).
  rewrite !Z.mod_add, !Z.mod_small in Ei by lia.
  split; [exact Ei|]. subst i'.
  apply (Z.mul_cancel_r f f' npt); lia.
Qed.

Lemma out_index_bounds i f :
  0 <= i < npt -> 0 <= f < ncomp -> 0 <= i + f * npt < npt * ncomp.
Proof. intros Hi Hf. nia. Qed.

Lemma elem_offset_bounds (e fld : Z) :
  0 <= e < nel -> 0 <= fld < ncomp ->
  0 <= e * D1D ^ 3 * ncomp + fld * D1D ^ 3 /\
  e * D1D ^ 3 * ncomp + fld * D1D ^ 3 + D1D * D1D * D1D
  <= nel * ncomp * D1D ^ 3.
Proof.
  intros He Hf.
  assert (P3 : D1D ^ 3 = D1D * D1D * D1D) by ring.
  assert (HP : 0 < D1D ^ 3) by (rewrite P3; nia).
  set (P := D1D ^ 3) in *.
  assert (Hq : 0 <= e * ncomp + fld <= nel * ncomp - 1) by nia.
  replace (e * P * ncomp + fld * P) with ((e * ncomp + fld) * P) by ring.
  rewrite <- P3.
  replace (nel * ncomp * P) with ((nel * ncomp - 1) * P + P) by ring.
  split; [nia|].
  apply Z.add_le_mono_r. apply Z.mul_le_mono_nonneg_r; lia.
Qed.

Lemma elem_offset_unwrap (e fld : Z) :
  0 <= e < nel -> 0 <= fld < ncomp ->
  Int32.add
    (Int32.mul (Int32.mul e (Int32.mul (Int32.mul D1D D1D) D1D)) ncomp)
    (Int32.mul fld (Int32.mul (Int32.mul D1D D1D) D1D))
  = e * D1D ^ 3 * ncomp + fld * D1D ^ 3.
Proof.
  intros He Hf.
  destruct (elem_offset_bounds e fld He Hf) as [B0 B1].
  assert (P3 : D1D ^ 3 = D1D * D1D * D1D) by ring.
  assert (HP : 0 < D1D * D1D * D1D <= 1000) by nia.
  rewrite P3 in *.
  set (P := D1D * D1D * D1D) in *.
  rewrite (mul_small D1D D1D) by in_range_tac.
  rewrite (mul_small (D1D * D1D) D1D) by (fold P; in_range_tac).
  fold P.
  assert (H1 : 0 <= e * P) by nia.
  assert (H2 : 0 <= fld * P) by nia.
  assert (H3 : e * P <= e * P * ncomp) by nia.
  assert (H4 : 0 <= e * P * ncomp) by nia.
  rewrite (mul_small e P) by in_range_tac.
  rewrite (mul_small (e * P) ncomp) by in_range_tac.
  rewrite (mul_small fld P) by in_range_tac.
  apply add_small. in_range_tac.
Qed.

Lemma for_each_nonpos (n : Z) (body : Z -> M F unit) (m : mem F) :
  n <= 0 -> for_each n body m = Done (tt, m).
Proof.
  intros H. unfold for_each, for_loop. rewrite zrange_nonpos by exact H.
  reflexivity.
Qed.

Lemma field_step (i fld : Z) (m1 m : mem F) :
  0 <= i < npt -> 0 <= fld < ncomp ->
  same_inputs m0 m1 -> wtr_ready m0 D1D i m1 -> field_inv m0 npt ncomp D1D i fld m1 m ->
  exists m',
    (e <- load_int i ;;
     contraction_phase D1D
       (Int32.add
          (Int32.mul (Int32.mul e (Int32.mul (Int32.mul D1D D1D) D1D)) ncomp)
          (Int32.mul fld (Int32.mul (Int32.mul D1D D1D) D1D))) ;;
     MFEM_SYNC_THREAD ;;
     reduction_phase D1D npt i fld ;;
     MFEM_SYNC_THREAD) m = Done (tt, m') /\
    field_inv m0 npt ncomp D1D i (fld + 1) m1 m'.
Proof.
  intros Hi Hf H1 Hw (Ha & Hs & Ho & Hv & Hu).
  destruct (Hel i Hi) as (e & Ee & He).
  assert (Hin : same_inputs m0 m).
  { apply (same_inputs_off is_sums_or_out m1); auto.
    intros b; destruct b; auto; discriminate. }
  assert (Hwm : wtr_ready m0 D1D i m).
  { intros d q Hd Hq. destruct Ha as [_ Ha]. rewrite Ha by reflexivity.
    apply Hw; auto. }
  erewrite bind_done; cycle 1.
  { unfold load_int. destruct Hin as [Hi0 _]. rewrite Hi0, Ee. reflexivity. }
  rewrite (elem_offset_unwrap e fld He Hf).
  destruct (elem_offset_bounds e fld He Hf) as [B0 B1].
  destruct (contraction_phase_run i _ m B0 B1 Hin Hwm Hs)
    as (m2 & E2 & Ha2 & Hv2).
  rewrite (bind_done _ _ _ _ _ E2).
  unfold MFEM_SYNC_THREAD at 1. unfold bind at 1. unfold ret at 1.
  pose proof (out_index_bounds i fld Hi Hf) as Hob.
  assert (HIO : forall o, dbl m2 IntOut o = dbl m IntOut o).
  { intros o. destruct Ha2 as [_ Ha2]. apply Ha2. reflexivity. }
  erewrite bind_done; cycle 1.
  { apply (reduction_phase_run i fld
             (fun o => lane_at m0 D1D i (e * D1D ^ 3 * ncomp + fld * D1D ^ 3)
                         (o mod D1D) (o / D1D)) m2 Hi Hf).
    - intros o Hoo.
      rewrite (Z.div_mod o D1D) at 1 by lia.
      replace (D1D * (o / D1D) + o mod D1D)
        with (o mod D1D + (o / D1D) * D1D) by ring.
      apply Hv2.
      + apply Z.mod_pos_bound. lia.
      + split; [apply Z.div_pos; lia|].
        apply Z.div_lt_upper_bound; lia.
    - rewrite HIO. apply Ho, Hob. }
  unfold MFEM_SYNC_THREAD, ret.
  eexists. split; [reflexivity|].
  assert (Hval : fsum (fun o => lane_at m0 D1D i (e * D1D ^ 3 * ncomp + fld * D1D ^ 3)
                                  (o mod D1D) (o / D1D)) (D1D * D1D)
                 = out_value m0 ncomp D1D i fld).
  { unfold out_value, interpolated, lane_value, lane_at, gf_at, el_at.
    rewrite Ee. reflexivity. }
  rewrite Hval.
  split; [|split; [|split; [|split]]].
  - apply (agree_off_trans _ m1 m _ Ha).
    apply (agree_off_trans _ m m2).
    + apply (agree_off_weaken is_sums); [|exact Ha2].
      intros b; destruct b; auto; discriminate.
    + apply agree_off_set_cell. reflexivity.
  - intros o Hoo. rewrite set_cell_region by reflexivity.
    assert (Hj : 0 <= o mod D1D < D1D) by (apply Z.mod_pos_bound; lia).
    assert (Hk : 0 <= o / D1D < D1D).
    { split; [apply Z.div_pos; lia|]. apply Z.div_lt_upper_bound; lia. }
    pose proof (Hv2 _ _ Hj Hk) as Hx.
    replace (o mod D1D + o / D1D * D1D) with o in Hx
      by (rewrite (Z.div_mod o D1D) at 1 by lia; ring).
    rewrite Hx. reflexivity.
  - intros o Hoo. apply set_cell_alloc. rewrite HIO. apply Ho, Hoo.
  - intros f Hff. destruct (Z.eq_dec f fld) as [-> | Hne].
    + apply set_cell_same.
    + rewrite set_cell_off.
      * rewrite HIO. apply Hv. lia.
      * intros E'. apply out_index_inj in E'; lia.
  - intros o Hoo. rewrite set_cell_off.
    + rewrite HIO. apply Hu. intros f Hff. apply Hoo. lia.
    + intros E'. apply (Hoo fld); [lia | congruence].
Qed.

Lemma field_loop_run (i : Z) (m1 : mem F) :
  0 <= i < npt -> same_inputs m0 m1 -> wtr_ready m0 D1D i m1 ->
  sums_alloc D1D m1 -> out_alloc npt ncomp m1 ->
  exists m',
    for_each ncomp (fun fld =>
      e <- load_int i ;;
      contraction_phase D1D
        (Int32.add
           (Int32.mul (Int32.mul e (Int32.mul (Int32.mul D1D D1D) D1D)) ncomp)
           (Int32.mul fld (Int32.mul (Int32.mul D1D D1D) D1D))) ;;
      MFEM_SYNC_THREAD ;;
      reduction_phase D1D npt i fld ;;
      MFEM_SYNC_THREAD) m1 = Done (tt, m') /\
    field_inv m0 npt ncomp D1D i (Z.max 0 ncomp) m1 m'.
Proof.
  intros Hi H1 Hw Hs Ho.
  assert (H0 : field_inv m0 npt ncomp D1D i 0 m1 m1).
  { split; [apply agree_off_refl|]. repeat split; auto. intros f Hf. lia. }
  destruct (Z.le_gt_cases ncomp 0) as [Hn | Hn].
  - exists m1. split; [apply for_each_nonpos, Hn|].
    replace (Z.max 0 ncomp) with 0 by lia. exact H0.
  - replace (Z.max 0 ncomp) with ncomp by lia.
    destruct (hoare_for_each (fun fld => field_inv m0 npt ncomp D1D i fld m1) ncomp
                (fun fld =>
                   e <- load_int i ;;
                   contraction_phase D1D
                     (Int32.add
                        (Int32.mul
                           (Int32.mul e (Int32.mul (Int32.mul D1D D1D) D1D))
                           ncomp)
                        (Int32.mul fld (Int32.mul (Int32.mul D1D D1D) D1D))) ;;
                   MFEM_SYNC_THREAD ;;
                   reduction_phase D1D npt i fld ;;
                   MFEM_SYNC_THREAD))
      with (m := m1) as (a & m' & E & HI).
    + lia.
    + intros fld Hf m Hm.
      destruct (field_step i fld m1 m Hi Hf H1 Hw Hm) as (m' & E & HI).
      exists tt, m'. split; assumption.
    + exact H0.
    + exists m'. destruct a. split; assumption.
Qed.

Lemma point_body_run (MD1 i : Z) (m : mem F) :
  D1D <= MD1 <= 10 -> 0 <= i < npt -> same_inputs m0 m -> out_alloc npt ncomp m ->
  exists m',
    point_body MD1 D1D (Int32.mul (Int32.mul D1D D1D) D1D) ncomp npt i m
    = Done (tt, m') /\
    agree_off is_scratch_or_out m m' /\ out_alloc npt ncomp m' /\
    (forall f, 0 <= f < ncomp ->
       dbl m' IntOut (i + f * npt) = Val (out_value m0 ncomp D1D i f)) /\
    (forall o, (forall f, 0 <= f < ncomp -> o <> i + f * npt) ->
       dbl m' IntOut o = dbl m IntOut o) /\
    (forall o, dbl m' Wtr o = Unalloc) /\
    (forall o, dbl m' Sums o = Unalloc).
Proof.
  intros HM Hi Hin Ho. unfold point_body.
  set (ma := set_region m Wtr
               (fun o => if (0 <=? o) && (o <? Int32.mul 3 MD1)
                         then Uninit else Unalloc)).
  set (mb := set_region ma Sums
               (fun o => if (0 <=? o) && (o <? Int32.mul MD1 MD1)
                         then Uninit else Unalloc)).
  rewrite (bind_done _ _ m tt ma) by reflexivity.
  rewrite (bind_done _ _ ma tt mb) by reflexivity.
  assert (Hab : agree_off is_scratch_or_out m mb).
  { apply (agree_off_trans _ m ma mb); apply agree_off_set_region; reflexivity. }
  assert (Hinb : same_inputs m0 mb).
  { apply (same_inputs_off is_scratch_or_out m); auto.
    intros b; destruct b; auto; discriminate. }
  assert (Hwa : forall o, 0 <= o < 3 * D1D -> is_alloc (dbl mb Wtr o) = true).
  { intros o Hoo. subst mb ma. cbn [dbl set_region region_eqb].
    rewrite (mul_small 3 MD1) by in_range_tac.
    replace (0 <=? o) with true by (symmetry; apply Z.leb_le; lia).
    replace (o <? 3 * MD1) with true by (symmetry; apply Z.ltb_lt; lia).
    reflexivity. }
  assert (Hsb : sums_alloc D1D mb).
  { intros o Hoo. subst mb. cbn [dbl set_region region_eqb].
    rewrite (mul_small MD1 MD1) by in_range_tac.
    replace (0 <=? o) with true by (symmetry; apply Z.leb_le; lia).
    replace (o <? MD1 * MD1) with true by (symmetry; apply Z.ltb_lt; nia).
    reflexivity. }
  assert (Hob : forall o, dbl mb IntOut o = dbl m IntOut o) by reflexivity.
  destruct (basis_phase_run i mb Hi Hinb Hwa) as (m1 & E1 & Ha1 & Hw1).
  rewrite (bind_done _ _ _ _ _ E1).
  unfold MFEM_SYNC_THREAD at 1. unfold bind at 1. unfold ret at 1.
  assert (Hin1 : same_inputs m0 m1).
  { apply (same_inputs_off is_wtr mb); auto.
    intros b; destruct b; auto; discriminate. }
  assert (H1b : forall b o, b <> Wtr -> dbl m1 b o = dbl mb b o).
  { intros b o Hb. destruct Ha1 as [_ Ha1]. apply Ha1.
    destruct b; auto; congruence. }
  assert (Hs1 : sums_alloc D1D m1).
  { intros o Hoo. rewrite H1b by discriminate. apply Hsb, Hoo. }
  assert (Ho1 : out_alloc npt ncomp m1).
  { intros o Hoo. rewrite H1b by discriminate. rewrite Hob. apply Ho, Hoo. }
  destruct (field_loop_run i m1 Hi Hin1 Hw1 Hs1 Ho1)
    as (m2 & E2 & Ha2 & Hs2 & Ho2 & Hv2 & Hu2).
  rewrite (bind_done _ _ _ _ _ E2).
  unfold shared_free, bind. eexists. split; [reflexivity|].
  split; [|split; [|split; [|split; [|split]]]].
  - apply (agree_off_trans _ m mb _ Hab).
    apply (agree_off_trans _ mb m1).
    { apply (agree_off_weaken is_wtr); [|exact Ha1].
      intros b; destruct b; auto; discriminate. }
    apply (agree_off_trans _ m1 m2).
    { apply (agree_off_weaken is_sums_or_out); [|exact Ha2].
      intros b; destruct b; auto; discriminate. }
    eapply agree_off_trans; apply agree_off_set_region; reflexivity.
  - intros o Hoo. cbn [dbl set_region region_eqb]. apply Ho2, Hoo.
  - intros f Hf. cbn [dbl set_region region_eqb]. apply Hv2. lia.
  - intros o Hoo. cbn [dbl set_region region_eqb].
    rewrite Hu2.
    + rewrite H1b by discriminate. apply Hob.
    + intros f Hf. apply Hoo. lia.
  - reflexivity.
  - reflexivity.
Qed.

Lemma kernel_run (T_D1D pN gf_offset : Z) :
  degree T_D1D pN = D1D -> out_alloc npt ncomp m0 ->
  exists m',
    InterpolateLocal3DKernel T_D1D npt ncomp nel gf_offset pN m0
    = Done (tt, m') /\
    same_inputs m0 m' /\
    (forall i f, 0 <= i < npt -> 0 <= f < ncomp ->
       dbl m' IntOut (i + f * npt) = Val (out_value m0 ncomp D1D i f)) /\
    (forall o, ~ 0 <= o < npt * ncomp -> dbl m' IntOut o = dbl m0 IntOut o).
Proof.
  intros Hdeg Ho. unfold InterpolateLocal3DKernel. fold (degree T_D1D pN).
  rewrite Hdeg.
  set (MD1 := if T_D1D =? 0 then 10 else T_D1D).
  assert (HM : D1D <= MD1 <= 10).
  { subst MD1. unfold degree in Hdeg. destruct (T_D1D =? 0); lia. }
  replace (MD1 <=? 10) with true by (symmetry; apply Z.leb_le; lia).
  replace (D1D =? 0) with false by (symmetry; apply Z.eqb_neq; lia).
  unfold MFEM_VERIFY, forall_2D. cbn [negb]. unfold bind at 1 2.
  assert (H0 : kernel_inv m0 npt ncomp D1D 0 m0).
  { split; [apply agree_off_refl|]. repeat split; auto. intros i' f Hi'. lia. }
  destruct (Z.le_gt_cases npt 0) as [Hn | Hn].
  - exists m0. split; [apply for_each_nonpos, Hn|].
    destruct H0 as (A & B & C & D). repeat split; try apply A; auto.
    intros i f Hi. lia.
  - destruct (hoare_for_each (kernel_inv m0 npt ncomp D1D) npt
                (point_body MD1 D1D (Int32.mul (Int32.mul D1D D1D) D1D)
                            ncomp npt))
      with (m := m0) as (a & m' & E & HI).
    + lia.
    + intros i Hi m (Hin & Hoa & Hv & Hu).
      destruct (point_body_run MD1 i m HM Hi Hin Hoa)
        as (m' & E & Ha & Hoa' & Hv' & Hu' & _ & _).
      exists tt, m'. split; [exact E|].
      split; [|split; [|split]].
      * apply (same_inputs_off is_scratch_or_out m); auto.
        intros b; destruct b; auto; discriminate.
      * exact Hoa'.
      * intros i' f Hi' Hf. destruct (Z.eq_dec i' i) as [-> | Hne].
        -- apply Hv', Hf.
        -- rewrite Hu'; [apply Hv; auto; lia|].
           intros f' Hf' E'. apply out_index_inj in E'; lia.
      * intros o Hoo. rewrite Hu'; [apply Hu, Hoo|].
        intros f Hf E'. apply Hoo. rewrite E'.
        apply out_index_bounds; auto.
    + exact H0.
    + exists m'. destruct a. split; [exact E|].
      destruct HI as (A & B & C & D). repeat split; try apply A; auto.
Qed.

End Phases.

(** ** The kernel on well-formed inputs *)

Section KernelSpec.
Context {F : Type} {AF : Arith F}.

Lemma inputs_ok_spec (m : mem F) (npt ncomp nel D1D : Z) :
  inputs_ok m npt ncomp nel D1D = true ->
  2 <= D1D <= 10 /\
  3 * npt <= Int32.INT_MAX /\
  npt * ncomp <= Int32.INT_MAX /\
  nel * ncomp * D1D ^ 3 <= Int32.INT_MAX /\
  (forall i, 0 <= i < npt -> exists e, ints m i = Some e /\ 0 <= e < nel) /\
  (forall o, 0 <= o < 3 * npt -> is_val (dbl m RefR o) = true) /\
  (forall o, 0 <= o < nel * ncomp * D1D ^ 3 -> is_val (dbl m GfIn o) = true) /\
  (forall o, 0 <= o < D1D -> is_val (dbl m Gll1D o) = true) /\
  (forall o, 0 <= o < D1D -> is_val (dbl m LagCoeff o) = true) /\
  out_alloc npt ncomp m.
Proof.
  unfold inputs_ok. rewrite !andb_true_iff, !all_range_spec, !Z.leb_le.
  intros ((((((((((H1 & H2) & H3) & H4) & H5) & H6) & H7) & H8) & H9) & H10) & H11).
  repeat split; auto.
  intros i Hi. specialize (H6 i Hi). destruct (ints m i) as [e|]; [|discriminate].
  exists e. split; [reflexivity|].
  apply andb_true_iff in H6. destruct H6 as [A B].
  apply Z.leb_le in A. apply Z.ltb_lt in B. lia.
Qed.

(** What a run of the kernel on well-formed inputs does. *)
Lemma kernel_spec (m : mem F) (T_D1D npt ncomp nel gf_offset pN : Z) :
  inputs_ok m npt ncomp nel (degree T_D1D pN) = true ->
  exists m',
    InterpolateLocal3DKernel T_D1D npt ncomp nel gf_offset pN m
    = Done (tt, m') /\
    same_inputs m m' /\
    (forall i f, 0 <= i < npt -> 0 <= f < ncomp ->
       dbl m' IntOut (i + f * npt)
       = Val (out_value m ncomp (degree T_D1D pN) i f)) /\
    (forall o, ~ 0 <= o < npt * ncomp -> dbl m' IntOut o = dbl m IntOut o).
Proof.
  intros H. apply inputs_ok_spec in H.
  destruct H as (H1 & H2 & H3 & H4 & H5 & H6 & H7 & H8 & H9 & H10).
  apply (kernel_run m npt ncomp nel (degree T_D1D pN)); auto.
Qed.

Lemma loop_weight_weight (m : mem F) (D1D i d q : Z) :
  (forall x : F, fmul x fone = x) -> 1 <= D1D <= 31 ->
  loop_weight m D1D i d q = weight m D1D i d q.
Proof.
  intros H1 HD. unfold loop_weight, weight, basis_value.
  rewrite lagrange_loop_node_product by assumption. reflexivity.
Qed.

Lemma interpolated_ext (w w' : Z -> Z -> F) (m m' : mem F)
    (D1D ncomp ncomp' i fld fld' : Z) :
  0 < D1D ->
  (forall d q, 0 <= d < 3 -> 0 <= q < D1D -> w d q = w' d q) ->
  (forall j k l, 0 <= j < D1D -> 0 <= k < D1D -> 0 <= l < D1D ->
     table m GfIn (el_at m i * D1D ^ 3 * ncomp + fld * D1D ^ 3
                   + j + k * D1D + l * D1D ^ 2)
     = table m' GfIn (el_at m' i * D1D ^ 3 * ncomp' + fld' * D1D ^ 3
                      + j + k * D1D + l * D1D ^ 2)) ->
  interpolated w m D1D ncomp i fld = interpolated w' m' D1D ncomp' i fld'.
Proof.
  intros HD Hw Hg. unfold interpolated. apply fsum_ext. intros jj Hjj.
  assert (Hj : 0 <= jj mod D1D < D1D) by (apply Z.mod_pos_bound; lia).
  assert (Hk : 0 <= jj / D1D < D1D).
  { split; [apply Z.div_pos; lia|]. apply Z.div_lt_upper_bound; lia. }
  unfold lane_value. rewrite !Hw by lia. f_equal.
  apply fsum_ext. intros l Hl. rewrite Hw by lia. rewrite Hg by assumption.
  reflexivity.
Qed.

End KernelSpec.

Section Kronecker.
Context {F : Type} {AF : Arith F} {EF : ExactArith F}.

Lemma fold_zero (g : Z -> F) (l : list Z) :
  fold_left (fun p j => fmul p (g j)) l fzero = fzero.
Proof.
  induction l as [|x l IH]; simpl; [reflexivity|].
  rewrite fmul_zero_l. exact IH.
Qed.

Lemma fold_hits_zero (z : Z -> F) (x : F) (i n : Z) (l : list Z) :
  In n l -> n <> i -> x = z n ->
  forall a,
    fold_left (fun p j => fmul p (if j =? i then fone else fsub x (z j))) l a
    = fzero.
Proof.
  intros Hin Hne Hx. induction l as [|y l IH]; intros a; [destruct Hin|].
  simpl. destruct Hin as [-> | Hin].
  - replace (n =? i) with false by (symmetry; apply Z.eqb_neq; exact Hne).
    rewrite Hx, fsub_diag, fmul_zero_r. apply fold_zero.
  - apply IH, Hin.
Qed.

Lemma fold_scale (g : Z -> F) (l : list Z) (a b : F) :
  fmul a (fold_left (fun p j => fmul p (g j)) l b)
  = fold_left (fun p j => fmul p (g j)) l (fmul a b).
Proof.
  revert b. induction l as [|x l IH]; intros b; simpl; [reflexivity|].
  rewrite IH, fmul_assoc. reflexivity.
Qed.

Lemma basis_value_split (z c : Z -> F) (x : F) (i n : Z) :
  basis_value z c x i n
  = fmul (fmul (c i) (of_int (2 ^ (n - 1)))) (prod_others z x i n fone).
Proof.
  unfold basis_value, node_product, prod_others.
  rewrite !fold_scale, fmul_one_r. reflexivity.
Qed.

End Kronecker.

#[export] Instance Qc_exact : ExactArith Qc.
Proof.
  split; simpl; intros.
  - apply Qcmult_1_r.
  - apply Qcmult_assoc.
  - apply Qcmult_0_l.
  - apply Qcmult_0_r.
  - apply Qcplus_opp_r.
Qed.

Section Components.
Context {F : Type} {AF : Arith F}.

Lemma component_index (nel D1D e t : Z) :
  0 < D1D ^ 3 -> 0 <= e < nel -> 0 <= t < D1D ^ 3 ->
  let o := e * D1D ^ 3 + t in
  (0 <=? o) && (o <? nel * D1D ^ 3) = true /\
  o / D1D ^ 3 = e /\ o mod D1D ^ 3 = t.
Proof.
  intros HP He Ht o. subst o. set (P := D1D ^ 3) in *.
  split; [|split].
  - apply andb_true_iff. split; [apply Z.leb_le | apply Z.ltb_lt]; nia.
  - rewrite Z.add_comm, Z.div_add by lia. rewrite Z.div_small by lia. lia.
  - rewrite Z.add_comm, Z.mod_add by lia. apply Z.mod_small. lia.
Qed.

Lemma component_mem_run (m : mem F) (T_D1D npt nel g1 pN c : Z) :
  inputs_ok m npt 3 nel (degree T_D1D pN) = true -> 0 <= c < 3 ->
  exists m1,
    InterpolateLocal3DKernel T_D1D npt 1 nel g1 pN
      (component_mem m nel (degree T_D1D pN) c) = Done (tt, m1) /\
    forall i, 0 <= i < npt ->
      dbl m1 IntOut i = Val (out_value m 3 (degree T_D1D pN) i c).
Proof.
  intros Hok Hc. apply inputs_ok_spec in Hok.
  set (D1D := degree T_D1D pN) in *.
  destruct Hok as (H1 & H2 & H3 & H4 & H5 & H6 & H7 & H8 & H9 & H10).
  assert (P3 : D1D ^ 3 = D1D * D1D * D1D) by ring.
  assert (HP : 0 < D1D ^ 3) by (rewrite P3; nia).
  set (m' := component_mem m nel D1D c).
  destruct (kernel_run m' npt 1 nel D1D) with (T_D1D := T_D1D) (pN := pN)
      (gf_offset := g1) as (m1 & E & _ & Hv & _); auto.
  - unfold Int32.INT_MAX in *. lia.
  - unfold Int32.INT_MAX in *. nia.
  - intros o Ho. subst m'. unfold component_mem.
    cbn [dbl set_region region_eqb].
    assert (Hq : 0 <= o / D1D ^ 3 < nel).
    { split; [apply Z.div_pos; lia|]. apply Z.div_lt_upper_bound; lia. }
    assert (Ht : 0 <= o mod D1D ^ 3 < D1D ^ 3) by (apply Z.mod_pos_bound; lia).
    replace ((0 <=? o) && (o <? nel * D1D ^ 3)) with true
      by (symmetry; apply andb_true_iff; split;
          [apply Z.leb_le | apply Z.ltb_lt]; lia).
    apply H7. nia.
  - intros o Ho. apply H10. lia.
  - exists m1. split; [exact E|]. intros i Hi.
    specialize (Hv i 0 Hi ltac:(lia)).
    replace (i + 0 * npt) with i in Hv by ring. rewrite Hv. f_equal.
    unfold out_value. symmetry.
    apply interpolated_ext; [lia | reflexivity |].
    intros j k l Hj Hk Hl.
    destruct (H5 i Hi) as (e & Ee & He).
    assert (Ht : 0 <= j + k * D1D + l * D1D ^ 2 < D1D ^ 3) by nia.
    destruct (component_index nel D1D e _ HP He Ht) as (Hb & Hd & Hm).
    unfold el_at. change (ints m' i) with (ints m i). rewrite Ee.
    replace (e * D1D ^ 3 * 1 + 0 * D1D ^ 3 + j + k * D1D + l * D1D ^ 2)
      with (e * D1D ^ 3 + (j + k * D1D + l * D1D ^ 2)) by ring.
    unfold table at 2. unfold at_ptr, ptr. cbn [base off].
    rewrite Z.add_0_l. subst m'. unfold component_mem.
    cbn [dbl set_region region_eqb]. rewrite Hb, Hd, Hm.
    unfold table, at_ptr, ptr. cbn [base off]. rewrite Z.add_0_l.
    do 2 f_equal. ring.
Qed.

End Components.

(** ** The frame of a run *)

Section Frame.
Context {F : Type} {AF : Arith F}.
Variable S : region -> bool.

Lemma wo_ret {A} (a : A) : writes_only (F:=F) S (ret a).
Proof. intros m a' m' E. inversion E. apply agree_off_refl. Qed.

Lemma wo_bind {A B} (c : M F A) (k : A -> M F B) :
  writes_only S c -> (forall a, writes_only S (k a)) ->
  writes_only S (bind c k).
Proof.
  intros Hc Hk m b m'' E. unfold bind in E.
  destruct (c m) as [[a m']| |] eqn:Ec; try discriminate.
  apply (agree_off_trans _ m m' m''); [apply (Hc m a), Ec | apply (Hk a m' b), E].
Qed.

Lemma wo_for_list {A} (l : list Z) (body : Z -> A -> M F A) :
  (forall x a, writes_only S (body x a)) ->
  forall a, writes_only S (for_list l body a).
Proof.
  intros Hb. induction l as [|x l IH]; intros a; simpl.
  - apply wo_ret.
  - apply wo_bind; [apply Hb | exact IH].
Qed.

Lemma wo_for_loop {A} (n : Z) (body : Z -> A -> M F A) :
  (forall x a, writes_only S (body x a)) ->
  forall a, writes_only S (for_loop n body a).
Proof. intros Hb a. apply wo_for_list, Hb. Qed.

Lemma wo_for_each (n : Z) (body : Z -> M F unit) :
  (forall x, writes_only S (body x)) -> writes_only S (for_each n body).
Proof. intros Hb. apply wo_for_loop. intros x _. apply Hb. Qed.

Lemma wo_load (p : dptr) (i : Z) : writes_only (F:=F) S (load p i).
Proof.
  intros m a m' E. unfold load in E.
  destruct (dbl m (base p) (off p + i)); inversion E. apply agree_off_refl.
Qed.

Lemma wo_load_int (i : Z) : writes_only (F:=F) S (load_int i).
Proof.
  intros m a m' E. unfold load_int in E.
  destruct (ints m i); inversion E. apply agree_off_refl.
Qed.

Lemma wo_int_expr (o : option Z) : writes_only (F:=F) S (int_expr o).
Proof.
  intros m a m' E. unfold int_expr in E.
  destruct o; inversion E. apply agree_off_refl.
Qed.

Lemma wo_store (p : dptr) (i : Z) (v : F) :
  S (base p) = true -> writes_only S (store p i v).
Proof.
  intros Hp m a m' E. unfold store in E.
  destruct (dbl m (base p) (off p + i)); inversion E;
    apply agree_off_set_cell, Hp.
Qed.

Lemma wo_verify (c : bool) (msg : string) :
  writes_only (F:=F) S (MFEM_VERIFY c msg).
Proof.
  intros m a m' E. unfold MFEM_VERIFY in E. destruct c; inversion E.
  apply agree_off_refl.
Qed.

Lemma wo_alloc (b : region) (n : Z) :
  S b = true -> writes_only (F:=F) S (shared_alloc b n).
Proof.
  intros Hb m a m' E. inversion E. apply agree_off_set_region, Hb.
Qed.

Lemma wo_free (b : region) :
  S b = true -> writes_only (F:=F) S (shared_free b).
Proof.
  intros Hb m a m' E. inversion E. apply agree_off_set_region, Hb.
Qed.

Lemma wo_lagrange_eval (p0 : dptr) (x : F) (i n : Z) (z lc : dptr) :
  S (base p0) = true -> writes_only S (lagrange_eval p0 x i n z lc).
Proof.
  intros Hp. unfold lagrange_eval.
  apply wo_bind; [apply wo_int_expr|]. intros s.
  apply wo_bind.
  - apply wo_for_loop. intros j a. apply wo_bind; [apply wo_load|].
    intros zj. apply wo_ret.
  - intros p_i. apply wo_bind; [apply wo_load|]. intros c.
    apply wo_store, Hp.
Qed.

End Frame.

Ltac wo_step :=
  first
    [ apply wo_ret
    | apply wo_load
    | apply wo_load_int
    | apply wo_verify
    | apply wo_store; reflexivity
    | apply wo_alloc; reflexivity
    | apply wo_free; reflexivity
    | apply wo_lagrange_eval; reflexivity
    | apply wo_for_each; intro
    | apply wo_for_loop; intros ? ?
    | apply wo_bind; [|intro]
    | match goal with
      | |- writes_only _ (if ?c then _ else _) => destruct c
      end ].

Section FrameKernel.
Context {F : Type} {AF : Arith F}.

Lemma wo_point_body (MD1 D1D p_Np Nfields npt i : Z) :
  writes_only (F:=F) is_scratch_or_out (point_body MD1 D1D p_Np Nfields npt i).
Proof.
  unfold point_body, basis_phase, contraction_phase, reduction_phase,
    MFEM_FOREACH_THREAD, MFEM_SYNC_THREAD.
  repeat wo_step.
Qed.

Lemma wo_kernel (T_D1D npt ncomp nel gf_offset pN : Z) :
  writes_only (F:=F) is_scratch_or_out
    (InterpolateLocal3DKernel T_D1D npt ncomp nel gf_offset pN).
Proof.
  unfold InterpolateLocal3DKernel, forall_2D.
  apply wo_bind; [apply wo_verify|]. intros _.
  apply wo_bind; [apply wo_verify|]. intros _.
  apply wo_for_each. intros i. apply wo_point_body.
Qed.

Lemma wo_dispatch (field_in_size npt ncomp nel dof1Dsol : Z) :
  writes_only (F:=F) is_scratch_or_out
    (InterpolateLocal3 field_in_size npt ncomp nel dof1Dsol).
Proof.
  unfold InterpolateLocal3. destruct (npt =? 0); [apply wo_ret|].
  apply wo_bind.
  - destruct (ncomp =? 0); [|apply wo_ret]. intros m a m' E. discriminate.
  - intros g. destruct dof1Dsol as [|[[[]|[]|]|[[]|[]|]|]|]; apply wo_kernel.
Qed.

End FrameKernel.

Section NoAbort.
Context {F : Type} {AF : Arith F}.

Lemma na_ret {A} (a : A) : never_aborts (F:=F) (ret a).
Proof. intros m msg E. discriminate. Qed.

Lemma na_bind {A B} (c : M F A) (k : A -> M F B) :
  never_aborts c -> (forall a, never_aborts (k a)) -> never_aborts (bind c k).
Proof.
  intros Hc Hk m msg E. unfold bind in E.
  destruct (c m) as [[a m']| |] eqn:Ec.
  - exact (Hk a m' msg E).
  - exact (Hc m msg0 Ec).
  - discriminate.
Qed.

Lemma na_for_list {A} (l : list Z) (body : Z -> A -> M F A) :
  (forall x a, never_aborts (body x a)) ->
  forall a, never_aborts (for_list l body a).
Proof.
  intros Hb. induction l as [|x l IH]; intros a; simpl.
  - apply na_ret.
  - apply na_bind; [apply Hb | exact IH].
Qed.

Lemma na_for_loop {A} (n : Z) (body : Z -> A -> M F A) :
  (forall x a, never_aborts (body x a)) ->
  forall a, never_aborts (for_loop n body a).
Proof. intros Hb a. apply na_for_list, Hb. Qed.

Lemma na_for_each (n : Z) (body : Z -> M F unit) :
  (forall x, never_aborts (body x)) -> never_aborts (for_each n body).
Proof. intros Hb. apply na_for_loop. intros x _. apply Hb. Qed.

Lemma na_load (p : dptr) (i : Z) : never_aborts (F:=F) (load p i).
Proof.
  intros m msg E. unfold load in E.
  destruct (dbl m (base p) (off p + i)); discriminate.
Qed.

Lemma na_load_int (i : Z) : never_aborts (F:=F) (load_int i).
Proof.
  intros m msg E. unfold load_int in E. destruct (ints m i); discriminate.
Qed.

Lemma na_int_expr (o : option Z) : never_aborts (F:=F) (int_expr o).
Proof. intros m msg. unfold int_expr. destruct o; discriminate. Qed.

Lemma na_store (p : dptr) (i : Z) (v : F) : never_aborts (store p i v).
Proof.
  intros m msg E. unfold store in E.
  destruct (dbl m (base p) (off p + i)); discriminate.
Qed.

Lemma na_alloc (b : region) (n : Z) : never_aborts (F:=F) (shared_alloc b n).
Proof. intros m msg E. discriminate. Qed.

Lemma na_free (b : region) : never_aborts (F:=F) (shared_free b).
Proof. intros m msg E. discriminate. Qed.

End NoAbort.

Ltac na_step :=
  first
    [ apply na_ret
    | apply na_load
    | apply na_load_int
    | apply na_int_expr
    | apply na_store
    | apply na_alloc
    | apply na_free
    | apply na_for_each; intro
    | apply na_for_loop; intros ? ?
    | apply na_bind; [|intro]
    | match goal with
      | |- never_aborts (if ?c then _ else _) => destruct c
      end ].

Section NoAbortKernel.
Context {F : Type} {AF : Arith F}.

Lemma na_point_body (MD1 D1D p_Np Nfields npt i : Z) :
  never_aborts (F:=F) (point_body MD1 D1D p_Np Nfields npt i).
Proof.
  unfold point_body, basis_phase, contraction_phase, reduction_phase,
    lagrange_eval, MFEM_FOREACH_THREAD, MFEM_SYNC_THREAD.
  repeat na_step.
Qed.

(** On the generic path the only check that can fail is the one for an
    unspecified degree. *)
Lemma generic_path_never_aborts (npt ncomp nel gf_offset pN : Z) :
  pN <> 0 ->
  never_aborts (F:=F) (InterpolateLocal3DKernel 0 npt ncomp nel gf_offset pN).
Proof.
  intros HpN. unfold InterpolateLocal3DKernel, forall_2D.
  cbn [Z.eqb Z.leb Z.compare].
  replace (pN =? 0) with false by (symmetry; apply Z.eqb_neq; exact HpN).
  apply na_bind; [intros m msg E; discriminate|]. intros _.
  apply na_bind; [intros m msg E; discriminate|]. intros _.
  apply na_for_each. intros i. apply na_point_body.
Qed.

End NoAbortKernel.

(** ** Specialised and generic instantiations *)

Section Sim.
Context {F : Type} {AF : Arith F}.

Lemma mem_eq_refl (m : mem F) : mem_eq m m.
Proof. split; reflexivity. Qed.

Lemma sim_ret {A} (R : mem F -> mem F -> Prop) (a : A) :
  sim R R (ret a) (ret a).
Proof. intros m1 m2 H. simpl. auto. Qed.

Lemma sim_bind {A B} (R R' R'' : mem F -> mem F -> Prop)
    (c1 c2 : M F A) (k1 k2 : A -> M F B) :
  sim R R' c1 c2 -> (forall a, sim R' R'' (k1 a) (k2 a)) ->
  sim R R'' (bind c1 k1) (bind c2 k2).
Proof.
  intros Hc Hk m1 m2 H. specialize (Hc m1 m2 H). unfold bind.
  destruct (c1 m1) as [[a1 m1']| |], (c2 m2) as [[a2 m2']| |];
    simpl in Hc; try contradiction; auto.
  destruct Hc as [-> H']. apply Hk, H'.
Qed.

Lemma sim_for_list {A} (R : mem F -> mem F -> Prop) (l : list Z)
    (b1 b2 : Z -> A -> M F A) :
  (forall x a, In x l -> sim R R (b1 x a) (b2 x a)) ->
  forall a, sim R R (for_list l b1 a) (for_list l b2 a).
Proof.
  induction l as [|x l IH]; intros Hb a; simpl.
  - apply sim_ret.
  - apply (sim_bind R R R).
    + apply Hb. left. reflexivity.
    + intros a'. apply IH. intros y a'' Hy. apply Hb. right. exact Hy.
Qed.

Lemma sim_for_loop {A} (R : mem F -> mem F -> Prop) (n : Z)
    (b1 b2 : Z -> A -> M F A) :
  (forall x a, 0 <= x < n -> sim R R (b1 x a) (b2 x a)) ->
  forall a, sim R R (for_loop n b1 a) (for_loop n b2 a).
Proof.
  intros Hb a. apply sim_for_list. intros x a' Hx. apply Hb, in_zrange, Hx.
Qed.

Lemma sim_for_each (R : mem F -> mem F -> Prop) (n : Z)
    (b1 b2 : Z -> M F unit) :
  (forall x, 0 <= x < n -> sim R R (b1 x) (b2 x)) ->
  sim R R (for_each n b1) (for_each n b2).
Proof. intros Hb. apply sim_for_loop. intros x _ Hx. apply Hb, Hx. Qed.

Lemma sim_load (D : Z) (p : dptr) (i : Z) :
  covered D (base p) (off p + i) ->
  sim (scratch_agree D) (scratch_agree D) (load (F:=F) p i) (load p i).
Proof.
  intros Hc m1 m2 H. unfold load. destruct H as [Hi Hd].
  rewrite (Hd _ _ Hc). destruct (dbl m2 (base p) (off p + i)); simpl; auto.
  split; [reflexivity | split; assumption].
Qed.

Lemma sim_load_int (D : Z) (i : Z) :
  sim (scratch_agree D) (scratch_agree D) (load_int (F:=F) i) (load_int i).
Proof.
  intros m1 m2 H. unfold load_int. destruct H as [Hi Hd].
  rewrite Hi. destruct (ints m2 i); simpl; auto.
  split; [reflexivity | split; assumption].
Qed.

Lemma sim_int_expr (R : mem F -> mem F -> Prop) (o : option Z) :
  sim R R (int_expr (F:=F) o) (int_expr o).
Proof.
  intros m1 m2 H. unfold int_expr. destruct o; simpl; auto.
Qed.

Lemma scratch_agree_set_cell (D : Z) (m1 m2 : mem F) b o c :
  scratch_agree D m1 m2 ->
  scratch_agree D (set_cell m1 b o c) (set_cell m2 b o c).
Proof.
  intros [Hi Hd]. split; [exact Hi|]. intros b' o' Hc. simpl.
  destruct (region_eqb b b' && (o =? o')); [reflexivity | apply Hd, Hc].
Qed.

Lemma sim_store (D : Z) (p : dptr) (i : Z) (v : F) :
  covered D (base p) (off p + i) ->
  sim (scratch_agree D) (scratch_agree D) (store p i v) (store p i v).
Proof.
  intros Hc m1 m2 H. unfold store. destruct H as [Hi Hd].
  rewrite (Hd _ _ Hc).
  destruct (dbl m2 (base p) (off p + i)); simpl; auto;
    (split; [reflexivity | apply scratch_agree_set_cell; split; assumption]).
Qed.

Lemma sim_lagrange_eval (D : Z) (p0 : dptr) (x : F) (i n : Z) (z lc : dptr) :
  covered D (base p0) (off p0 + i) ->
  (forall o, covered D (base z) o) -> (forall o, covered D (base lc) o) ->
  sim (scratch_agree D) (scratch_agree D)
      (lagrange_eval p0 x i n z lc) (lagrange_eval p0 x i n z lc).
Proof.
  intros Hp Hz Hc. unfold lagrange_eval.
  eapply sim_bind; [apply sim_int_expr|]. intros s.
  eapply sim_bind.
  - apply sim_for_loop. intros j a Hj. eapply sim_bind.
    + apply sim_load, Hz.
    + intros zj. apply sim_ret.
  - intros p_i. eapply sim_bind.
    + apply sim_load, Hc.
    + intros c. apply sim_store, Hp.
Qed.

Lemma sim_basis_phase (D i : Z) :
  1 <= D <= 10 ->
  sim (scratch_agree D) (scratch_agree D)
      (basis_phase (F:=F) D i) (basis_phase D i).
Proof.
  intros HD. unfold basis_phase, MFEM_FOREACH_THREAD.
  apply sim_for_each. intros j Hj. apply sim_for_each. intros k Hk.
  eapply sim_bind.
  - destruct (Z.leb_spec k 2) as [Hk2 | Hk2]; [|apply sim_ret].
    eapply sim_bind; [apply sim_load; exact I|]. intros x.
    apply sim_lagrange_eval; try (intros o; exact I).
    unfold ptr, ptr_add. cbn [base off covered].
    rewrite (mul_small k D) by in_range_tac. nia.
  - intros _. destruct ((D =? 2) && (k =? 1)); [|apply sim_ret].
    eapply sim_bind; [apply sim_load; exact I|]. intros x.
    apply sim_lagrange_eval; try (intros o; exact I).
    unfold ptr, ptr_add. cbn [base off covered].
    rewrite (mul_small 2 D) by in_range_tac. lia.
Qed.

Lemma sim_contraction_phase (D E : Z) :
  1 <= D <= 10 ->
  sim (scratch_agree D) (scratch_agree D)
      (contraction_phase (F:=F) D E) (contraction_phase D E).
Proof.
  intros HD. unfold contraction_phase, MFEM_FOREACH_THREAD.
  apply sim_for_each. intros j Hj. apply sim_for_each. intros k Hk.
  assert (Hjk : covered D Sums (0 + Int32.add j (Int32.mul k D))).
  { cbn [covered]. rewrite (mul_small k D) by in_range_tac.
    rewrite (add_small j (k * D)) by in_range_tac. nia. }
  assert (Hw : forall o, 0 <= o < 3 * D -> covered D Wtr (0 + o)).
  { intros o Ho. cbn [covered]. lia. }
  eapply sim_bind; [apply sim_store; exact Hjk|]. intros _.
  eapply sim_bind.
  { apply sim_for_each. intros l Hl.
    eapply sim_bind; [apply sim_load; exact I|]. intros g.
    eapply sim_bind.
    { apply sim_load. apply Hw. rewrite (mul_small 2 D) by in_range_tac.
      rewrite (add_small (2 * D) l) by in_range_tac. lia. }
    intros w. eapply sim_bind; [apply sim_load; exact Hjk|]. intros s.
    apply sim_store; exact Hjk. }
  intros _. eapply sim_bind.
  { apply sim_load. apply Hw. rewrite (add_small D k) by in_range_tac. lia. }
  intros wk. eapply sim_bind; [apply sim_load, Hw; lia|]. intros wj.
  eapply sim_bind; [apply sim_load; exact Hjk|]. intros s.
  apply sim_store; exact Hjk.
Qed.

Lemma sim_reduction_phase (D npt i fld : Z) :
  1 <= D <= 10 ->
  sim (scratch_agree D) (scratch_agree D)
      (reduction_phase (F:=F) D npt i fld) (reduction_phase D npt i fld).
Proof.
  intros HD. unfold reduction_phase, MFEM_FOREACH_THREAD.
  apply sim_for_each. intros j Hj. apply sim_for_each. intros k Hk.
  destruct ((j =? 0) && (k =? 0)); [|apply sim_ret].
  eapply sim_bind.
  - apply sim_for_loop. intros jj a Hjj.
    rewrite (mul_small D D) in Hjj by in_range_tac.
    eapply sim_bind; [|intros s; apply sim_ret].
    apply sim_load. cbn [ptr base off covered]. lia.
  - intros sumv. apply sim_store. exact I.
Qed.

(** The work of a point once its scratch arrays are declared. *)
Lemma sim_point_work (D p_Np Nfields npt i : Z) :
  1 <= D <= 10 ->
  sim (scratch_agree D) mem_eq
      (basis_phase (F:=F) D i ;; MFEM_SYNC_THREAD ;;
       for_each Nfields (fun fld =>
         e <- load_int i ;;
         contraction_phase D
           (Int32.add (Int32.mul (Int32.mul e p_Np) Nfields)
                      (Int32.mul fld p_Np)) ;;
         MFEM_SYNC_THREAD ;; reduction_phase D npt i fld ;;
         MFEM_SYNC_THREAD) ;;
       shared_free Sums ;; shared_free Wtr)
      (basis_phase D i ;; MFEM_SYNC_THREAD ;;
       for_each Nfields (fun fld =>
         e <- load_int i ;;
         contraction_phase D
           (Int32.add (Int32.mul (Int32.mul e p_Np) Nfields)
                      (Int32.mul fld p_Np)) ;;
         MFEM_SYNC_THREAD ;; reduction_phase D npt i fld ;;
         MFEM_SYNC_THREAD) ;;
       shared_free Sums ;; shared_free Wtr).
Proof.
  intros HD.
  eapply sim_bind; [apply sim_basis_phase; lia|]. intros _.
  eapply sim_bind; [apply sim_ret|]. intros _.
  eapply sim_bind.
  { apply sim_for_each. intros fld Hf.
    eapply sim_bind; [apply sim_load_int|]. intros e.
    eapply sim_bind; [apply sim_contraction_phase; lia|]. intros _.
    eapply sim_bind; [apply sim_ret|]. intros _.
    eapply sim_bind; [apply sim_reduction_phase; lia|]. intros _.
    apply sim_ret. }
  intros _ ma mb [Hi Hd]. cbn. split; [reflexivity|].
  split; [exact Hi|]. intros b o. cbn [dbl set_region].
  destruct b; cbn [region_eqb]; try reflexivity; apply Hd; exact I.
Qed.

(** Fresh scratch arrays of different sizes agree on the cells a run of
    degree [D] can touch. *)
Lemma fresh_scratch_agree (D MD1 MD1' : Z) (m1 m2 : mem F) :
  1 <= D -> D <= MD1 <= 10 -> D <= MD1' <= 10 -> mem_eq m1 m2 ->
  scratch_agree D
    (set_region (set_region m1 Wtr (fresh_cells (Int32.mul 3 MD1)))
                Sums (fresh_cells (Int32.mul MD1 MD1)))
    (set_region (set_region m2 Wtr (fresh_cells (Int32.mul 3 MD1')))
                Sums (fresh_cells (Int32.mul MD1' MD1'))).
Proof.
  intros HD HM HM' [Hi Hd]. split; [exact Hi|].
  intros b o Hc. cbn [dbl set_region]. unfold fresh_cells.
  destruct b; cbn [region_eqb covered] in *; try apply Hd.
  - rewrite (mul_small 3 MD1), (mul_small 3 MD1') by in_range_tac.
    replace (0 <=? o) with true by (symmetry; apply Z.leb_le; lia).
    replace (o <? 3 * MD1) with true by (symmetry; apply Z.ltb_lt; lia).
    replace (o <? 3 * MD1') with true by (symmetry; apply Z.ltb_lt; lia).
    reflexivity.
  - rewrite (mul_small MD1 MD1), (mul_small MD1' MD1') by in_range_tac.
    replace (0 <=? o) with true by (symmetry; apply Z.leb_le; lia).
    replace (o <? MD1 * MD1) with true by (symmetry; apply Z.ltb_lt; nia).
    replace (o <? MD1' * MD1') with true by (symmetry; apply Z.ltb_lt; nia).
    reflexivity.
Qed.

Lemma sim_point_body (MD1 MD1' D p_Np Nfields npt i : Z) :
  1 <= D -> D <= MD1 <= 10 -> D <= MD1' <= 10 ->
  sim mem_eq mem_eq
      (point_body (F:=F) MD1 D p_Np Nfields npt i)
      (point_body MD1' D p_Np Nfields npt i).
Proof.
  intros HD HM HM' m1 m2 Hm.
  apply (sim_point_work D p_Np Nfields npt i ltac:(lia)
           (set_region (set_region m1 Wtr (fresh_cells (Int32.mul 3 MD1)))
                       Sums (fresh_cells (Int32.mul MD1 MD1)))
           (set_region (set_region m2 Wtr (fresh_cells (Int32.mul 3 MD1')))
                       Sums (fresh_cells (Int32.mul MD1' MD1')))).
  apply fresh_scratch_agree; assumption.
Qed.

(** The instantiation for degree [d] and the generic one run with [pN = d]
    end alike. *)
Lemma kernel_paths_alike (d npt ncomp nel gf_offset : Z) (m : mem F) :
  1 <= d <= 10 ->
  alike mem_eq
    (InterpolateLocal3DKernel d npt ncomp nel gf_offset 0 m)
    (InterpolateLocal3DKernel 0 npt ncomp nel gf_offset d m).
Proof.
  intros Hd.
  assert (E0 : (d =? 0) = false) by (apply Z.eqb_neq; lia).
  assert (E10 : (d <=? 10) = true) by (apply Z.leb_le; lia).
  unfold InterpolateLocal3DKernel. cbn [Z.eqb]. rewrite !E0.
  cbv beta iota zeta. rewrite ?E0, ?E10.
  change (10 <=? 10) with true.
  cbv beta iota delta [bind MFEM_VERIFY forall_2D negb].
  apply (sim_for_each mem_eq npt); [|apply mem_eq_refl].
  intros i Hi. apply sim_point_body; lia.
Qed.

End Sim.

(** In binary64, at the nodes [-1, 1] with coefficients [-1/4, 1/4], the
    basis function of node 1 is exactly 1 at its node, and that of node 0
    is a zero there, with the sign of its coefficient. *)
Example kronecker_binary64 :
  read_out (lagrange_eval (ptr Wtr) 1%float 1 2 (ptr Gll1D) (ptr LagCoeff)
              (set_region mem6 Wtr (fresh_cells 6))) Wtr 1
  = Done (Val 1%float) /\
  read_out (lagrange_eval (ptr Wtr) 1%float 0 2 (ptr Gll1D) (ptr LagCoeff)
              (set_region mem6 Wtr (fresh_cells 6))) Wtr 0
  = Done (Val (-0)%float).
Proof. split; vm_compute; reflexivity. Qed.

(** In exact arithmetic the Kronecker property holds as the specification
    words it: for a supported degree [2 <= D1D <= 10] and a
    coefficient table consistent with the node table
    ([lagrangeCoeff[i] * 2^(D1D-1) * prod_{j <> i} (z[i] - z[j]) = 1] for
    every [i]), [lagrange_eval] at the node [z[n]] stores 1 in [p0[i]] when
    [n = i] and 0 when [n <> i]. *)
Lemma kronecker_exact_arithmetic {F : Type} {AF : Arith F} {EF : ExactArith F}
    (m : mem F) (p0 z lagrangeCoeff : dptr) (D1D i n : Z) :
  2 <= D1D <= 10 -> 0 <= i < D1D -> 0 <= n < D1D ->
  all_range D1D (fun j => is_val (dbl m (base z) (off z + j))) = true ->
  all_range D1D (fun j =>
    is_val (dbl m (base lagrangeCoeff) (off lagrangeCoeff + j))) = true ->
  is_alloc (dbl m (base p0) (off p0 + i)) = true ->
  (forall i', 0 <= i' < D1D ->
     fmul (fmul (at_ptr m lagrangeCoeff i') (of_int (2 ^ (D1D - 1))))
          (prod_others (at_ptr m z) (at_ptr m z i') i' D1D fone) = fone) ->
  lagrange_eval p0 (at_ptr m z n) i D1D z lagrangeCoeff m
  = Done (tt, set_cell m (base p0) (off p0 + i)
                (Val (if n =? i then fone else fzero))).
Proof.
  intros HD Hi Hn Hz Hc Ha Hcons.
  rewrite all_range_spec in Hz, Hc.
  rewrite (lagrange_eval_run p0 _ i D1D z lagrangeCoeff (at_ptr m z)
             (at_ptr m lagrangeCoeff i) m).
  - do 4 f_equal. destruct (Z.eqb_spec n i) as [-> | Hne].
    + rewrite lagrange_loop_node_product by (try apply fmul_one_r; lia).
      fold (basis_value (at_ptr m z) (at_ptr m lagrangeCoeff) (at_ptr m z i)
              i D1D).
      rewrite basis_value_split. apply Hcons, Hi.
    + unfold lagrange_loop.
      rewrite (fold_hits_zero (at_ptr m z) _ i n); auto.
      * apply fmul_zero_r.
      * apply in_zrange, Hn.
  - lia.
  - intros j Hj. apply is_val_at, Hz, Hj.
  - apply is_val_at, Hc, Hi.
  - exact Ha.
Qed.

Lemma kronecker_exact_arithmetic_witness :
  lagrange_eval (ptr Wtr) (at_ptr memQ_basis (ptr Gll1D) 1) 0 2
                (ptr Gll1D) (ptr LagCoeff) memQ_basis
  = Done (tt, set_cell memQ_basis Wtr 0 (Val fzero)) /\
  lagrange_eval (ptr Wtr) (at_ptr memQ_basis (ptr Gll1D) 1) 1 2
                (ptr Gll1D) (ptr LagCoeff) memQ_basis
  = Done (tt, set_cell memQ_basis Wtr 1 (Val fone)).
Proof.
  assert (Hcons : forall i', 0 <= i' < 2 ->
            fmul (fmul (at_ptr memQ_basis (ptr LagCoeff) i') (of_int (2 ^ (2 - 1))))
                 (prod_others (at_ptr memQ_basis (ptr Gll1D))
                    (at_ptr memQ_basis (ptr Gll1D) i') i' 2 fone) = fone).
  { intros i' Hi'. assert (C : i' = 0 \/ i' = 1) by lia.
    destruct C as [-> | ->]; apply Qc_is_canon; vm_compute; reflexivity. }
  split.
  - apply (@kronecker_exact_arithmetic Qc Qc_arith Qc_exact memQ_basis
             (ptr Wtr) (ptr Gll1D) (ptr LagCoeff) 2 0 1);
      [lia | lia | lia | reflexivity | reflexivity | reflexivity | exact Hcons].
  - apply (@kronecker_exact_arithmetic Qc Qc_arith Qc_exact memQ_basis
             (ptr Wtr) (ptr Gll1D) (ptr LagCoeff) 2 1 1);
      [lia | lia | lia | reflexivity | reflexivity | reflexivity | exact Hcons].
Defined.

(** * The properties of the specification *)

(** C1.  On inputs that satisfy the invariants of the data model (degree
    between 2 and 10 included), the kernel runs to completion, and for every
    point [i < npt] and every component [fld < ncomp] the cell
    [int_out[i + fld * npt]] then holds [interpolated]: the sum, over the
    flat lane index [j + k * D1D] in increasing order, of the inner sums over
    [l] of [gf_in[el[i] * D1D^3 * ncomp + fld * D1D^3 + j + k * D1D + l * D1D^2]
    * w2(l)], each scaled by [w1(k) * w0(j)], where [wd(q)] is [lagcoeff[q]]
    times the product of [2^(D1D-1)] and the [r[3 * i + d] - gll1D[p]] for
    [p <> q].  The operations of [double] may be any that satisfy
    [x * 1 = x]. *)
Theorem kernel_interpolates {F : Type} {AF : Arith F} :
  (forall x : F, fmul x fone = x) ->
  forall (m : mem F) (T_D1D npt ncomp nel gf_offset pN : Z),
    inputs_ok m npt ncomp nel (degree T_D1D pN) = true ->
    exists m',
      InterpolateLocal3DKernel T_D1D npt ncomp nel gf_offset pN m
      = Done (tt, m') /\
      forall i fld, 0 <= i < npt -> 0 <= fld < ncomp ->
        dbl m' IntOut (i + fld * npt)
        = Val (interpolated (weight m (degree T_D1D pN) i) m
                 (degree T_D1D pN) ncomp i fld).
Proof.
  intros H1 m T_D1D npt ncomp nel gf_offset pN Hok.
  destruct (kernel_spec m T_D1D npt ncomp nel gf_offset pN Hok)
    as (m' & E & _ & Hv & _).
  apply inputs_ok_spec in Hok. destruct Hok as (HD & _).
  exists m'. split; [exact E|]. intros i fld Hi Hf.
  rewrite (Hv i fld Hi Hf). f_equal. unfold out_value.
  apply interpolated_ext; [lia | | reflexivity].
  intros d q _ _. apply loop_weight_weight; [exact H1 | lia].
Qed.

Lemma kernel_interpolates_witness :
  inputs_ok mem6 1 1 1 (degree 2 0) = true /\
  exists m',
    InterpolateLocal3DKernel 2 1 1 1 8 0 mem6 = Done (tt, m') /\
    forall i fld, 0 <= i < 1 -> 0 <= fld < 1 ->
      dbl m' IntOut (i + fld * 1)
      = Val (interpolated (weight mem6 (degree 2 0) i) mem6
               (degree 2 0) 1 i fld).
Proof.
  split; [reflexivity|].
  apply (@kernel_interpolates float float_arith float_mul_one_r
           mem6 2 1 1 1 8 0).
  reflexivity.
Defined.

(** C2.  A degree above the maximum is not rejected.  Called for one element
    of 11 nodes per direction (the default branch of the dispatch, [pN = 11]),
    the kernel passes both checks, enters the loop over the points and
    writes past the end of [wtr]: undefined behaviour, no abort.  The scratch
    arrays are what is missing: given arrays for 11 nodes the same loop
    completes.  With no point to process the same instantiation returns
    normally.  A degree of zero is rejected, as specified. *)
Theorem degree_11_not_rejected :
  InterpolateLocal3 1331 1 1 1 11 mem11 = Undefined /\
  completes (forall_2D 1 11 11 (point_body 11 11 1331 1 1) mem11) = true /\
  InterpolateLocal3DKernel 0 0 1 1 1331 11 mem11 = Done (tt, mem11) /\
  InterpolateLocal3 1331 1 1 1 0 mem11
  = Abort "Polynomial order not specified.".
Proof. repeat split; vm_compute; reflexivity. Qed.

(** C3.  For every degree [d] among 2, 3, 4 and 5 and all inputs, the
    instantiation specialised for [d] and the generic instantiation run with
    [pN = d] end alike: both fail the same way, or both complete with the
    same contents in every vector, the output included. *)
Theorem specialized_matches_generic {F : Type} {AF : Arith F}
    (d npt ncomp nel gf_offset : Z) (m : mem F) :
  In d [2; 3; 4; 5] ->
  alike mem_eq
    (InterpolateLocal3DKernel d npt ncomp nel gf_offset 0 m)
    (InterpolateLocal3DKernel 0 npt ncomp nel gf_offset d m).
Proof.
  intros Hd. apply kernel_paths_alike. simpl in Hd. lia.
Qed.

Lemma specialized_matches_generic_witness :
  alike mem_eq
    (InterpolateLocal3DKernel 2 1 3 1 8 0 mem3)
    (InterpolateLocal3DKernel 0 1 3 1 8 2 mem3).
Proof.
  apply (@specialized_matches_generic float float_arith 2 1 3 1 8 mem3).
  simpl. auto.
Defined.

(** C4.  For every coordinate [x], every basis index [0 <= i < p_Nq] and all
    tables [z] and [lagrangeCoeff], [lagrange_eval] completes and stores
    [lagrangeCoeff[i] * (2^(p_Nq-1) * prod_{j <> i} (x - z[j]))] in [p0[i]],
    leaving everything else as it was.  It needs the tables and [p0[i]] to be
    there, [p_Nq <= 31] for [1 << (p_Nq - 1)] to fit an [int], and
    [x * 1 = x] of the arithmetic. *)
Theorem lagrange_eval_value {F : Type} {AF : Arith F} :
  (forall x : F, fmul x fone = x) ->
  forall (m : mem F) (p0 z lagrangeCoeff : dptr) (x : F) (i p_Nq : Z),
    0 <= i < p_Nq -> p_Nq <= 31 ->
    all_range p_Nq (fun j => is_val (dbl m (base z) (off z + j))) = true ->
    is_val (dbl m (base lagrangeCoeff) (off lagrangeCoeff + i)) = true ->
    is_alloc (dbl m (base p0) (off p0 + i)) = true ->
    lagrange_eval p0 x i p_Nq z lagrangeCoeff m
    = Done (tt, set_cell m (base p0) (off p0 + i)
                  (Val (basis_value (at_ptr m z) (at_ptr m lagrangeCoeff)
                          x i p_Nq))).
Proof.
  intros H1 m p0 z lc x i p_Nq Hi Hp Hz Hc Ha.
  rewrite all_range_spec in Hz.
  rewrite (lagrange_eval_run p0 x i p_Nq z lc (at_ptr m z) (at_ptr m lc i) m).
  - unfold basis_value. rewrite lagrange_loop_node_product by (auto; lia).
    reflexivity.
  - lia.
  - intros j Hj. apply is_val_at, Hz, Hj.
  - apply is_val_at, Hc.
  - exact Ha.
Qed.

Lemma lagrange_eval_value_witness :
  lagrange_eval (ptr Wtr) 0.25%float 1 3 (ptr Gll1D) (ptr LagCoeff) mem_basis
  = Done (tt, set_cell mem_basis Wtr 1
                (Val (basis_value (at_ptr mem_basis (ptr Gll1D))
                        (at_ptr mem_basis (ptr LagCoeff)) 0.25%float 1 3))).
Proof.
  apply (@lagrange_eval_value float float_arith float_mul_one_r mem_basis
           (ptr Wtr) (ptr Gll1D) (ptr LagCoeff) 0.25%float 1 3).
  - lia.
  - lia.
  - reflexivity.
  - reflexivity.
  - reflexivity.
Defined.

(** In binary64 the property fails as stated: with nodes [-2^1022, 2^1022]
    and coefficients [-2^-1024, 2^-1024] the table is consistent, and the
    basis function of node 0 evaluates at its own node to infinity, the
    product [2 * (z[0] - z[1])] having overflowed. *)
Lemma kronecker_fails_binary64 :
  ~ kronecker_as_stated mem_far (ptr Wtr) (ptr Gll1D) (ptr LagCoeff) 2.
Proof.
  intros H.
  destruct (H ltac:(lia)) with (i := 0) (n := 0) as (v & E & Hv); try lia.
  - intros i j Hi Hj Hne.
    assert (C : (i = 0 /\ j = 1) \/ (i = 1 /\ j = 0)) by lia.
    destruct C as [[-> ->] | [-> ->]]; vm_compute; reflexivity.
  - intros i Hi. assert (C : i = 0 \/ i = 1) by lia.
    destruct C as [-> | ->]; vm_compute; reflexivity.
  - assert (E' : read_out
                   (lagrange_eval (ptr Wtr) (at_ptr mem_far (ptr Gll1D) 0) 0 2
                      (ptr Gll1D) (ptr LagCoeff) mem_far) Wtr 0
                 = Done (Val infinity)) by (vm_compute; reflexivity).
    change (base (ptr Wtr)) with Wtr in E. change (off (ptr Wtr) + 0) with 0 in E.
    rewrite E' in E. inversion E as [Ev]. subst v.
    vm_compute in Hv. discriminate.
Qed.

(** C5.  In binary64, for a supported degree [2 <= D1D <= 10],
    [lagrange_eval] at the node [z[n]] completes and stores in [p0[i]]:
    when [n = i], the value 1, if the coefficient is consistent with the
    nodes in the order the code multiplies
    ([lagrangeCoeff[i] * (2^(D1D-1) * prod_{j <> i} (z[i] - z[j])) = 1], the
    product taken from [2^(D1D-1)] on, left to right); when [n <> i], a zero
    ([+0] or [-0]), if nothing overflows: the differences [z[n] - z[j]], the
    product accumulated before [j = n] and the coefficient are finite. *)
Theorem lagrange_eval_kronecker
    (m : mem float) (p0 z lagrangeCoeff : dptr) (D1D i n : Z) :
  2 <= D1D <= 10 -> 0 <= i < D1D -> 0 <= n < D1D ->
  all_range D1D (fun j => is_val (dbl m (base z) (off z + j))) = true ->
  is_val (dbl m (base lagrangeCoeff) (off lagrangeCoeff + i)) = true ->
  is_alloc (dbl m (base p0) (off p0 + i)) = true ->
  exists v : float,
    lagrange_eval p0 (at_ptr m z n) i D1D z lagrangeCoeff m
    = Done (tt, set_cell m (base p0) (off p0 + i) (Val v)) /\
    (n = i ->
     basis_value (at_ptr m z) (at_ptr m lagrangeCoeff) (at_ptr m z i) i D1D
     = 1%float ->
     v = 1%float) /\
    (n <> i ->
     all_range D1D (fun j =>
       PrimFloat.is_finite (at_ptr m z n - at_ptr m z j)) = true ->
     PrimFloat.is_finite
       (partial_product (at_ptr m z) (at_ptr m z n) i D1D n) = true ->
     PrimFloat.is_finite (at_ptr m lagrangeCoeff i) = true ->
     PrimFloat.is_zero v = true).
Proof.
  intros HD Hi Hn Hz Hc Ha.
  rewrite all_range_spec in Hz.
  exists (fmul (at_ptr m lagrangeCoeff i)
               (lagrange_loop (at_ptr m z) (at_ptr m z n) i D1D)).
  split; [|split].
  - apply lagrange_eval_run.
    + lia.
    + intros j Hj. apply is_val_at, Hz, Hj.
    + apply is_val_at, Hc.
    + exact Ha.
  - intros -> Hcons.
    rewrite lagrange_loop_node_product by (try apply float_mul_one_r; lia).
    exact Hcons.
  - intros Hne Hd Hp Hf. rewrite all_range_spec in Hd.
    apply sf_is_zero. apply mul_zero_r; [apply is_finite_sf, Hf|].
    apply loop_zero_at_node; try lia.
    + intros j Hj. apply is_finite_sf, Hd, Hj.
    + apply is_finite_sf, Hp.
Qed.

Lemma lagrange_eval_kronecker_witness :
  (exists v : float,
     lagrange_eval (ptr Wtr) (at_ptr mem_basis (ptr Gll1D) 2) 0 3
                   (ptr Gll1D) (ptr LagCoeff) mem_basis
     = Done (tt, set_cell mem_basis Wtr (0 + 0) (Val v)) /\
     PrimFloat.is_zero v = true) /\
  (exists v : float,
     lagrange_eval (ptr Wtr) (at_ptr mem_basis (ptr Gll1D) 1) 1 3
                   (ptr Gll1D) (ptr LagCoeff) mem_basis
     = Done (tt, set_cell mem_basis Wtr (0 + 1) (Val v)) /\
     v = 1%float).
Proof.
  split.
  - destruct (lagrange_eval_kronecker mem_basis (ptr Wtr) (ptr Gll1D)
                (ptr LagCoeff) 3 0 2) as (v & E & _ & Hv);
      [lia | lia | lia | reflexivity | reflexivity | reflexivity |].
    exists v. split; [exact E|].
    apply Hv; [lia | reflexivity | reflexivity | reflexivity].
  - destruct (lagrange_eval_kronecker mem_basis (ptr Wtr) (ptr Gll1D)
                (ptr LagCoeff) 3 1 1) as (v & E & Hv & _);
      [lia | lia | lia | reflexivity | reflexivity | reflexivity |].
    exists v. split; [exact E|].
    apply Hv; reflexivity.
Defined.

(** C6.  In binary64 arithmetic, for one element of degree 2 with nodes
    [-1, 1], the coefficients [-1/4, 1/4] that go with them, nodal values
    1 to 8 by increasing tensor index, and one point at (0, 0, 0) in
    element 0, the kernel writes exactly 4.5 in the output cell of the
    point; so does the call through the dispatch. *)
Theorem cube_center_is_mean :
  read_out (InterpolateLocal3DKernel 2 1 1 1 8 0 mem6) IntOut 0
  = Done (Val 4.5%float) /\
  read_out (InterpolateLocal3 8 1 1 1 2 mem6) IntOut 0
  = Done (Val 4.5%float).
Proof. split; vm_compute; reflexivity. Qed.

(** C7.  With three components, the values written for component [c] at
    [int_out[i + c * npt]] are those a run with one component writes at
    [int_out[i]] when given the field vector of component [c] alone, all
    other arguments unchanged. *)
Theorem components_independent {F : Type} {AF : Arith F}
    (m : mem F) (T_D1D npt nel g3 g1 pN c : Z) :
  inputs_ok m npt 3 nel (degree T_D1D pN) = true -> 0 <= c < 3 ->
  exists m3 m1,
    InterpolateLocal3DKernel T_D1D npt 3 nel g3 pN m = Done (tt, m3) /\
    InterpolateLocal3DKernel T_D1D npt 1 nel g1 pN
      (component_mem m nel (degree T_D1D pN) c) = Done (tt, m1) /\
    forall i, 0 <= i < npt ->
      dbl m3 IntOut (i + c * npt) = dbl m1 IntOut i.
Proof.
  intros Hok Hc.
  destruct (kernel_spec m T_D1D npt 3 nel g3 pN Hok) as (m3 & E3 & _ & Hv3 & _).
  destruct (component_mem_run m T_D1D npt nel g1 pN c Hok Hc)
    as (m1 & E1 & Hv1).
  exists m3, m1. split; [exact E3|]. split; [exact E1|].
  intros i Hi. rewrite (Hv3 i c Hi Hc), (Hv1 i Hi). reflexivity.
Qed.

Lemma components_independent_witness :
  exists m3 m1,
    InterpolateLocal3DKernel 2 1 3 1 8 0 mem3 = Done (tt, m3) /\
    InterpolateLocal3DKernel 2 1 1 1 8 0
      (component_mem mem3 1 (degree 2 0) 1) = Done (tt, m1) /\
    forall i, 0 <= i < 1 ->
      dbl m3 IntOut (i + 1 * 1) = dbl m1 IntOut i.
Proof.
  apply (@components_independent float float_arith mem3 2 1 1 8 8 0 1).
  - reflexivity.
  - lia.
Defined.

(** C8.  With [npt = 0], [InterpolateLocal3] returns at once, without
    failing, and leaves the memory, the output vector included, as it
    was. *)
Theorem no_points_no_effect {F : Type} {AF : Arith F}
    (m : mem F) (field_in_size ncomp nel dof1Dsol : Z) :
  InterpolateLocal3 field_in_size 0 ncomp nel dof1Dsol m = Done (tt, m).
Proof. reflexivity. Qed.

(** C9.  A run of the kernel that completes leaves the field values, the
    element indices, the reference coordinates and the two basis tables as
    they were: it writes the output vector and its own scratch arrays
    only. *)
Theorem inputs_never_written {F : Type} {AF : Arith F} (m m' : mem F)
    (T_D1D npt ncomp nel gf_offset pN : Z) :
  InterpolateLocal3DKernel T_D1D npt ncomp nel gf_offset pN m = Done (tt, m') ->
  (forall i, ints m' i = ints m i) /\
  (forall b o, is_input b = true -> dbl m' b o = dbl m b o).
Proof.
  intros E. destruct (wo_kernel _ _ _ _ _ _ m tt m' E) as [Hi Hd].
  split; [exact Hi|]. intros b o Hb. apply Hd.
  unfold is_scratch_or_out. rewrite Hb. reflexivity.
Qed.

Lemma inputs_never_written_witness :
  InterpolateLocal3DKernel 2 1 1 1 8 0 mem6
  = Done (tt, final_mem (InterpolateLocal3DKernel 2 1 1 1 8 0 mem6) mem6) /\
  (forall i, ints (final_mem (InterpolateLocal3DKernel 2 1 1 1 8 0 mem6) mem6) i
             = ints mem6 i) /\
  (forall b o, is_input b = true ->
     dbl (final_mem (InterpolateLocal3DKernel 2 1 1 1 8 0 mem6) mem6) b o
     = dbl mem6 b o).
Proof.
  split; [vm_compute; reflexivity|].
  apply (@inputs_never_written float float_arith mem6 _ 2 1 1 1 8 0).
  vm_compute. reflexivity.
Defined.

(** C10.  The kernel never reads [gf_offset]: two runs that differ in
    [gf_offset] only are the same run. *)
Theorem gf_offset_unused {F : Type} {AF : Arith F}
    (m : mem F) (T_D1D npt ncomp nel pN g1 g2 : Z) :
  InterpolateLocal3DKernel T_D1D npt ncomp nel g1 pN m
  = InterpolateLocal3DKernel T_D1D npt ncomp nel g2 pN m.
Proof. reflexivity. Qed.

(** * Further properties of the code *)

(** ** The dispatch, the checks and the domain of [lagrange_eval] *)

Section Dispatch.
Context {F : Type} {AF : Arith F}.

Lemma alike_refl {A} (o : outcome (A * mem F)) : alike mem_eq o o.
Proof.
  destruct o as [[a m]| |]; simpl; auto. split; [reflexivity | apply mem_eq_refl].
Qed.

End Dispatch.

(** X1.  The dispatch with at least one point is the generic instantiation
    run with [pN = dof1Dsol] and [gf_offset = field_in.Size() / ncomp],
    whatever [dof1Dsol] is: both fail the same way, or both complete with the
    same contents in every vector.  With [ncomp = 0] the division is
    undefined. *)
Theorem dispatch_matches_generic {F : Type} {AF : Arith F}
    (m : mem F) (field_in_size npt ncomp nel dof1Dsol : Z) :
  npt <> 0 ->
  alike mem_eq
    (InterpolateLocal3 field_in_size npt ncomp nel dof1Dsol m)
    (if ncomp =? 0 then Undefined
     else InterpolateLocal3DKernel 0 npt ncomp nel
            (Int32.div field_in_size ncomp) dof1Dsol m).
Proof.
  intros Hn. unfold InterpolateLocal3.
  replace (npt =? 0) with false by (symmetry; apply Z.eqb_neq; exact Hn).
  destruct (ncomp =? 0); [exact I|].
  rewrite (bind_done _ _ m (Int32.div field_in_size ncomp) m eq_refl).
  destruct dof1Dsol as [|[[[]|[]|]|[[]|[]|]|]|];
    first [apply alike_refl | apply kernel_paths_alike; lia].
Qed.

Lemma dispatch_matches_generic_witness :
  alike mem_eq
    (InterpolateLocal3 24 1 3 1 2 mem3)
    (if 3 =? 0 then Undefined
     else InterpolateLocal3DKernel 0 1 3 1 (Int32.div 24 3) 2 mem3).
Proof.
  apply (@dispatch_matches_generic float float_arith mem3 24 1 3 1 2). lia.
Defined.

(** X2.  A call of [InterpolateLocal3] that returns has written neither
    [el] nor any cell of [field_in], [r], [gll1d] or [lagcoeff], whatever
    the sizes and the degree. *)
Theorem dispatch_inputs_never_written {F : Type} {AF : Arith F}
    (m m' : mem F) (field_in_size npt ncomp nel dof1Dsol : Z) :
  InterpolateLocal3 field_in_size npt ncomp nel dof1Dsol m = Done (tt, m') ->
  (forall i, ints m' i = ints m i) /\
  (forall b o, is_input b = true -> dbl m' b o = dbl m b o).
Proof.
  intros E. destruct (wo_dispatch _ _ _ _ _ m tt m' E) as [Hi Hd].
  split; [exact Hi|]. intros b o Hb. apply Hd.
  unfold is_scratch_or_out. rewrite Hb. reflexivity.
Qed.

Lemma dispatch_inputs_never_written_witness :
  InterpolateLocal3 24 1 3 1 2 mem3
  = Done (tt, final_mem (InterpolateLocal3 24 1 3 1 2 mem3) mem3) /\
  (forall i, ints (final_mem (InterpolateLocal3 24 1 3 1 2 mem3) mem3) i
             = ints mem3 i) /\
  (forall b o, is_input b = true ->
     dbl (final_mem (InterpolateLocal3 24 1 3 1 2 mem3) mem3) b o
     = dbl mem3 b o).
Proof.
  split; [vm_compute; reflexivity|].
  apply (@dispatch_inputs_never_written float float_arith mem3 _ 24 1 3 1 2).
  vm_compute. reflexivity.
Defined.

(** X3.  The kernel aborts in exactly two cases, whatever the memory and
    the sizes: a template parameter above 10, with the message of the first
    check, and neither template parameter nor [pN] given, with the message of
    the second.  No data makes it abort. *)
Theorem kernel_abort_iff {F : Type} {AF : Arith F}
    (m : mem F) (T_D1D npt ncomp nel gf_offset pN : Z) (msg : string) :
  InterpolateLocal3DKernel T_D1D npt ncomp nel gf_offset pN m = Abort msg <->
  (10 < T_D1D /\ msg = "Increase Max allowable polynomial order."%string) \/
  (T_D1D = 0 /\ pN = 0 /\ msg = "Polynomial order not specified."%string).
Proof.
  unfold InterpolateLocal3DKernel, MFEM_VERIFY, forall_2D.
  destruct (Z.eqb_spec T_D1D 0) as [-> | HT].
  - change (10 <=? 10) with true. cbv beta iota delta [bind].
    destruct (Z.eqb_spec pN 0) as [-> | HpN]; cbn [negb].
    + split.
      * intros E. inversion E. right. auto.
      * intros [[H _] | (_ & _ & ->)]; [lia | reflexivity].
    + split.
      * intros E. exfalso. revert E.
        apply (na_for_each npt). intros i. apply na_point_body.
      * intros [[H _] | (_ & H & _)]; [lia | contradiction].
  - replace (T_D1D =? 0) with false by (symmetry; apply Z.eqb_neq; exact HT).
    cbv beta iota delta [bind negb].
    destruct (Z.leb_spec T_D1D 10) as [Hle | Hgt].
    + split.
      * intros E. exfalso. revert E.
        apply (na_for_each npt). intros i. apply na_point_body.
      * intros [[H _] | (H & _)]; [lia | contradiction].
    + split.
      * intros E. inversion E. left. auto.
      * intros [[_ ->] | (H & _)]; [reflexivity | contradiction].
Qed.

Section LagrangeDomain.
Context {F : Type} {AF : Arith F}.

Lemma loads_loop_outcome (z : dptr) (f : Z -> F -> F -> F) (l : list Z)
    (m : mem F) :
  forall a,
    match for_list l (fun j a => zj <- load z j ;; ret (f j a zj)) a m with
    | Done (_, m') =>
        m' = m /\
        forallb (fun j => is_val (dbl m (base z) (off z + j))) l = true
    | Abort _ => False
    | Undefined =>
        forallb (fun j => is_val (dbl m (base z) (off z + j))) l = false
    end.
Proof.
  induction l as [|x l IH]; intros a; cbn [for_list forallb].
  - split; reflexivity.
  - unfold bind at 1. unfold bind at 1. unfold load at 1.
    destruct (dbl m (base z) (off z + x)) as [| |v]; cbn [is_val andb];
      try reflexivity.
    unfold ret at 1. exact (IH (f x a v)).
Qed.

End LagrangeDomain.

(** X4.  For a count of nodes [p_Nq] that is an [int], [lagrange_eval]
    returns exactly when [1 <= p_Nq <= 32], so that the shift
    [1 << (p_Nq - 1)] is defined, the [p_Nq] nodes and the coefficient
    [lagrangeCoeff[i]] hold values and [p0[i]] is allocated; the coordinate
    [x] plays no part in that. *)
Theorem lagrange_eval_completes_iff {F : Type} {AF : Arith F}
    (m : mem F) (p0 z lagrangeCoeff : dptr) (x : F) (i p_Nq : Z) :
  Int32.in_range p_Nq ->
  completes (lagrange_eval p0 x i p_Nq z lagrangeCoeff m)
  = (1 <=? p_Nq) && (p_Nq <=? 32)
    && all_range p_Nq (fun j => is_val (dbl m (base z) (off z + j)))
    && is_val (dbl m (base lagrangeCoeff) (off lagrangeCoeff + i))
    && is_alloc (dbl m (base p0) (off p0 + i)).
Proof.
  intros Hr. unfold lagrange_eval.
  destruct (Z.leb_spec 1 p_Nq) as [H1 | H1];
    [destruct (Z.leb_spec p_Nq 32) as [H2 | H2]|].
  - rewrite (shl_defined p_Nq) by lia.
    unfold bind at 1, int_expr at 1. cbv beta iota zeta. cbn [andb].
    unfold all_range, for_loop.
    pose proof (loads_loop_outcome z
                  (fun j p_i zj =>
                     fmul p_i (if j =? i then fone else fsub x zj))
                  (zrange p_Nq) m
                  (of_int (Int32.wrap (2 ^ (p_Nq - 1))))) as H.
    unfold bind at 1.
    destruct (for_list (zrange p_Nq) _ _ m) as [[p_i m']| |].
    + destruct H as [-> ->]. unfold bind, load, store.
      destruct (dbl m (base lagrangeCoeff) (off lagrangeCoeff + i));
        cbn [is_val andb completes]; try reflexivity.
      destruct (dbl m (base p0) (off p0 + i)); reflexivity.
    + contradiction.
    + rewrite H. reflexivity.
  - rewrite (shl_undefined p_Nq Hr) by lia. reflexivity.
  - rewrite (shl_undefined p_Nq Hr) by lia. reflexivity.
Qed.

Lemma lagrange_eval_completes_iff_witness :
  completes (lagrange_eval (ptr Wtr) 0.25%float 1 3 (ptr Gll1D)
               (ptr LagCoeff) mem_basis)
  = (1 <=? 3) && (3 <=? 32)
    && all_range 3 (fun j => is_val (dbl mem_basis Gll1D (0 + j)))
    && is_val (dbl mem_basis LagCoeff (0 + 1))
    && is_alloc (dbl mem_basis Wtr (0 + 1)).
Proof.
  apply (@lagrange_eval_completes_iff float float_arith mem_basis
           (ptr Wtr) (ptr Gll1D) (ptr LagCoeff) 0.25%float 1 3).
  unfold Int32.in_range, Int32.INT_MIN, Int32.INT_MAX. lia.
Defined.

(** ** What the output depends on *)

Section Locality.
Context {F : Type} {AF : Arith F}.

Lemma lagrange_loop_ext (z z' : Z -> F) (x : F) (i n : Z) :
  (forall j, 0 <= j < n -> z j = z' j) ->
  lagrange_loop z x i n = lagrange_loop z' x i n.
Proof.
  intros H. unfold lagrange_loop.
  generalize (of_int (int_val (Int32.shl 1 (Int32.sub n 1)))).
  assert (G : forall l, (forall j, In j l -> z j = z' j) ->
            forall a,
              fold_left (fun p_i j =>
                           fmul p_i (if j =? i then fone else fsub x (z j))) l a
              = fold_left (fun p_i j =>
                             fmul p_i (if j =? i then fone else fsub x (z' j)))
                          l a).
  { induction l as [|y l IH]; intros Hl a; simpl; [reflexivity|].
    rewrite (Hl y (or_introl eq_refl)). apply IH.
    intros j Hj. apply Hl. right. exact Hj. }
  apply G. intros j Hj. apply H, in_zrange, Hj.
Qed.

(** The value computed for a point and a component is a function of the
    point's element index and coordinates, of the two tables, and of the
    nodal values of that element and component. *)
Lemma out_value_local (m1 m2 : mem F) (ncomp D i fld : Z) :
  0 < D ->
  ints m1 i = ints m2 i ->
  (forall d, 0 <= d < 3 -> dbl m1 RefR (3 * i + d) = dbl m2 RefR (3 * i + d)) ->
  (forall q, 0 <= q < D -> dbl m1 Gll1D q = dbl m2 Gll1D q) ->
  (forall q, 0 <= q < D -> dbl m1 LagCoeff q = dbl m2 LagCoeff q) ->
  (forall t, 0 <= t < D ^ 3 ->
     dbl m1 GfIn (el_at m1 i * D ^ 3 * ncomp + fld * D ^ 3 + t)
     = dbl m2 GfIn (el_at m1 i * D ^ 3 * ncomp + fld * D ^ 3 + t)) ->
  out_value m1 ncomp D i fld = out_value m2 ncomp D i fld.
Proof.
  intros HD Hel Hr Hz Hc Hg. unfold out_value.
  assert (Hel' : el_at m2 i = el_at m1 i) by (unfold el_at; rewrite Hel; reflexivity).
  assert (T : forall (m : mem F) b o, table m b o = cell_val (dbl m b o))
    by reflexivity.
  apply interpolated_ext; [exact HD | |].
  - intros d q Hd Hq. unfold loop_weight.
    rewrite !T, (Hc q Hq), (Hr d Hd). f_equal.
    apply lagrange_loop_ext. intros j Hj. rewrite !T, (Hz j Hj). reflexivity.
  - intros j k l Hj Hk Hl. rewrite Hel', !T.
    replace (el_at m1 i * D ^ 3 * ncomp + fld * D ^ 3 + j + k * D + l * D ^ 2)
      with (el_at m1 i * D ^ 3 * ncomp + fld * D ^ 3
            + (j + k * D + l * D ^ 2)) by ring.
    rewrite Hg; [reflexivity|]. nia.
Qed.

Lemma same_inputs_out_value (m1 m2 : mem F) (ncomp D i fld : Z) :
  0 < D -> same_inputs m1 m2 ->
  out_value m1 ncomp D i fld = out_value m2 ncomp D i fld.
Proof.
  intros HD [Hi Hd].
  apply out_value_local; auto; intros; symmetry; apply Hd; reflexivity.
Qed.

(** A memory with the inputs of a well-formed one and its output cells
    allocated is well formed. *)
Lemma kernel_run_same_inputs (m m1 : mem F)
    (T_D1D npt ncomp nel gf_offset pN : Z) :
  inputs_ok m npt ncomp nel (degree T_D1D pN) = true ->
  same_inputs m m1 -> out_alloc npt ncomp m1 ->
  exists m',
    InterpolateLocal3DKernel T_D1D npt ncomp nel gf_offset pN m1
    = Done (tt, m') /\
    same_inputs m1 m' /\
    (forall i f, 0 <= i < npt -> 0 <= f < ncomp ->
       dbl m' IntOut (i + f * npt)
       = Val (out_value m ncomp (degree T_D1D pN) i f)) /\
    (forall o, ~ 0 <= o < npt * ncomp -> dbl m' IntOut o = dbl m1 IntOut o).
Proof.
  intros Hok [Hi Hd] Ho. apply inputs_ok_spec in Hok.
  destruct Hok as (H1 & H2 & H3 & H4 & H5 & H6 & H7 & H8 & H9 & H10).
  destruct (kernel_run m1 npt ncomp nel (degree T_D1D pN))
    with (T_D1D := T_D1D) (pN := pN) (gf_offset := gf_offset)
    as (m' & E & Hs & Hv & Hu); auto.
  - intros i Hi'. rewrite Hi. apply H5, Hi'.
  - intros o Hoo. rewrite Hd by reflexivity. apply H6, Hoo.
  - intros o Hoo. rewrite Hd by reflexivity. apply H7, Hoo.
  - intros o Hoo. rewrite Hd by reflexivity. apply H8, Hoo.
  - intros o Hoo. rewrite Hd by reflexivity. apply H9, Hoo.
  - exists m'. repeat split; try apply Hs; auto.
    intros i f Hi' Hf. rewrite (Hv i f Hi' Hf). f_equal. symmetry.
    apply same_inputs_out_value; [lia | split; assumption].
Qed.

End Locality.

(** X5.  On inputs that satisfy the invariants of the data model, the
    kernel gives a value to each of the [npt * ncomp] cells of [int_out] and
    leaves every other cell of it as it was. *)
Theorem output_cells_bounded {F : Type} {AF : Arith F}
    (m : mem F) (T_D1D npt ncomp nel gf_offset pN : Z) :
  inputs_ok m npt ncomp nel (degree T_D1D pN) = true -> 0 <= npt ->
  exists m',
    InterpolateLocal3DKernel T_D1D npt ncomp nel gf_offset pN m
    = Done (tt, m') /\
    (forall o, 0 <= o < npt * ncomp -> is_val (dbl m' IntOut o) = true) /\
    (forall o, o < 0 \/ npt * ncomp <= o -> dbl m' IntOut o = dbl m IntOut o).
Proof.
  intros Hok Hnpt.
  destruct (kernel_spec m T_D1D npt ncomp nel gf_offset pN Hok)
    as (m' & E & _ & Hv & Hu).
  exists m'. split; [exact E|]. split.
  - intros o Ho.
    assert (Hn : 0 < npt) by (destruct (Z.eq_dec npt 0) as [Hz | Hz]; [rewrite Hz in *; lia | lia]).
    assert (Hi : 0 <= o mod npt < npt) by (apply Z.mod_pos_bound; lia).
    assert (Hf : 0 <= o / npt < ncomp).
    { split; [apply Z.div_pos; lia|]. apply Z.div_lt_upper_bound; lia. }
    replace o with (o mod npt + o / npt * npt)
      by (rewrite (Z.div_mod o npt) at 3 by lia; ring).
    rewrite (Hv _ _ Hi Hf). reflexivity.
  - intros o Ho. apply Hu. lia.
Qed.

Lemma output_cells_bounded_witness :
  exists m',
    InterpolateLocal3DKernel 2 2 1 1 8 0 mem2 = Done (tt, m') /\
    (forall o, 0 <= o < 2 * 1 -> is_val (dbl m' IntOut o) = true) /\
    (forall o, o < 0 \/ 2 * 1 <= o -> dbl m' IntOut o = dbl mem2 IntOut o).
Proof.
  apply (@output_cells_bounded float float_arith mem2 2 2 1 1 8 0).
  - reflexivity.
  - lia.
Defined.

(** X6.  The value of point [i] and component [fld] depends only on
    [el[i]], on the three coordinates of point [i], on the tables and on the
    [D1D^3] nodal values of that element and component: two runs on memories
    that agree on these write the same value there, whatever the other points,
    elements and components hold. *)
Theorem point_output_local {F : Type} {AF : Arith F}
    (m1 m2 : mem F) (T_D1D npt ncomp nel g1 g2 pN i fld : Z) :
  inputs_ok m1 npt ncomp nel (degree T_D1D pN) = true ->
  inputs_ok m2 npt ncomp nel (degree T_D1D pN) = true ->
  0 <= i < npt -> 0 <= fld < ncomp ->
  ints m1 i = ints m2 i ->
  (forall d, 0 <= d < 3 -> dbl m1 RefR (3 * i + d) = dbl m2 RefR (3 * i + d)) ->
  (forall q, 0 <= q < degree T_D1D pN ->
     dbl m1 Gll1D q = dbl m2 Gll1D q /\ dbl m1 LagCoeff q = dbl m2 LagCoeff q) ->
  (forall t, 0 <= t < degree T_D1D pN ^ 3 ->
     dbl m1 GfIn (el_at m1 i * degree T_D1D pN ^ 3 * ncomp
                  + fld * degree T_D1D pN ^ 3 + t)
     = dbl m2 GfIn (el_at m1 i * degree T_D1D pN ^ 3 * ncomp
                    + fld * degree T_D1D pN ^ 3 + t)) ->
  exists m1' m2',
    InterpolateLocal3DKernel T_D1D npt ncomp nel g1 pN m1 = Done (tt, m1') /\
    InterpolateLocal3DKernel T_D1D npt ncomp nel g2 pN m2 = Done (tt, m2') /\
    dbl m1' IntOut (i + fld * npt) = dbl m2' IntOut (i + fld * npt).
Proof.
  intros Hok1 Hok2 Hi Hf Hel Hr Ht Hg.
  destruct (kernel_spec m1 T_D1D npt ncomp nel g1 pN Hok1)
    as (m1' & E1 & _ & Hv1 & _).
  destruct (kernel_spec m2 T_D1D npt ncomp nel g2 pN Hok2)
    as (m2' & E2 & _ & Hv2 & _).
  apply inputs_ok_spec in Hok1. destruct Hok1 as (HD & _).
  exists m1', m2'. split; [exact E1|]. split; [exact E2|].
  rewrite (Hv1 i fld Hi Hf), (Hv2 i fld Hi Hf). f_equal.
  apply out_value_local; auto; try lia; intros q Hq; apply Ht, Hq.
Qed.

Lemma point_output_local_witness :
  exists m1' m2',
    InterpolateLocal3DKernel 2 2 1 1 8 0 mem2 = Done (tt, m1') /\
    InterpolateLocal3DKernel 2 2 1 1 8 0 mem2' = Done (tt, m2') /\
    dbl m1' IntOut (0 + 0 * 2) = dbl m2' IntOut (0 + 0 * 2).
Proof.
  apply (@point_output_local float float_arith mem2 mem2' 2 2 1 1 8 8 0 0 0).
  - reflexivity.
  - reflexivity.
  - lia.
  - lia.
  - reflexivity.
  - intros d Hd. assert (C : d = 0 \/ d = 1 \/ d = 2) by lia.
    destruct C as [-> | [-> | ->]]; reflexivity.
  - intros q Hq. change (degree 2 0) with 2 in Hq.
    assert (C : q = 0 \/ q = 1) by lia.
    destruct C as [-> | ->]; split; reflexivity.
  - intros t Ht. reflexivity.
Defined.

(** X7.  The kernel reads nothing of what [int_out] held: run on the same
    inputs with other contents of [int_out], it writes the same
    [npt * ncomp] values. *)
Theorem output_overwritten {F : Type} {AF : Arith F}
    (m1 m2 : mem F) (T_D1D npt ncomp nel gf_offset pN : Z) :
  inputs_ok m1 npt ncomp nel (degree T_D1D pN) = true -> 0 <= npt ->
  same_inputs m1 m2 ->
  all_range (npt * ncomp) (fun o => is_alloc (dbl m2 IntOut o)) = true ->
  exists m1' m2',
    InterpolateLocal3DKernel T_D1D npt ncomp nel gf_offset pN m1
    = Done (tt, m1') /\
    InterpolateLocal3DKernel T_D1D npt ncomp nel gf_offset pN m2
    = Done (tt, m2') /\
    forall o, 0 <= o < npt * ncomp -> dbl m1' IntOut o = dbl m2' IntOut o.
Proof.
  intros Hok Hnpt Hs Ho. rewrite all_range_spec in Ho.
  destruct (kernel_spec m1 T_D1D npt ncomp nel gf_offset pN Hok)
    as (m1' & E1 & _ & Hv1 & _).
  destruct (kernel_run_same_inputs m1 m2 T_D1D npt ncomp nel gf_offset pN
              Hok Hs Ho) as (m2' & E2 & _ & Hv2 & _).
  exists m1', m2'. split; [exact E1|]. split; [exact E2|].
  intros o Hoo.
  assert (Hn : 0 < npt) by (destruct (Z.eq_dec npt 0) as [Hz | Hz]; [rewrite Hz in *; lia | lia]).
  assert (Hi : 0 <= o mod npt < npt) by (apply Z.mod_pos_bound; lia).
  assert (Hf : 0 <= o / npt < ncomp).
  { split; [apply Z.div_pos; lia|]. apply Z.div_lt_upper_bound; lia. }
  replace o with (o mod npt + o / npt * npt)
    by (rewrite (Z.div_mod o npt) at 3 by lia; ring).
  rewrite (Hv1 _ _ Hi Hf), (Hv2 _ _ Hi Hf). reflexivity.
Qed.

(** X8.  Running the kernel again on the memory it left gives the same
    [int_out]: the first run has left nothing behind, in the inputs or in
    the scratch arrays, that changes the second. *)
Theorem kernel_idempotent {F : Type} {AF : Arith F}
    (m : mem F) (T_D1D npt ncomp nel gf_offset pN : Z) :
  inputs_ok m npt ncomp nel (degree T_D1D pN) = true -> 0 <= npt ->
  exists m' m'',
    InterpolateLocal3DKernel T_D1D npt ncomp nel gf_offset pN m
    = Done (tt, m') /\
    InterpolateLocal3DKernel T_D1D npt ncomp nel gf_offset pN m'
    = Done (tt, m'') /\
    forall o, dbl m'' IntOut o = dbl m' IntOut o.
Proof.
  intros Hok Hnpt.
  destruct (kernel_spec m T_D1D npt ncomp nel gf_offset pN Hok)
    as (m' & E1 & Hs & Hv1 & Hu1).
  assert (Ho : out_alloc npt ncomp m').
  { intros o Hoo.
    assert (Hn : 0 < npt) by (destruct (Z.eq_dec npt 0) as [Hz | Hz]; [rewrite Hz in *; lia | lia]).
    assert (Hi : 0 <= o mod npt < npt) by (apply Z.mod_pos_bound; lia).
    assert (Hf : 0 <= o / npt < ncomp).
    { split; [apply Z.div_pos; lia|]. apply Z.div_lt_upper_bound; lia. }
    replace o with (o mod npt + o / npt * npt)
      by (rewrite (Z.div_mod o npt) at 3 by lia; ring).
    rewrite (Hv1 _ _ Hi Hf). reflexivity. }
  destruct (kernel_run_same_inputs m m' T_D1D npt ncomp nel gf_offset pN
              Hok Hs Ho) as (m'' & E2 & _ & Hv2 & Hu2).
  exists m', m''. split; [exact E1|]. split; [exact E2|].
  intros o. destruct (Z_lt_dec o 0) as [Hneg | Hpos].
  - apply Hu2. lia.
  - destruct (Z_lt_dec o (npt * ncomp)) as [Hin | Hout].
    + assert (Hn : 0 < npt) by (destruct (Z.eq_dec npt 0) as [Hz | Hz]; [rewrite Hz in *; lia | lia]).
      assert (Hi : 0 <= o mod npt < npt) by (apply Z.mod_pos_bound; lia).
      assert (Hf : 0 <= o / npt < ncomp).
      { split; [apply Z.div_pos; lia|]. apply Z.div_lt_upper_bound; lia. }
      replace o with (o mod npt + o / npt * npt)
        by (rewrite (Z.div_mod o npt) at 3 by lia; ring).
      rewrite (Hv1 _ _ Hi Hf), (Hv2 _ _ Hi Hf). reflexivity.
    + apply Hu2. lia.
Qed.

Lemma output_overwritten_witness :
  exists m1' m2',
    InterpolateLocal3DKernel 2 2 1 1 8 0 mem2 = Done (tt, m1') /\
    InterpolateLocal3DKernel 2 2 1 1 8 0
      (set_cell mem2 IntOut 1 (Val 7%float)) = Done (tt, m2') /\
    forall o, 0 <= o < 2 * 1 -> dbl m1' IntOut o = dbl m2' IntOut o.
Proof.
  apply (@output_overwritten float float_arith mem2
           (set_cell mem2 IntOut 1 (Val 7%float)) 2 2 1 1 8 0).
  - reflexivity.
  - lia.
  - apply agree_off_set_cell. reflexivity.
  - reflexivity.
Defined.

Lemma kernel_idempotent_witness :
  exists m' m'',
    InterpolateLocal3DKernel 2 2 1 1 8 0 mem2 = Done (tt, m') /\
    InterpolateLocal3DKernel 2 2 1 1 8 0 m' = Done (tt, m'') /\
    forall o, dbl m'' IntOut o = dbl m' IntOut o.
Proof.
  apply (@kernel_idempotent float float_arith mem2 2 2 1 1 8 0).
  - reflexivity.
  - lia.
Defined.

(** ** Points on nodes *)

(** Zero is neutral for the addition. *)

#[export] Instance Qc_add_zero : AddZero Qc.
Proof.
  split; simpl; intros.
  - apply Qcplus_0_l.
  - apply Qcplus_0_r.
Qed.

Section Nodal.
Context {F : Type} {AF : Arith F} {EF : ExactArith F} {ZF : AddZero F}.

Lemma basis_value_kronecker (z c : Z -> F) (D i n : Z) :
  1 <= D <= 31 -> 0 <= n < D ->
  fmul (fmul (c i) (of_int (2 ^ (D - 1)))) (prod_others z (z i) i D fone)
  = fone ->
  basis_value z c (z n) i D = if n =? i then fone else fzero.
Proof.
  intros HD Hn Hcons. destruct (Z.eqb_spec n i) as [-> | Hne].
  - rewrite basis_value_split. exact Hcons.
  - unfold basis_value.
    rewrite <- lagrange_loop_node_product by (try apply fmul_one_r; lia).
    unfold lagrange_loop.
    rewrite (fold_hits_zero z _ i n); auto.
    + apply fmul_zero_r.
    + apply in_zrange, Hn.
Qed.

(** A sum with one term that is not zero. *)
Lemma fsum_single (f : Z -> F) (n a : Z) :
  0 <= a < n -> (forall j, 0 <= j < n -> j <> a -> f j = fzero) ->
  fsum f n = f a.
Proof.
  intros Ha H.
  assert (G : forall k, 0 <= k -> k <= n ->
            fsum f k = if k <=? a then fzero else f a).
  { intros k Hk. pattern k. apply natlike_ind; [| |exact Hk].
    - intros _. replace (0 <=? a) with true by (symmetry; apply Z.leb_le; lia).
      reflexivity.
    - intros x Hx IH Hle. unfold Z.succ. rewrite fsum_succ by exact Hx.
      rewrite IH by lia.
      destruct (Z.leb_spec x a) as [Hxa | Hxa];
        destruct (Z.leb_spec (x + 1) a) as [Hxa' | Hxa']; try lia.
      + rewrite (H x) by lia. apply fadd_zero_l.
      + replace x with a by lia. apply fadd_zero_l.
      + rewrite (H x) by lia. apply fadd_zero_r. }
  rewrite (G n) by lia.
  replace (n <=? a) with false by (symmetry; apply Z.leb_gt; lia).
  reflexivity.
Qed.

(** With weights that select the node [(a0, a1, a2)], the interpolated
    value is the nodal value. *)
Lemma interpolated_at_node (w : Z -> Z -> F) (m : mem F)
    (D ncomp i fld a0 a1 a2 : Z) :
  0 < D -> 0 <= a0 < D -> 0 <= a1 < D -> 0 <= a2 < D ->
  (forall q, 0 <= q < D -> w 0 q = if a0 =? q then fone else fzero) ->
  (forall q, 0 <= q < D -> w 1 q = if a1 =? q then fone else fzero) ->
  (forall q, 0 <= q < D -> w 2 q = if a2 =? q then fone else fzero) ->
  interpolated w m D ncomp i fld
  = table m GfIn (el_at m i * D ^ 3 * ncomp + fld * D ^ 3
                  + a0 + a1 * D + a2 * D ^ 2).
Proof.
  intros HD H0 H1 H2 W0 W1 W2. unfold interpolated.
  assert (Hlane : forall j k, 0 <= j < D -> 0 <= k < D ->
            lane_value w m D ncomp i fld j k
            = fmul (table m GfIn (el_at m i * D ^ 3 * ncomp + fld * D ^ 3
                                  + j + k * D + a2 * D ^ 2))
                   (fmul (w 1 k) (w 0 j))).
  { intros j k Hj Hk. unfold lane_value. f_equal.
    rewrite (fsum_single _ D a2 H2).
    - rewrite (W2 a2 H2), Z.eqb_refl. apply fmul_one_r.
    - intros l Hl Hne. rewrite (W2 l Hl).
      replace (a2 =? l) with false by (symmetry; apply Z.eqb_neq; lia).
      apply fmul_zero_r. }
  rewrite (fsum_single _ (D * D) (a0 + a1 * D)).
  - assert (Em : (a0 + a1 * D) mod D = a0)
      by (rewrite Z.mod_add by lia; apply Z.mod_small; lia).
    assert (Ed : (a0 + a1 * D) / D = a1)
      by (rewrite Z.div_add by lia; rewrite Z.div_small by lia; lia).
    rewrite Em, Ed, Hlane by assumption.
    rewrite (W1 a1 H1), (W0 a0 H0), !Z.eqb_refl, !fmul_one_r. reflexivity.
  - nia.
  - intros jj Hjj Hne.
    assert (Hj : 0 <= jj mod D < D) by (apply Z.mod_pos_bound; lia).
    assert (Hk : 0 <= jj / D < D).
    { split; [apply Z.div_pos; lia|]. apply Z.div_lt_upper_bound; lia. }
    rewrite Hlane by assumption. rewrite (W1 _ Hk), (W0 _ Hj).
    destruct (Z.eqb_spec a1 (jj / D)) as [E1 | E1];
      destruct (Z.eqb_spec a0 (jj mod D)) as [E0 | E0];
      rewrite ?fmul_one_r, ?fmul_zero_l, ?fmul_zero_r; try reflexivity.
    exfalso. apply Hne. rewrite (Z.div_mod jj D) by lia. rewrite E0, E1. ring.
Qed.

End Nodal.

(** X9.  In exact arithmetic, and with coefficients consistent with the
    nodes (each basis function is 1 at its own node), a point whose three
    coordinates are the nodes [a0], [a1], [a2] gets the nodal value of tensor
    index [a0 + a1 * D1D + a2 * D1D^2] of its element and component. *)
Theorem nodal_value_reproduced {F : Type} {AF : Arith F}
    {EF : ExactArith F} {ZF : AddZero F}
    (m : mem F) (T_D1D npt ncomp nel gf_offset pN i fld a0 a1 a2 : Z) :
  inputs_ok m npt ncomp nel (degree T_D1D pN) = true ->
  0 <= i < npt -> 0 <= fld < ncomp ->
  0 <= a0 < degree T_D1D pN -> 0 <= a1 < degree T_D1D pN ->
  0 <= a2 < degree T_D1D pN ->
  table m RefR (3 * i + 0) = table m Gll1D a0 ->
  table m RefR (3 * i + 1) = table m Gll1D a1 ->
  table m RefR (3 * i + 2) = table m Gll1D a2 ->
  (forall q, 0 <= q < degree T_D1D pN ->
     fmul (fmul (table m LagCoeff q) (of_int (2 ^ (degree T_D1D pN - 1))))
          (prod_others (table m Gll1D) (table m Gll1D q) q
                       (degree T_D1D pN) fone) = fone) ->
  exists m',
    InterpolateLocal3DKernel T_D1D npt ncomp nel gf_offset pN m
    = Done (tt, m') /\
    dbl m' IntOut (i + fld * npt)
    = Val (table m GfIn
             (el_at m i * degree T_D1D pN ^ 3 * ncomp
              + fld * degree T_D1D pN ^ 3
              + a0 + a1 * degree T_D1D pN + a2 * degree T_D1D pN ^ 2)).
Proof.
  intros Hok Hi Hf H0 H1 H2 R0 R1 R2 Hcons.
  destruct (kernel_spec m T_D1D npt ncomp nel gf_offset pN Hok)
    as (m' & E & _ & Hv & _).
  apply inputs_ok_spec in Hok. destruct Hok as (HD & _).
  exists m'. split; [exact E|]. rewrite (Hv i fld Hi Hf). f_equal.
  unfold out_value.
  assert (W : forall d a q, table m RefR (3 * i + d) = table m Gll1D a ->
            0 <= a < degree T_D1D pN -> 0 <= q < degree T_D1D pN ->
            loop_weight m (degree T_D1D pN) i d q
            = if a =? q then fone else fzero).
  { intros d a q Hr Ha Hq.
    rewrite loop_weight_weight by (try apply fmul_one_r; lia).
    unfold weight. rewrite Hr.
    apply basis_value_kronecker; [lia | exact Ha | apply Hcons, Hq]. }
  apply interpolated_at_node;
    [ lia | exact H0 | exact H1 | exact H2
    | intros q Hq; apply (W 0 a0 q R0 H0 Hq)
    | intros q Hq; apply (W 1 a1 q R1 H1 Hq)
    | intros q Hq; apply (W 2 a2 q R2 H2 Hq) ].
Qed.

Lemma nodal_value_reproduced_witness :
  exists m',
    InterpolateLocal3DKernel 2 1 1 1 8 0 memQ_cube = Done (tt, m') /\
    dbl m' IntOut (0 + 0 * 1)
    = Val (table memQ_cube GfIn
             (el_at memQ_cube 0 * degree 2 0 ^ 3 * 1 + 0 * degree 2 0 ^ 3
              + 0 + 1 * degree 2 0 + 0 * degree 2 0 ^ 2)).
Proof.
  apply (@nodal_value_reproduced Qc Qc_arith Qc_exact Qc_add_zero
           memQ_cube 2 1 1 1 8 0 0 0 0 1 0).
  - vm_compute. reflexivity.
  - lia.
  - lia.
  - change (degree 2 0) with 2. lia.
  - change (degree 2 0) with 2. lia.
  - change (degree 2 0) with 2. lia.
  - reflexivity.
  - reflexivity.
  - reflexivity.
  - intros q Hq. change (degree 2 0) with 2 in *.
    assert (C : q = 0 \/ q = 1) by lia.
    destruct C as [-> | ->]; apply Qc_is_canon; vm_compute; reflexivity.
Defined.

(** ** Counts of nodes the scratch arrays do not fit *)

Section Keeps.
Context {F : Type} {AF : Arith F}.

Lemma bind_done_inv {A B} (c : M F A) (k : A -> M F B) m r :
  bind c k m = Done r -> exists a m1, c m = Done (a, m1) /\ k a m1 = Done r.
Proof.
  unfold bind. destruct (c m) as [[a m1]| |]; try discriminate.
  intros H. exists a, m1. auto.
Qed.

Lemma keeps_ret {A} (P : mem F -> Prop) (a : A) : keeps P (ret a).
Proof. intros m a' m' H E. inversion E. subst. exact H. Qed.

Lemma keeps_bind {A B} (P : mem F -> Prop) (c : M F A) (k : A -> M F B) :
  keeps P c -> (forall a, keeps P (k a)) -> keeps P (bind c k).
Proof.
  intros Hc Hk m b m' H E. apply bind_done_inv in E.
  destruct E as (a & m1 & E1 & E2). exact (Hk a m1 b m' (Hc m a m1 H E1) E2).
Qed.

Lemma keeps_for_list {A} (P : mem F -> Prop) (l : list Z)
    (body : Z -> A -> M F A) :
  (forall x a, In x l -> keeps P (body x a)) ->
  forall a, keeps P (for_list l body a).
Proof.
  induction l as [|x l IH]; intros Hb a; simpl.
  - apply keeps_ret.
  - apply keeps_bind; [apply Hb; left; reflexivity|].
    intros a'. apply IH. intros y a'' Hy. apply Hb. right. exact Hy.
Qed.

Lemma keeps_for_each (P : mem F -> Prop) (n : Z) (body : Z -> M F unit) :
  (forall x, 0 <= x < n -> keeps P (body x)) -> keeps P (for_each n body).
Proof.
  intros Hb. apply keeps_for_list. intros x _ Hx. apply Hb, in_zrange, Hx.
Qed.

Lemma keeps_for_loop {A} (P : mem F -> Prop) (n : Z)
    (body : Z -> A -> M F A) :
  (forall x a, 0 <= x < n -> keeps P (body x a)) ->
  forall a, keeps P (for_loop n body a).
Proof.
  intros Hb a. apply keeps_for_list. intros x a' Hx. apply Hb, in_zrange, Hx.
Qed.

Lemma keeps_load (P : mem F -> Prop) (p : dptr) (i : Z) : keeps P (load p i).
Proof.
  intros m a m' H E. unfold load in E.
  destruct (dbl m (base p) (off p + i)); inversion E. subst. exact H.
Qed.

Lemma keeps_load_int (P : mem F -> Prop) (i : Z) : keeps P (load_int i).
Proof.
  intros m a m' H E. unfold load_int in E.
  destruct (ints m i); inversion E. subst. exact H.
Qed.

Lemma keeps_int_expr (P : mem F -> Prop) (o : option Z) :
  keeps P (int_expr o).
Proof.
  intros m a m' H E. unfold int_expr in E.
  destruct o; inversion E. subst. exact H.
Qed.

(** A store never allocates. *)
Lemma keeps_store_unalloc (b : region) (o : Z) (p : dptr) (i : Z) (v : F) :
  keeps (fun m => dbl m b o = Unalloc) (store p i v).
Proof.
  intros m a m' H E. unfold store in E.
  destruct (dbl m (base p) (off p + i)) eqn:Ec; inversion E; subst;
    cbn [dbl set_cell];
    (destruct (region_eqb (base p) b && (off p + i =? o)) eqn:Eb;
     [|exact H]);
    apply andb_true_iff in Eb; destruct Eb as [Eb1 Eb2];
    apply region_eqb_eq in Eb1; apply Z.eqb_eq in Eb2; subst;
    rewrite H in Ec; discriminate.
Qed.

(** A store to another cell leaves a cell as it is. *)
Lemma keeps_store_other (b : region) (o : Z) (c : cell F)
    (p : dptr) (i : Z) (v : F) :
  base p <> b \/ off p + i <> o ->
  keeps (fun m => dbl m b o = c) (store p i v).
Proof.
  intros Hne m a m' H E. unfold store in E.
  assert (Eb : region_eqb (base p) b && (off p + i =? o) = false).
  { apply andb_false_iff. destruct Hne as [Hb | Ho].
    - left. destruct (region_eqb (base p) b) eqn:Er; [|reflexivity].
      apply region_eqb_eq in Er. contradiction.
    - right. apply Z.eqb_neq. exact Ho. }
  destruct (dbl m (base p) (off p + i)); inversion E; subst m';
    cbn [dbl set_cell]; rewrite Eb; exact H.
Qed.

Lemma keeps_lagrange_eval_unalloc (b : region) (o : Z)
    (p0 : dptr) (x : F) (i n : Z) (z lc : dptr) :
  keeps (fun m => dbl m b o = Unalloc) (lagrange_eval p0 x i n z lc).
Proof.
  unfold lagrange_eval. apply keeps_bind; [apply keeps_int_expr|]. intros s.
  apply keeps_bind.
  - apply keeps_for_loop. intros j a _. apply keeps_bind; [apply keeps_load|].
    intros zj. apply keeps_ret.
  - intros p_i. apply keeps_bind; [apply keeps_load|]. intros c.
    apply keeps_store_unalloc.
Qed.

Lemma keeps_lagrange_eval_other (b : region) (o : Z) (c : cell F)
    (p0 : dptr) (x : F) (i n : Z) (z lc : dptr) :
  base p0 <> b \/ off p0 + i <> o ->
  keeps (fun m => dbl m b o = c) (lagrange_eval p0 x i n z lc).
Proof.
  intros Hne. unfold lagrange_eval.
  apply keeps_bind; [apply keeps_int_expr|]. intros s. apply keeps_bind.
  - apply keeps_for_loop. intros j a _. apply keeps_bind; [apply keeps_load|].
    intros zj. apply keeps_ret.
  - intros p_i. apply keeps_bind; [apply keeps_load|]. intros c'.
    apply keeps_store_other, Hne.
Qed.

(** Storing through a pointer to a cell that is not allocated fails. *)
Lemma stuck_lagrange_eval (p0 : dptr) (x : F) (i n : Z) (z lc : dptr) :
  stuck (fun m => dbl m (base p0) (off p0 + i) = Unalloc)
        (lagrange_eval p0 x i n z lc).
Proof.
  intros m r H E. unfold lagrange_eval in E.
  apply bind_done_inv in E. destruct E as (s & ms & Es & E).
  assert (Hs : dbl ms (base p0) (off p0 + i) = Unalloc)
    by exact (keeps_int_expr
                (fun m => dbl m (base p0) (off p0 + i) = Unalloc)
                _ m s ms H Es).
  apply bind_done_inv in E. destruct E as (p_i & m1 & E1 & E).
  assert (H1 : dbl m1 (base p0) (off p0 + i) = Unalloc).
  { refine (keeps_for_loop (fun m => dbl m (base p0) (off p0 + i) = Unalloc)
              n _ _ _ ms p_i m1 Hs E1).
    intros j a _. apply keeps_bind; [apply keeps_load|].
    intros zj. apply keeps_ret. }
  apply bind_done_inv in E. destruct E as (c & m2 & E2 & E).
  assert (H2 : dbl m2 (base p0) (off p0 + i) = Unalloc)
    by exact (keeps_load (fun m => dbl m (base p0) (off p0 + i) = Unalloc)
                         _ _ m1 c m2 H1 E2).
  unfold store in E. rewrite H2 in E. discriminate.
Qed.

Lemma stuck_bind_l {A B} (P : mem F -> Prop) (c : M F A) (k : A -> M F B) :
  stuck P c -> stuck P (bind c k).
Proof.
  intros Hc m r H E. apply bind_done_inv in E.
  destruct E as (a & m1 & E1 & _). exact (Hc m (a, m1) H E1).
Qed.

Lemma stuck_bind_r {A B} (P : mem F -> Prop) (c : M F A) (k : A -> M F B) :
  keeps P c -> (forall a, stuck P (k a)) -> stuck P (bind c k).
Proof.
  intros Hc Hk m r H E. apply bind_done_inv in E.
  destruct E as (a & m1 & E1 & E2).
  exact (Hk a m1 r (Hc m a m1 H E1) E2).
Qed.

Lemma stuck_keeps {A} (P : mem F -> Prop) (c : M F A) :
  stuck P c -> keeps P c.
Proof. intros Hs m a m' H E. exfalso. exact (Hs m (a, m') H E). Qed.

(** Reading a cell that was never written fails. *)
Lemma stuck_load_uninit (p : dptr) (i : Z) :
  stuck (fun m : mem F => dbl m (base p) (off p + i) = Uninit) (load p i).
Proof. intros m r H E. unfold load in E. rewrite H in E. discriminate. Qed.

(** A loop one of whose iterations cannot complete does not complete. *)
Lemma stuck_for_list {A} (P : mem F -> Prop) (l : list Z)
    (body : Z -> A -> M F A) (x : Z) :
  In x l ->
  (forall y a, In y l -> keeps P (body y a)) ->
  (forall a, stuck P (body x a)) ->
  forall a, stuck P (for_list l body a).
Proof.
  induction l as [|y l IH]; intros Hin Hk Hs a; [destruct Hin|].
  simpl. destruct (Z.eq_dec y x) as [-> | Hne].
  - apply stuck_bind_l, Hs.
  - apply stuck_bind_r.
    + apply Hk. left. reflexivity.
    + intros a'. apply IH.
      * destruct Hin as [E | Hin]; [contradiction | exact Hin].
      * intros z a'' Hz. apply Hk. right. exact Hz.
      * exact Hs.
Qed.

Lemma stuck_for_each (P : mem F -> Prop) (n : Z) (body : Z -> M F unit)
    (x : Z) :
  0 <= x < n ->
  (forall y, 0 <= y < n -> keeps P (body y)) ->
  stuck P (body x) ->
  stuck P (for_each n body).
Proof.
  intros Hx Hk Hs. apply (stuck_for_list P (zrange n) _ x).
  - apply in_zrange, Hx.
  - intros y _ Hy. apply Hk, in_zrange, Hy.
  - intros _. exact Hs.
Qed.

(** Neither done nor aborted: undefined. *)
Lemma undefined_intro {A} (c : M F A) (m : mem F) :
  never_aborts c -> (forall r, c m <> Done r) -> c m = Undefined.
Proof.
  intros Ha Hd. destruct (c m) as [r| msg |] eqn:E.
  - exfalso. exact (Hd r eq_refl).
  - exfalso. exact (Ha m msg E).
  - reflexivity.
Qed.

(** The basis phase keeps what is not allocated, and cannot complete when
    the cell of [wtr] a lane is to fill is missing. *)
Lemma keeps_basis_lane (o : Z) (D i j k : Z) :
  keeps (fun m : mem F => dbl m Wtr o = Unalloc)
    ((if k <=? 2
      then x <- load (ptr RefR) (Int32.add (Int32.mul 3 i) k) ;;
           lagrange_eval (ptr_add (ptr Wtr) (Int32.mul k D)) x j D
                         (ptr Gll1D) (ptr LagCoeff)
      else ret tt) ;;
     (if (D =? 2) && (k =? 1)
      then x <- load (ptr RefR) (Int32.add (Int32.mul 3 i) 2) ;;
           lagrange_eval (ptr_add (ptr Wtr) (Int32.mul 2 D)) x j D
                         (ptr Gll1D) (ptr LagCoeff)
      else ret tt)).
Proof.
  apply keeps_bind.
  - destruct (k <=? 2); [|apply keeps_ret].
    apply keeps_bind; [apply keeps_load|]. intros x.
    apply keeps_lagrange_eval_unalloc.
  - intros _. destruct ((D =? 2) && (k =? 1)); [|apply keeps_ret].
    apply keeps_bind; [apply keeps_load|]. intros x.
    apply keeps_lagrange_eval_unalloc.
Qed.

Lemma stuck_basis_phase (D i j : Z) :
  2 < D -> 0 <= j < D ->
  stuck (fun m : mem F => dbl m Wtr (Int32.mul 2 D + j) = Unalloc)
        (basis_phase D i).
Proof.
  intros HD Hj. unfold basis_phase, MFEM_FOREACH_THREAD.
  apply (stuck_for_each _ D _ j Hj).
  - intros y Hy. apply keeps_for_each. intros k Hk. apply keeps_basis_lane.
  - apply (stuck_for_each _ D _ 2 ltac:(lia)).
    + intros k Hk. apply keeps_basis_lane.
    + apply stuck_bind_l. cbn [Z.leb Z.compare Pos.compare Pos.compare_cont].
      apply stuck_bind_r; [apply keeps_load|]. intros x m r H.
      apply stuck_lagrange_eval. exact H.
Qed.

(** The cell of [wtr] past the end that a degree above 10 writes. *)
Lemma wtr_overrun (D : Z) :
  10 < D <= Int32.INT_MAX ->
  exists j, 0 <= j < D /\
    fresh_cells (F:=F) (Int32.mul 3 10) (Int32.mul 2 D + j) = Unalloc.
Proof.
  unfold Int32.INT_MAX. intros HD.
  exists (if D <? 15 then 8 else 0). split; [destruct (D <? 15); lia|].
  unfold fresh_cells.
  replace (Int32.mul 3 10) with 30 by reflexivity.
  destruct (D <? 15) eqn:E15;
    [apply Z.ltb_lt in E15 | apply Z.ltb_ge in E15];
    unfold Int32.mul, Int32.wrap;
    match goal with
    | |- (if ?a && ?b then _ else _) = _ =>
        destruct a eqn:Ea; destruct b eqn:Eb; try reflexivity
    end;
    apply Z.leb_le in Ea; apply Z.ltb_lt in Eb; exfalso;
    Z.to_euclidean_division_equations; lia.
Qed.

Lemma stuck_point_body_above_max (D p_Np Nfields npt i : Z) :
  10 < D <= Int32.INT_MAX ->
  stuck (fun _ : mem F => True) (point_body 10 D p_Np Nfields npt i).
Proof.
  intros HD m r _ E. unfold point_body in E.
  apply bind_done_inv in E. destruct E as (u1 & m1 & E1 & E).
  apply bind_done_inv in E. destruct E as (u2 & m2 & E2 & E).
  apply bind_done_inv in E. destruct E as (u3 & m3 & E3 & _).
  unfold shared_alloc in E1, E2. inversion E1. inversion E2. subst m1 m2.
  destruct (wtr_overrun D HD) as (j & Hj & Hc).
  refine (stuck_basis_phase D i j ltac:(lia) Hj _ (u3, m3) _ E3).
  exact Hc.
Qed.

(** With the scratch arrays of the generic path, one node per direction
    leaves [wtr[2]] unwritten, and the contraction reads it. *)
Lemma keeps_basis_phase_one (i : Z) :
  keeps (fun m : mem F => dbl m Wtr 2 = Uninit) (basis_phase 1 i).
Proof.
  unfold basis_phase, MFEM_FOREACH_THREAD.
  apply keeps_for_each. intros j Hj. apply keeps_for_each. intros k Hk.
  assert (j = 0) by lia. assert (k = 0) by lia. subst j k.
  apply keeps_bind.
  - cbn [Z.leb Z.compare]. apply keeps_bind; [apply keeps_load|]. intros x.
    apply keeps_lagrange_eval_other. right. cbv. discriminate.
  - intros _. cbn [Z.eqb andb]. apply keeps_ret.
Qed.

Lemma stuck_contraction_phase_one (elemOffset : Z) :
  stuck (fun m : mem F => dbl m Wtr 2 = Uninit)
        (contraction_phase 1 elemOffset).
Proof.
  unfold contraction_phase, MFEM_FOREACH_THREAD.
  assert (L : forall j k, j = 0 -> k = 0 ->
    stuck (fun m : mem F => dbl m Wtr 2 = Uninit)
      (store (ptr Sums) (Int32.add j (Int32.mul k 1)) fzero ;;
       for_each 1 (fun l =>
         g <- load (ptr GfIn)
                (Int32.add (Int32.add (Int32.add elemOffset j) (Int32.mul k 1))
                           (Int32.mul (Int32.mul l 1) 1)) ;;
         w <- load (ptr Wtr) (Int32.add (Int32.mul 2 1) l) ;;
         s <- load (ptr Sums) (Int32.add j (Int32.mul k 1)) ;;
         store (ptr Sums) (Int32.add j (Int32.mul k 1)) (fadd s (fmul g w))) ;;
       wk <- load (ptr Wtr) (Int32.add 1 k) ;;
       wj <- load (ptr Wtr) j ;;
       s <- load (ptr Sums) (Int32.add j (Int32.mul k 1)) ;;
       store (ptr Sums) (Int32.add j (Int32.mul k 1)) (fmul s (fmul wk wj)))).
  { intros j k -> ->. apply stuck_bind_r.
    - apply keeps_store_other. left. discriminate.
    - intros _. apply stuck_bind_l.
      assert (S0 : stuck (fun m : mem F => dbl m Wtr 2 = Uninit)
        (g <- load (ptr GfIn)
                (Int32.add (Int32.add (Int32.add elemOffset 0) (Int32.mul 0 1))
                           (Int32.mul (Int32.mul 0 1) 1)) ;;
         w <- load (ptr Wtr) (Int32.add (Int32.mul 2 1) 0) ;;
         s <- load (ptr Sums) (Int32.add 0 (Int32.mul 0 1)) ;;
         store (ptr Sums) (Int32.add 0 (Int32.mul 0 1)) (fadd s (fmul g w)))).
      { apply stuck_bind_r; [apply keeps_load|]. intros g.
        apply stuck_bind_l. intros m r H.
        apply (stuck_load_uninit (ptr Wtr) (Int32.add (Int32.mul 2 1) 0)).
        exact H. }
      apply (stuck_for_each _ 1 _ 0 ltac:(lia)); [|exact S0].
      intros y Hy. assert (y = 0) by lia. subst y.
      apply stuck_keeps, S0. }
  apply (stuck_for_each _ 1 _ 0 ltac:(lia)).
  - intros y Hy. apply stuck_keeps.
    apply (stuck_for_each _ 1 _ 0 ltac:(lia)).
    + intros k Hk. apply stuck_keeps, L; lia.
    + apply L; lia.
  - apply (stuck_for_each _ 1 _ 0 ltac:(lia)).
    + intros k Hk. apply stuck_keeps, L; lia.
    + apply L; lia.
Qed.

Lemma stuck_point_body_one (p_Np Nfields npt i : Z) :
  0 < Nfields ->
  stuck (fun _ : mem F => True) (point_body 10 1 p_Np Nfields npt i).
Proof.
  intros HN m r _ E. unfold point_body in E.
  apply bind_done_inv in E. destruct E as (u1 & m1 & E1 & E).
  apply bind_done_inv in E. destruct E as (u2 & m2 & E2 & E).
  apply bind_done_inv in E. destruct E as (u3 & m3 & E3 & E).
  apply bind_done_inv in E. destruct E as (u4 & m4 & E4 & E).
  apply bind_done_inv in E. destruct E as (u5 & m5 & E5 & _).
  unfold shared_alloc in E1, E2. inversion E1. inversion E2. subst m1 m2.
  assert (H3 : dbl m3 Wtr 2 = Uninit).
  { refine (keeps_basis_phase_one i _ u3 m3 _ E3). reflexivity. }
  unfold MFEM_SYNC_THREAD, ret in E4. inversion E4. subst m4.
  revert E5.
  refine (stuck_for_each (fun m : mem F => dbl m Wtr 2 = Uninit)
            Nfields _ 0 ltac:(lia) _ _ m3 (u5, m5) H3).
  - intros fld Hf. apply keeps_bind; [apply keeps_load_int|]. intros e.
    apply keeps_bind.
    + apply stuck_keeps, stuck_contraction_phase_one.
    + intros _. apply keeps_bind; [apply keeps_ret|]. intros _.
      apply keeps_bind; [|intros _; apply keeps_ret].
      unfold reduction_phase, MFEM_FOREACH_THREAD.
      apply keeps_for_each. intros j Hj. apply keeps_for_each. intros k Hk.
      destruct ((j =? 0) && (k =? 0)); [|apply keeps_ret].
      apply keeps_bind.
      * apply keeps_for_loop. intros jj a _.
        apply keeps_bind; [apply keeps_load|]. intros s. apply keeps_ret.
      * intros sumv. apply keeps_store_other. left. discriminate.
  - apply stuck_bind_r; [apply keeps_load_int|]. intros e.
    apply stuck_bind_l, stuck_contraction_phase_one.
Qed.

End Keeps.

Section Overrun.
Context {F : Type} {AF : Arith F}.

(** The generic instantiation with a count of nodes other than zero is the
    loop over the points, with scratch arrays for ten nodes. *)
Lemma kernel_generic_run (npt ncomp nel gf_offset pN : Z) (m : mem F) :
  pN <> 0 ->
  InterpolateLocal3DKernel 0 npt ncomp nel gf_offset pN m
  = for_each npt (point_body 10 pN (Int32.mul (Int32.mul pN pN) pN) ncomp npt) m.
Proof.
  intros HpN. unfold InterpolateLocal3DKernel, MFEM_VERIFY, forall_2D.
  change (0 =? 0) with true. change (10 <=? 10) with true.
  cbv beta iota delta [bind].
  replace (pN =? 0) with false by (symmetry; apply Z.eqb_neq; exact HpN).
  reflexivity.
Qed.

Lemma dispatch_default_run (field_in_size npt ncomp nel dof1Dsol : Z)
    (m : mem F) :
  npt <> 0 -> (dof1Dsol < 2 \/ 5 < dof1Dsol) ->
  InterpolateLocal3 field_in_size npt ncomp nel dof1Dsol m
  = if ncomp =? 0 then Undefined
    else InterpolateLocal3DKernel 0 npt ncomp nel
           (Int32.div field_in_size ncomp) dof1Dsol m.
Proof.
  intros Hn Hd. unfold InterpolateLocal3.
  replace (npt =? 0) with false by (symmetry; apply Z.eqb_neq; exact Hn).
  unfold bind, ret. destruct (ncomp =? 0); [reflexivity|].
  destruct dof1Dsol as [|[[[]|[]|]|[[]|[]|]|]|]; first [reflexivity | lia].
Qed.

Lemma points_loop_undefined (npt : Z) (body : Z -> M F unit) (m : mem F) :
  0 < npt ->
  (forall i, never_aborts (body i)) ->
  stuck (fun _ => True) (body 0) ->
  for_each npt body m = Undefined.
Proof.
  intros Hn Ha Hs. apply undefined_intro.
  - apply na_for_each, Ha.
  - intros r. apply (stuck_for_each (fun _ => True) npt body 0); auto.
    + lia.
    + intros y _ m0 a m' _ _. exact I.
Qed.

End Overrun.

(** X10.  More than ten nodes per direction are not rejected and never
    handled: for every memory, every count of points above zero and every
    count of nodes from 11 to [INT_MAX], the generic instantiation fails
    with undefined behaviour, at the latest when the basis phase stores past
    the 30 cells of [wtr] (from 33 nodes on, already at the shift
    [1 << (p_Nq - 1)] of [lagrange_eval]); so does the dispatch called with
    that count. *)
Theorem above_max_always_undefined {F : Type} {AF : Arith F} (m : mem F)
    (field_in_size npt ncomp nel gf_offset pN : Z) :
  10 < pN <= Int32.INT_MAX -> 0 < npt ->
  InterpolateLocal3DKernel 0 npt ncomp nel gf_offset pN m = Undefined /\
  InterpolateLocal3 field_in_size npt ncomp nel pN m = Undefined.
Proof.
  intros HpN Hn.
  assert (K : forall g,
    InterpolateLocal3DKernel 0 npt ncomp nel g pN m = Undefined).
  { intros g. rewrite kernel_generic_run by lia.
    apply points_loop_undefined; [exact Hn | intros i; apply na_point_body |].
    apply stuck_point_body_above_max, HpN. }
  split; [apply K|].
  rewrite dispatch_default_run by lia.
  destruct (ncomp =? 0); [reflexivity | apply K].
Qed.

Lemma above_max_always_undefined_witness :
  InterpolateLocal3DKernel 0 1 1 1 1728 12 mem12 = Undefined /\
  InterpolateLocal3 1728 1 1 1 12 mem12 = Undefined.
Proof.
  apply (@above_max_always_undefined float float_arith mem12 1728 1 1 1 1728 12).
  - unfold Int32.INT_MAX. lia.
  - lia.
Defined.

(** X11.  One node per direction passes both checks and is never handled:
    for every memory and every count of points and of components above
    zero, the generic instantiation with [pN = 1] fails with undefined
    behaviour, when the contraction reads [wtr[2]], which the basis phase
    has not written; so does the dispatch called with [dof1Dsol = 1]. *)
Theorem one_node_always_undefined {F : Type} {AF : Arith F} (m : mem F)
    (field_in_size npt ncomp nel gf_offset : Z) :
  0 < npt -> 0 < ncomp ->
  InterpolateLocal3DKernel 0 npt ncomp nel gf_offset 1 m = Undefined /\
  InterpolateLocal3 field_in_size npt ncomp nel 1 m = Undefined.
Proof.
  intros Hn Hc.
  assert (K : forall g,
    InterpolateLocal3DKernel 0 npt ncomp nel g 1 m = Undefined).
  { intros g. rewrite kernel_generic_run by lia.
    apply points_loop_undefined; [exact Hn | intros i; apply na_point_body |].
    apply stuck_point_body_one, Hc. }
  split; [apply K|].
  rewrite dispatch_default_run by lia.
  destruct (ncomp =? 0); [reflexivity | apply K].
Qed.

Lemma one_node_always_undefined_witness :
  InterpolateLocal3DKernel 0 1 3 1 8 1 mem3 = Undefined /\
  InterpolateLocal3 24 1 3 1 1 mem3 = Undefined.
Proof.
  apply (@one_node_always_undefined float float_arith mem3 24 1 3 1 8); lia.
Defined.

(** ** The basis phase and the sum over all the nodes *)

#[export] Instance Qc_sum : SumArith Qc.
Proof.
  split; simpl; intros.
  - apply Qcplus_assoc.
  - apply Qcmult_plus_distr_l.
Qed.

Section Sums.
Context {F : Type} {AF : Arith F}.
Context {EF : ExactArith F} {ZF : AddZero F} {SF : SumArith F}.

Lemma fsum_nonpos (f : Z -> F) (n : Z) : n <= 0 -> fsum f n = fzero.
Proof. intros H. unfold fsum. rewrite zrange_nonpos by exact H. reflexivity. Qed.

Lemma fsum_mul_distr_r (f : Z -> F) (c : F) (n : Z) :
  fmul (fsum f n) c = fsum (fun l => fmul (f l) c) n.
Proof.
  destruct (Z_le_gt_dec 0 n) as [Hn | Hn].
  - pattern n. apply natlike_ind; [| |exact Hn].
    + rewrite !fsum_nonpos by lia. apply fmul_zero_l.
    + intros x Hx IH. unfold Z.succ. rewrite !fsum_succ by exact Hx.
      rewrite fmul_add_distr_r, IH. reflexivity.
  - rewrite !fsum_nonpos by lia. apply fmul_zero_l.
Qed.

Lemma fsum_add (f : Z -> F) (a b : Z) :
  0 <= a -> 0 <= b ->
  fsum f (a + b) = fadd (fsum f a) (fsum (fun j => f (a + j)) b).
Proof.
  intros Ha Hb. pattern b. apply natlike_ind; [| |exact Hb].
  - rewrite Z.add_0_r, (fsum_nonpos _ 0) by lia.
    symmetry. apply fadd_zero_r.
  - intros x Hx IH. unfold Z.succ. rewrite Z.add_assoc.
    rewrite !fsum_succ by lia. rewrite IH. symmetry. apply fadd_assoc.
Qed.

(** A sum over the flat index is the sum over the rows of the sums over
    each row. *)
Lemma fsum_flat (g : Z -> Z -> F) (D K : Z) :
  0 < D -> 0 <= K ->
  fsum (fun jj => g (jj mod D) (jj / D)) (K * D)
  = fsum (fun k => fsum (fun j => g j k) D) K.
Proof.
  intros HD HK. pattern K. apply natlike_ind; [| |exact HK].
  - rewrite !fsum_nonpos by lia. reflexivity.
  - intros x Hx IH. unfold Z.succ.
    rewrite Z.mul_add_distr_r, Z.mul_1_l.
    rewrite fsum_add by nia. rewrite fsum_succ by exact Hx.
    rewrite IH. f_equal. apply fsum_ext. intros j Hj.
    rewrite (Z.add_comm (x * D) j).
    rewrite Z.mod_add by lia. rewrite Z.div_add by lia.
    rewrite Z.mod_small by lia. rewrite Z.div_small by lia.
    reflexivity.
Qed.

Lemma interpolated_tensor_sum (w : Z -> Z -> F) (m : mem F)
    (D1D ncomp i fld : Z) :
  0 < D1D ->
  interpolated w m D1D ncomp i fld = tensor_sum w m D1D ncomp i fld.
Proof.
  intros HD. unfold interpolated, tensor_sum.
  rewrite (fsum_flat (fun j k => lane_value w m D1D ncomp i fld j k))
    by lia.
  apply fsum_ext. intros k Hk. apply fsum_ext. intros j Hj.
  unfold lane_value. apply fsum_mul_distr_r.
Qed.

End Sums.

(** X12.  The basis phase of point [i], for every count of nodes from 2 to
    10, fills the first [3 * D1D] cells of [wtr] with the three weight
    vectors, direction [d] at [wtr[d * D1D + q]]; with two nodes the weights
    of the third direction come from the lanes [k = 1].  It writes nothing
    outside [wtr]. *)
Theorem basis_phase_fills_wtr {F : Type} {AF : Arith F}
    (m : mem F) (D1D npt i : Z) :
  (forall x : F, fmul x fone = x) ->
  2 <= D1D <= 10 -> 3 * npt <= Int32.INT_MAX -> 0 <= i < npt ->
  all_range (3 * npt) (fun o => is_val (dbl m RefR o)) = true ->
  all_range D1D (fun o => is_val (dbl m Gll1D o)) = true ->
  all_range D1D (fun o => is_val (dbl m LagCoeff o)) = true ->
  all_range (3 * D1D) (fun o => is_alloc (dbl m Wtr o)) = true ->
  exists m',
    basis_phase D1D i m = Done (tt, m') /\
    (forall d q, 0 <= d < 3 -> 0 <= q < D1D ->
       dbl m' Wtr (d * D1D + q) = Val (weight m D1D i d q)) /\
    (forall e, ints m' e = ints m e) /\
    (forall b o, b <> Wtr -> dbl m' b o = dbl m b o).
Proof.
  intros H1 HD Hn Hi Hr Hz Hc Hw.
  rewrite all_range_spec in Hr, Hz, Hc, Hw.
  destruct (basis_phase_run m npt D1D HD Hn Hr Hz Hc i m Hi) as
    (m' & E & [Hints Hoff] & Hready).
  - split; intros; reflexivity.
  - exact Hw.
  - exists m'. split; [exact E|]. split; [|split].
    + intros d q Hd Hq. rewrite (Hready d q Hd Hq). f_equal.
      apply loop_weight_weight; [exact H1 | lia].
    + exact Hints.
    + intros b o Hb. apply Hoff. unfold is_wtr.
      destruct (region_eqb b Wtr) eqn:Eb; [|reflexivity].
      apply region_eqb_eq in Eb. contradiction.
Qed.

Lemma basis_phase_fills_wtr_witness :
  exists m',
    basis_phase 2 0 mem_wtr = Done (tt, m') /\
    (forall d q, 0 <= d < 3 -> 0 <= q < 2 ->
       dbl m' Wtr (d * 2 + q) = Val (weight mem_wtr 2 0 d q)) /\
    (forall e, ints m' e = ints mem_wtr e) /\
    (forall b o, b <> Wtr -> dbl m' b o = dbl mem_wtr b o).
Proof.
  apply (@basis_phase_fills_wtr float float_arith mem_wtr 2 1 0
           float_mul_one_r).
  - lia.
  - unfold Int32.INT_MAX. lia.
  - lia.
  - reflexivity.
  - reflexivity.
  - reflexivity.
  - reflexivity.
Defined.

(** X13.  In arithmetic with the laws of a semiring, what the kernel
    writes for point [i] and component [fld] is the tensor-product
    interpolant: the sum over all the nodes [(j, k, l)] of the element of the
    nodal value times the three basis values; the sum factorisation changes
    no value. *)
Theorem kernel_is_tensor_interpolant {F : Type} {AF : Arith F}
    {EF : ExactArith F} {ZF : AddZero F} {SF : SumArith F}
    (m : mem F) (T_D1D npt ncomp nel gf_offset pN i fld : Z) :
  inputs_ok m npt ncomp nel (degree T_D1D pN) = true ->
  0 <= i < npt -> 0 <= fld < ncomp ->
  exists m',
    InterpolateLocal3DKernel T_D1D npt ncomp nel gf_offset pN m
    = Done (tt, m') /\
    dbl m' IntOut (i + fld * npt)
    = Val (tensor_sum (weight m (degree T_D1D pN) i) m
             (degree T_D1D pN) ncomp i fld).
Proof.
  intros Hok Hi Hf.
  destruct (kernel_spec m T_D1D npt ncomp nel gf_offset pN Hok)
    as (m' & E & _ & Hv & _).
  apply inputs_ok_spec in Hok. destruct Hok as (HD & _).
  exists m'. split; [exact E|].
  rewrite (Hv i fld Hi Hf). f_equal. unfold out_value.
  rewrite <- interpolated_tensor_sum by lia.
  apply interpolated_ext; [lia | | reflexivity].
  intros d q _ _. apply loop_weight_weight; [apply fmul_one_r | lia].
Qed.

Lemma kernel_is_tensor_interpolant_witness :
  exists m',
    InterpolateLocal3DKernel 2 1 1 1 8 0 memQ_cube = Done (tt, m') /\
    dbl m' IntOut (0 + 0 * 1)
    = Val (tensor_sum (weight memQ_cube (degree 2 0) 0) memQ_cube
             (degree 2 0) 1 0 0).
Proof.
  apply (@kernel_is_tensor_interpolant Qc Qc_arith Qc_exact Qc_add_zero Qc_sum
           memQ_cube 2 1 1 1 8 0 0 0).
  - vm_compute. reflexivity.
  - lia.
  - lia.
Defined.
